(** * GalleryApp front end: the authenticated HTTP client, the session store
      and the API wrappers, embedded in Rocq.

    Sources embedded here:
    - [src/services/userAxiosInstance.ts]: [isTokenExpired],
      [refreshAccessToken], the request and response interceptors of
      [apiClient];
    - [src/stores/userAuthStore.ts]: [setAuth], [logout];
    - [src/services/userApi.ts]: [handleAxiosError] and the ten wrappers;
    - [App.tsx]: the route table.

    Asynchronous functions are written in a state-and-exception monad over
    an explicit [World]: a promise that resolves is [Resolved], one that
    rejects is [Rejected].  The browser, the network and the libraries the
    code calls (axios, zustand's persist middleware, jwt-decode,
    JSON.stringify) are not part of the repository: the pure ones are
    parameters gathered in [Env], the others are modelled by the few
    definitions of the section "Library primitives". *)

From Stdlib Require Import ZArith Ascii String List Lia Bool.
From stdpp Require Import base option gmap strings list.

Local Open Scope string_scope.
Local Open Scope list_scope.

(** ** Data model *)

Inductive Method := GET | POST | DELETE.

(** [IUser] and [IImageOrder] of [types/basictype.ts]. *)
Record IUser := mkUser {
  user_username : option string;
  user_email : string;
  user_phoneNumber : option string;
  user_password : string
}.

Record IImageOrder := mkImageOrder {
  order_id : string;
  order : Z
}.

(** The request bodies the code builds: none, an object of string
    members, the reordering list, a multipart form. *)
Inductive RequestData :=
| NoData
| JsonFields (fields : list (string * string))
| ImageOrders (imageOrder : list IImageOrder)
| Form (formData : string).

(** An axios request config: the fields the code reads or writes.
    [_retry] is the custom flag the response interceptor sets. *)
Record Config := mkConfig {
  method : Method;
  url : string;
  data : RequestData;
  Authorization : option string;
  _retry : bool
}.

Definition set_Authorization (h : string) (c : Config) : Config :=
  mkConfig (method c) (url c) (data c) (Some h) (_retry c).

Definition set_retry (b : bool) (c : Config) : Config :=
  mkConfig (method c) (url c) (data c) (Authorization c) b.

(** The [data] member of a response body ([any] in the source): the
    sign-in and verification endpoints answer with a token and an email,
    the others with something the wrappers do not look into. *)
Inductive Payload :=
| AuthData (accessToken email : string)
| OtherData (raw : string).

(** A response body.  [success] and [accessToken] are the members of
    [interface RefreshResponse]; a member that is absent is [false], the
    empty string (both falsy in the source's tests) or [None]. *)
Record Body := mkBody {
  success : bool;
  accessToken : string;
  message : option string;
  payload : option Payload
}.

Record Response := mkResponse {
  status : Z;
  body : Body
}.

(** What a rejected promise carries.  An [AxiosError] has the config of the
    request and, when the server answered, the response; a plain [Error]
    has neither. *)
Inductive JsError :=
| AxiosError (config : Config) (response : option Response)
| PlainError (msg : string)
| TypeError (msg : string).

(** The zustand store of [userAuthStore.ts]. *)
Record AuthState := mkAuthState {
  isAuthenticated : bool;
  email : option string
}.

(** [Partial<AuthState>], the argument of zustand's [set]. *)
Record PartialAuthState := mkPartial {
  upd_isAuthenticated : option bool;
  upd_email : option (option string)
}.

(** A request put on the wire, by the [apiClient] instance or by the bare
    [axios] import (which has no interceptors). *)
Inductive Channel := ViaApiClient | ViaAxios.

Inductive NetCall := Sent (via : Channel) (config : Config).


Definition is_client_call (c : NetCall) : bool :=
  match c with Sent ViaApiClient _ => true | Sent ViaAxios _ => false end.

(** How many requests of a history went through the [apiClient]
    instance. *)
Fixpoint client_calls (l : list NetCall) : nat :=
  match l with
  | [] => 0
  | c :: l => (if is_client_call c then 1 else 0) + client_calls l
  end.

Inductive HttpOutcome :=
| Reply (r : Response)
| NoReply.

(** The decoded payload of a token: [exp] may be missing. *)
Record JwtPayload := mkJwt { exp : option Z }.

(** The browser state the code touches.  [network] is the history of the
    requests sent, [location] the values assigned to
    [window.location.href], in order. *)
Record World := mkWorld {
  localStorage : gmap string string;
  authStore : AuthState;
  network : list NetCall;
  location : list string;
  toasts : list (option string);
  console : list string
}.

(** What lies outside the repository and is pure: the build-time
    environment variable, jwt-decode ([None] when it throws), the clock
    and the server as functions of the requests sent so far (every two
    readings of the clock in this code are separated by a request), and
    JSON.stringify on the persisted state. *)
Record Env := mkEnv {
  VITE_API_URI : option string;
  jwtDecode : string -> option JwtPayload;
  Date_now : list NetCall -> Z;
  server : list NetCall -> NetCall -> HttpOutcome;
  JSON_stringify : AuthState -> string
}.

(** ** The monad of asynchronous code *)

(** [Unfinished] is only produced when the fuel of [apiClient_rec] runs
    out; no handler catches it. *)
Inductive Outcome (A : Type) :=
| Resolved (a : A)
| Rejected (e : JsError)
| Unfinished.

Arguments Resolved {A} a.
Arguments Rejected {A} e.
Arguments Unfinished {A}.

Definition M (A : Type) : Type := World -> Outcome A * World.

Definition ret {A} (a : A) : M A := fun w => (Resolved a, w).

Definition reject {A} (e : JsError) : M A := fun w => (Rejected e, w).

Definition bind {A B} (m : M A) (k : A -> M B) : M B := fun w =>
  match m w with
  | (Resolved a, w') => k a w'
  | (Rejected e, w') => (Rejected e, w')
  | (Unfinished, w') => (Unfinished, w')
  end.

(** [try { m } catch (error) { h error }] *)
Definition try_catch {A} (m : M A) (h : JsError -> M A) : M A := fun w =>
  match m w with
  | (Rejected e, w') => h e w'
  | r => r
  end.

Declare Scope js_scope.
Delimit Scope js_scope with js.
Notation "x <- c1 ;; c2" := (bind c1 (fun x => c2))
  (at level 100, c1 at next level, right associativity) : js_scope.
Notation "c1 ;; c2" := (bind c1 (fun _ => c2))
  (at level 100, right associativity) : js_scope.
Local Open Scope js_scope.

(** JavaScript truthiness of a [string | null | undefined]. *)
Definition truthy (s : option string) : bool :=
  match s with
  | Some s => negb (String.eqb s "")
  | None => false
  end.

(** ** Library primitives *)

Definition localStorage_getItem (k : string) : M (option string) := fun w =>
  (Resolved (localStorage w !! k), w).

Definition localStorage_setItem (k v : string) : M unit := fun w =>
  (Resolved tt,
   mkWorld (<[k := v]> (localStorage w)) (authStore w) (network w)
           (location w) (toasts w) (console w)).

Definition localStorage_removeItem (k : string) : M unit := fun w =>
  (Resolved tt,
   mkWorld (delete k (localStorage w)) (authStore w) (network w)
           (location w) (toasts w) (console w)).

(** [window.location.href = path] *)
Definition set_location_href (path : string) : M unit := fun w =>
  (Resolved tt,
   mkWorld (localStorage w) (authStore w) (network w)
           (location w ++ [path]) (toasts w) (console w)).

Definition toast_error (msg : option string) : M unit := fun w =>
  (Resolved tt,
   mkWorld (localStorage w) (authStore w) (network w)
           (location w) (toasts w ++ [msg]) (console w)).

(** [console.error] and [console.log]: the label is kept. *)
Definition console_log (label : string) : M unit := fun w =>
  (Resolved tt,
   mkWorld (localStorage w) (authStore w) (network w)
           (location w) (toasts w) (console w ++ [label])).

Definition merge_state (u : PartialAuthState) (s : AuthState) : AuthState :=
  mkAuthState (default (isAuthenticated s) (upd_isAuthenticated u))
              (default (email s) (upd_email u)).

(** axios settles a response by its status: 2xx resolves, the rest
    rejects with an error that carries the response. *)
Definition validateStatus (st : Z) : bool := (200 <=? st)%Z && (st <? 300)%Z.

Section Client.

Variable env : Env.

(** zustand's [set] as the [persist] middleware hands it to the store
    creator: the update is merged, then the state is written under the
    store's [name], ['auth-store']. *)
Definition set (u : PartialAuthState) : M unit := fun w =>
  let s := merge_state u (authStore w) in
  (Resolved tt,
   mkWorld (<["auth-store" := JSON_stringify env s]> (localStorage w)) s
           (network w) (location w) (toasts w) (console w)).

(** One request on the wire; the history grows whatever the answer. *)
Definition transmit (via : Channel) (c : Config) : M Response := fun w =>
  let call := Sent via c in
  let w' := mkWorld (localStorage w) (authStore w) (network w ++ [call])
                    (location w) (toasts w) (console w) in
  match server env (network w) call with
  | Reply r =>
      if validateStatus (status r) then (Resolved r, w')
      else (Rejected (AxiosError c (Some r)), w')
  | NoReply => (Rejected (AxiosError c None), w')
  end.

Definition API_URI : string :=
  if truthy (VITE_API_URI env) then default "" (VITE_API_URI env)
  else "http://localhost:5000/api/user".

(** [axios.post(url, data)] on the bare import. *)
Definition axios_post (u : string) (d : RequestData) : M Response :=
  transmit ViaAxios (mkConfig POST u d None false).

(** ** userAuthStore.ts: setAuth *)

Definition setAuth (auth : bool) (email : option string) : M unit :=
  if truthy email then
    localStorage_setItem "userEmail" (default "" email) ;;
    set (mkPartial (Some auth) (Some email))
  else
    set (mkPartial (Some auth) None).

(** ** userAxiosInstance.ts *)

(** [decodedToken.exp <= Date.now() / 1000]: [exp] is a whole number of
    seconds, the clock counts milliseconds, and a payload without [exp]
    compares false.  A throw of [jwtDecode] is caught and logged. *)
Definition isTokenExpired (token : string) : M bool := fun w =>
  match jwtDecode env token with
  | Some decodedToken =>
      match exp decodedToken with
      | Some e => (Resolved (e * 1000 <=? Date_now env (network w))%Z, w)
      | None => (Resolved false, w)
      end
  | None => (console_log "Error decoding token:" ;; ret true) w
  end.

(** The request of the refresh: [axios.post(`${API_URI}/refresh-token`,
    {}, { withCredentials: true })]. *)
Definition refresh_config : Config :=
  mkConfig POST (API_URI ++ "/refresh-token") (JsonFields []) None false.

(** In a browser [typeof window !== 'undefined'] holds, here and in the
    interceptors: the statements it guards always run. *)
Definition refreshAccessToken : M (option string) :=
  try_catch
    (response <- axios_post (API_URI ++ "/refresh-token") (JsonFields []) ;;
     if success (body response) && truthy (Some (accessToken (body response)))
     then
       let newAccessToken := accessToken (body response) in
       localStorage_setItem "accessToken" newAccessToken ;;
       setAuth true None ;;
       ret (Some newAccessToken)
     else ret None)
    (fun error => console_log "Error refreshing token:" ;; ret None).

Definition session_expired : JsError :=
  PlainError "Session expired. Please login again.".

Definition bearer (token : string) : string := "Bearer " ++ token.

(** The branch both failure paths of the request interceptor run. *)
Definition give_up_session : M (string + JsError) :=
  setAuth false None ;;
  localStorage_removeItem "accessToken" ;;
  set_location_href "/login" ;;
  ret (inr session_expired).

(** [apiClient.interceptors.request.use(async (config) => ...)].
    [return Promise.reject(...)] inside the [try] leaves the function
    with a rejected promise that the [catch] of that [try] does not see:
    the [try] yields either the token to attach or the error to reject
    with. *)
Definition request_onFulfilled (config : Config) : M Config :=
  token <- localStorage_getItem "accessToken" ;;
  if truthy token then
    let token := default "" token in
    expired <- isTokenExpired token ;;
    if expired then
      r <- try_catch
             (newToken <- refreshAccessToken ;;
              if truthy newToken then ret (inl (default "" newToken))
              else give_up_session)
             (fun error => give_up_session) ;;
      match r with
      | inl token => ret (set_Authorization (bearer token) config)
      | inr e => reject e
      end
    else ret (set_Authorization (bearer token) config)
  else ret config.

Definition dispatchRequest (config : Config) : M Response :=
  transmit ViaApiClient config.

Definition response_onFulfilled (response : Response) : M Response :=
  ret response.

(** [apiClient.interceptors.response.use(..., async (error) => ...)].
    [apiClient] is the instance the handler calls to resend.  The promise
    of the resend is returned without [await], so its rejection is not
    caught by the [try]; [originalRequest] is [error.config] itself, so
    the error rejected at the end carries the flag just set. *)
Definition response_onRejected (apiClient : Config -> M Response)
    (error : JsError) : M Response :=
  match error with
  | AxiosError originalRequest (Some r) =>
      if (status r =? 401)%Z && negb (_retry originalRequest) then
        let originalRequest := set_retry true originalRequest in
        resend <- try_catch
                    (newToken <- refreshAccessToken ;;
                     if truthy newToken then
                       ret (Some (set_Authorization
                                    (bearer (default "" newToken))
                                    originalRequest))
                     else ret None)
                    (fun refreshError =>
                       console_log "Token refresh failed:" ;; ret None) ;;
        match resend with
        | Some request => apiClient request
        | None =>
            localStorage_removeItem "accessToken" ;;
            setAuth false None ;;
            toast_error (Some "Session expired. Please login again.") ;;
            set_location_href "/login" ;;
            reject (AxiosError originalRequest (Some r))
        end
      else reject error
  | _ => reject error
  end.

(** [promise.then(onFulfilled, onRejected)] *)
Definition then_ {A B} (m : M A) (onFulfilled : A -> M B)
    (onRejected : JsError -> M B) : M B := fun w =>
  match m w with
  | (Resolved a, w') => onFulfilled a w'
  | (Rejected e, w') => onRejected e w'
  | (Unfinished, w') => (Unfinished, w')
  end.

(** The part of a request up to the answer of the server: the request
    interceptor, then the dispatch of what it returns. *)
Definition apiClient_send (config : Config) : M Response :=
  config' <- request_onFulfilled config ;;
  dispatchRequest config'.

(** axios chains the request interceptor, the dispatch and the response
    interceptor; a rejection of either of the first two reaches the
    response interceptor's error handler. *)
Definition request (apiClient : Config -> M Response) (config : Config)
    : M Response :=
  then_ (apiClient_send config) response_onFulfilled
        (response_onRejected apiClient).

(** The instance calls itself from its own response interceptor: the
    recursion is cut by [fuel]. *)
Fixpoint apiClient_rec (fuel : nat) (config : Config) : M Response :=
  match fuel with
  | O => fun w => (Unfinished, w)
  | S n => request (apiClient_rec n) config
  end.

(** One attempt and one resend; [apiClient_rec_fuel] below shows that
    more fuel changes nothing. *)
Definition apiClient : Config -> M Response := apiClient_rec 2.

Definition apiClient_get (u : string) : M Response :=
  apiClient (mkConfig GET u NoData None false).

Definition apiClient_post (u : string) (d : RequestData) : M Response :=
  apiClient (mkConfig POST u d None false).

Definition apiClient_delete (u : string) : M Response :=
  apiClient (mkConfig DELETE u NoData None false).

(** ** userAuthStore.ts: logout *)

(** Nothing catches a rejection of the awaited call. *)
Definition logout : M unit :=
  apiClient_post "/logout" NoData ;;
  localStorage_removeItem "auth-store" ;;
  localStorage_removeItem "accessToken" ;;
  localStorage_removeItem "userEmail" ;;
  set (mkPartial (Some false) (Some None)).

(** ** userApi.ts *)

Definition handleAxiosError (error : JsError) : M unit :=
  match error with
  | AxiosError _ response =>
      let msg := match response with
                 | Some r => message (body r)
                 | None => None
                 end in
      console_log "Axios Error:" ;;
      toast_error msg
  | _ =>
      console_log "Unexpected error:" ;;
      toast_error (Some "Something went wrong. Please try again.")
  end.

Definition user_fields (u : IUser) : list (string * string) :=
  match user_username u with Some n => [("username", n)] | None => [] end
  ++ [("email", user_email u)]
  ++ match user_phoneNumber u with
     | Some n => [("phoneNumber", n)] | None => [] end
  ++ [("password", user_password u)].

(** [response.data.data.accessToken] and [.email]: reading a member of
    an absent [data] throws, a member the payload lacks is undefined
    (falsy, here the empty string). *)
Definition payload_accessToken (p : Payload) : string :=
  match p with AuthData a _ => a | OtherData _ => "" end.

Definition payload_email (p : Payload) : string :=
  match p with AuthData _ e => e | OtherData _ => "" end.

Definition read_payload (b : Body) : M Payload :=
  match payload b with
  | Some p => ret p
  | None => reject (TypeError "Cannot read properties of undefined")
  end.

(** A wrapper returns [response.data], or [undefined] ([None]) when its
    [catch] block ends without a [return]. *)
Definition Signup (userData : IUser) : M (option Body) :=
  try_catch
    (response <- axios_post (API_URI ++ "/signup")
                            (JsonFields (user_fields userData)) ;;
     ret (Some (body response)))
    (fun error => handleAxiosError error ;; ret None).

Definition VerifyCode (email cacheCode : string) : M (option Body) :=
  try_catch
    (response <- axios_post (API_URI ++ "/verify-cache")
                   (JsonFields [("email", email); ("cacheCode", cacheCode)]) ;;
     p <- read_payload (body response) ;;
     let accessToken := payload_accessToken p in
     (if truthy (Some accessToken) then
        localStorage_setItem "accessToken" accessToken ;;
        setAuth true (Some email)
      else ret tt) ;;
     ret (Some (body response)))
    (fun error => handleAxiosError error ;; ret None).

Definition SignIn (userData : IUser) : M (option Body) :=
  try_catch
    (response <- axios_post (API_URI ++ "/signin")
                            (JsonFields (user_fields userData)) ;;
     p <- read_payload (body response) ;;
     let accessToken := payload_accessToken p in
     let email := payload_email p in
     (if truthy (Some accessToken) then
        localStorage_setItem "accessToken" accessToken ;;
        setAuth true (Some email)
      else ret tt) ;;
     ret (Some (body response)))
    (fun error => handleAxiosError error ;; ret None).

Definition forgotPassword (email : string) : M (option Body) :=
  try_catch
    (response <- axios_post (API_URI ++ "/forgot-password")
                            (JsonFields [("email", email)]) ;;
     ret (Some (body response)))
    (fun error => handleAxiosError error ;; ret None).

Definition resetPassword (cacheCode password email : string)
    : M (option Body) :=
  try_catch
    (response <- axios_post (API_URI ++ "/reset-password")
                   (JsonFields [("cacheCode", cacheCode);
                                ("password", password); ("email", email)]) ;;
     ret (Some (body response)))
    (fun error => handleAxiosError error ;; ret None).

Definition uploadImage (formData : string) : M (option Body) :=
  try_catch
    (response <- apiClient_post "/upload" (Form formData) ;;
     ret (Some (body response)))
    (fun error => handleAxiosError error ;; reject error).

Definition getImages : M (option Body) :=
  try_catch
    (response <- apiClient_get "/images" ;;
     ret (Some (body response)))
    (fun error => handleAxiosError error ;; ret None).

Definition updateImageOrder (imageOrder : list IImageOrder)
    : M (option Body) :=
  try_catch
    (response <- apiClient_post "/change-order" (ImageOrders imageOrder) ;;
     ret (Some (body response)))
    (fun error => handleAxiosError error ;; ret None).

Definition deleteImage (id : string) : M (option Body) :=
  try_catch
    (response <- apiClient_delete ("/delete-image/" ++ id) ;;
     ret (Some (body response)))
    (fun error => handleAxiosError error ;; ret None).

Definition updateImage (id formData : string) : M (option Body) :=
  try_catch
    (response <- apiClient_post ("/update-image/" ++ id) (Form formData) ;;
     ret (Some (body response)))
    (fun error => handleAxiosError error ;; ret None).

End Client.

(** ** App.tsx: the route table *)

Inductive View :=
| HomePage | SignupPage | VerificationPage | LoginPage
| ForgotPasswordPage | ResetPasswordPage.

(** A segment of a route path: a literal, or a parameter ([:email]). *)
Inductive Segment := Lit (s : string) | Param (name : string).

Definition routes : list (list Segment * View) :=
  [ ([], HomePage);
    ([Lit "signup"], SignupPage);
    ([Lit "verify-cache"; Param "email"], VerificationPage);
    ([Lit "signin"], LoginPage);
    ([Lit "forgot-password"], ForgotPasswordPage);
    ([Lit "reset-password"; Param "email"], ResetPasswordPage) ].

(** The non-empty segments of a path, split at ["/"]. *)
Fixpoint segments_from (cur : string) (path : string) : list string :=
  match path with
  | EmptyString => if String.eqb cur "" then [] else [cur]
  | String c rest =>
      if Ascii.eqb c "/"%char then
        if String.eqb cur "" then segments_from "" rest
        else cur :: segments_from "" rest
      else segments_from (cur ++ String c "") rest
  end.

Definition segments (path : string) : list string := segments_from "" path.

Fixpoint matches (pattern : list Segment) (segs : list string) : bool :=
  match pattern, segs with
  | [], [] => true
  | Lit s :: pattern, seg :: segs => String.eqb s seg && matches pattern segs
  | Param _ :: pattern, _ :: segs => matches pattern segs
  | _, _ => false
  end.

(** The view the router renders at a path, if any route matches.
    Literal segments are compared as they are written and empty
    segments are skipped; the router itself compares literals without
    regard to case.  The statements below are about the home path,
    ["/signin"] and ["/login"], where this makes no difference. *)
Definition match_route (path : string) : option View :=
  snd <$> List.find (fun r => matches (fst r) (segments path)) routes.

(** ** Vocabulary of the statements *)

(** Nothing below is in the source: these definitions name the requests,
    worlds and behaviours the theorems talk about. *)

Section Vocabulary.

Variable env : Env.

(** The request the refresh puts on the wire and the answer it gets. *)
Definition refresh_call : NetCall := Sent ViaAxios (refresh_config env).

Definition refresh_reply (w : World) : HttpOutcome :=
  server env (network w) refresh_call.

(** The token a reply to the refresh grants, if any. *)
Definition granted (o : HttpOutcome) : option string :=
  match o with
  | Reply r =>
      if validateStatus (status r) && success (body r)
         && truthy (Some (accessToken (body r)))
      then Some (accessToken (body r)) else None
  | NoReply => None
  end.

(** The world after a refresh that was granted [tok]. *)
Definition after_grant (tok : string) (w : World) : World :=
  mkWorld
    (<["auth-store" :=
       JSON_stringify env (mkAuthState true (email (authStore w)))]>
       (<["accessToken" := tok]> (localStorage w)))
    (mkAuthState true (email (authStore w)))
    (network w ++ [refresh_call]) (location w) (toasts w) (console w).


(** The world the failure branch of the request interceptor leaves. *)
Definition after_give_up (w : World) : World :=
  mkWorld
    (delete "accessToken"
       (<["auth-store" :=
          JSON_stringify env (mkAuthState false (email (authStore w)))]>
          (localStorage w)))
    (mkAuthState false (email (authStore w)))
    (network w) (location w ++ ["/login"]) (toasts w) (console w).

(** The world the failure branch of the response interceptor leaves. *)
Definition after_session_lost (w : World) : World :=
  mkWorld
    (<["auth-store" :=
       JSON_stringify env (mkAuthState false (email (authStore w)))]>
       (delete "accessToken" (localStorage w)))
    (mkAuthState false (email (authStore w)))
    (network w) (location w ++ ["/login"])
    (toasts w ++ [Some "Session expired. Please login again."])
    (console w).






(** The notification [handleAxiosError] shows for an error. *)
Definition error_toast (error : JsError) : option string :=
  match error with
  | AxiosError _ (Some r) => message (body r)
  | AxiosError _ None => None
  | _ => Some "Something went wrong. Please try again."
  end.

(** A wrapper swallows the errors of the request it makes: it always
    resolves, and when the request rejects it shows the notification
    and resolves with [undefined]. *)
Definition swallows (call : M Response) (wrapper : M (option Body))
    (w : World) : Prop :=
  (exists v w', wrapper w = (Resolved v, w')) /\
  (forall e w1, call w = (Rejected e, w1) ->
     exists w2, wrapper w = (Resolved None, w2) /\
                toasts w2 = toasts w1 ++ [error_toast e]).

(** A wrapper rethrows them: when the request rejects it shows the
    notification and rejects with the same error. *)
Definition rethrows (call : M Response) (wrapper : M (option Body))
    (w : World) : Prop :=
  forall e w1, call w = (Rejected e, w1) ->
    exists w2, wrapper w = (Rejected e, w2) /\
               toasts w2 = toasts w1 ++ [error_toast e].

End Vocabulary.

(** ** A concrete browser for the examples *)

(** Tokens are read by name: ["expired"] carries [exp = 10],
    ["valid"] and ["fresh"] carry [exp = 5000], ["noexp"] decodes to a
    payload without [exp], anything else does not decode.  The clock
    stands at 1000 s. *)
Definition demo_jwtDecode (t : string) : option JwtPayload :=
  if String.eqb t "expired" then Some (mkJwt (Some 10%Z))
  else if String.eqb t "valid" then Some (mkJwt (Some 5000%Z))
  else if String.eqb t "fresh" then Some (mkJwt (Some 5000%Z))
  else if String.eqb t "noexp" then Some (mkJwt None)
  else None.

Definition demo_stringify (s : AuthState) : string :=
  "{isAuthenticated:" ++ (if isAuthenticated s then "true" else "false")
  ++ ",email:" ++ default "null" (email s) ++ "}".

Definition demo_env (srv : list NetCall -> NetCall -> HttpOutcome) : Env :=
  mkEnv None demo_jwtDecode (fun _ => 1000000%Z) srv demo_stringify.

Definition ok_body : Body := mkBody true "" None (Some (OtherData "[]")).

Definition grant_body (tok : string) : Body := mkBody true tok None None.

Definition deny_body : Body := mkBody false "" (Some "Unauthorized") None.

(** A server that answers every request of the client with 200 and
    grants ["fresh"] on refresh. *)
Definition srv_ok : list NetCall -> NetCall -> HttpOutcome :=
  fun _ c =>
    match c with
    | Sent ViaAxios _ => Reply (mkResponse 200 (grant_body "fresh"))
    | Sent ViaApiClient _ => Reply (mkResponse 200 ok_body)
    end.

(** A server that is down. *)
Definition srv_down : list NetCall -> NetCall -> HttpOutcome :=
  fun _ _ => NoReply.

(** A server that refuses the refresh and answers 401 to the client. *)
Definition srv_deny : list NetCall -> NetCall -> HttpOutcome :=
  fun _ _ => Reply (mkResponse 401 deny_body).

(** A server that answers 401 to the first request of the client and
    200 to the later ones, and grants ["fresh"] on refresh. *)
Definition srv_401_once : list NetCall -> NetCall -> HttpOutcome :=
  fun h c =>
    match c with
    | Sent ViaAxios _ => Reply (mkResponse 200 (grant_body "fresh"))
    | Sent ViaApiClient _ =>
        if Nat.eqb (client_calls h) 0 then Reply (mkResponse 401 deny_body)
        else Reply (mkResponse 200 ok_body)
    end.

(** A server that answers 401 to every request of the client and still
    grants ["fresh"] on refresh. *)
Definition srv_401_always : list NetCall -> NetCall -> HttpOutcome :=
  fun _ c =>
    match c with
    | Sent ViaAxios _ => Reply (mkResponse 200 (grant_body "fresh"))
    | Sent ViaApiClient _ => Reply (mkResponse 401 deny_body)
    end.



Definition get_images : Config := mkConfig GET "/images" NoData None false.

Definition demo_world (token : string) : World :=
  mkWorld (<["accessToken" := token]>
             (<["userEmail" := "ann@example.org"]>
                (<["auth-store" :=
                   demo_stringify (mkAuthState true (Some "ann@example.org"))]>
                   ∅)))
          (mkAuthState true (Some "ann@example.org")) [] [] [] [].

(** A server that accepts the sign-in and the verification with the
    token ["valid"] for ["ann@example.org"], and answers 200 to the
    rest. *)
Definition srv_signin : list NetCall -> NetCall -> HttpOutcome :=
  fun _ c =>
    match c with
    | Sent ViaAxios _ =>
        Reply (mkResponse 200
                 (mkBody true "" None
                         (Some (AuthData "valid" "ann@example.org"))))
    | Sent ViaApiClient _ => Reply (mkResponse 200 ok_body)
    end.

(** A server whose answers carry a payload without token. *)
Definition srv_no_token : list NetCall -> NetCall -> HttpOutcome :=
  fun _ _ =>
    Reply (mkResponse 200 (mkBody true "" None (Some (OtherData "{}")))).

(** A server that answers 200 with a body that reports no success and
    gives its reason. *)
Definition srv_refuses : list NetCall -> NetCall -> HttpOutcome :=
  fun _ _ =>
    Reply (mkResponse 200
             (mkBody false "" (Some "Request refused by the server")
                     (Some (OtherData "{}")))).

(** A browser nobody has signed in to. *)
Definition fresh_world : World :=
  mkWorld ∅ (mkAuthState false None) [] [] [] [].

Definition ann : IUser := mkUser None "ann@example.org" None "Secret#123".

(** ** Vocabulary of the further statements *)

Section MoreVocabulary.

Variable env : Env.

(** The requests [SignIn] and [VerifyCode] put on the wire. *)
Definition signin_call (userData : IUser) : NetCall :=
  Sent ViaAxios (mkConfig POST (API_URI env ++ "/signin")
                          (JsonFields (user_fields userData)) None false).

Definition verify_call (email cacheCode : string) : NetCall :=
  Sent ViaAxios
       (mkConfig POST (API_URI env ++ "/verify-cache")
                 (JsonFields [("email", email); ("cacheCode", cacheCode)])
                 None false).

(** The stored token makes the request interceptor refresh: it is not
    empty, and it does not decode or its [exp] is not after the
    clock. *)
Definition stale (w : World) : Prop :=
  exists t, localStorage w !! "accessToken" = Some t /\ t <> "" /\
    (jwtDecode env t = None \/
     exists e, jwtDecode env t = Some (mkJwt (Some e)) /\
               (e * 1000 <= Date_now env (network w))%Z).

(** [c'] is the request [c] up to its [Authorization] header and its
    [_retry] flag. *)
Definition same_request (c c' : Config) : Prop :=
  method c' = method c /\ url c' = url c /\ data c' = data c.

(** A request on the wire is the refresh call, or the request [c] sent
    through the client. *)
Definition refresh_or (c : Config) (call : NetCall) : Prop :=
  match call with
  | Sent ViaApiClient c' => same_request c c'
  | Sent ViaAxios c' => c' = refresh_config env
  end.

End MoreVocabulary.

(** ** JavaScript arrays *)

(** [Array.prototype.findIndex]: the first index whose element
    satisfies [p], or [-1]. *)
Fixpoint findIndex_from {A} (p : A -> bool) (l : list A) (i : Z) : Z :=
  match l with
  | [] => (-1)%Z
  | x :: l => if p x then i else findIndex_from p l (i + 1)%Z
  end.

Definition findIndex {A} (p : A -> bool) (l : list A) : Z :=
  findIndex_from p l 0%Z.

(** Where [splice(start, ...)] starts: a negative [start] counts from
    the end, and the result is clamped to the array. *)
Definition splice_start (len : nat) (start : Z) : nat :=
  if (start <? 0)%Z then Z.to_nat (Z.max (Z.of_nat len + start) 0)
  else Nat.min (Z.to_nat start) len.

(** [l.splice(start, deleteCount, ...items)]: the removed elements and
    the array afterwards. *)
Definition splice {A} (l : list A) (start : Z) (deleteCount : nat)
    (items : list A) : list A * list A :=
  let s := splice_start (length l) start in
  (take deleteCount (drop s l),
   take s l ++ items ++ drop (s + deleteCount) l).

(** ** pages/Home.tsx *)

Record IImage := mkImage {
  img_id : string;
  img_userId : string;
  img_title : string;
  img_imagePath : string;
  img_uploadedAt : string;
  img_order : Z
}.

(** The updater [handleDragEnd] passes to [setImages].  The working
    array may come to hold [undefined] ([None]): [movedImage] is
    [undefined] when the first [splice] removed nothing. *)
Definition reorderImages (activeId overId : string)
    (prevImages : list IImage) : list (option IImage) :=
  let oldIndex :=
    findIndex (fun image => String.eqb (img_id image) activeId) prevImages in
  let newIndex :=
    findIndex (fun image => String.eqb (img_id image) overId) prevImages in
  let reorderedImages := Some <$> prevImages in
  let '(removed, reorderedImages) := splice reorderedImages oldIndex 1 [] in
  let movedImage := default None (head removed) in
  snd (splice reorderedImages newIndex 0 [movedImage]).

(** What a drag end does: [over] is [null] when the card is dropped
    outside every card, and reading [over.id] throws. *)
Inductive DragResult :=
| DragThrows (e : JsError)
| DragIgnored
| DragReordered (images : list (option IImage)).

Definition handleDragEnd (active : string) (over : option string)
    (images : list IImage) : DragResult :=
  match over with
  | None => DragThrows (TypeError "Cannot read properties of null")
  | Some over =>
      if negb (String.eqb active over)
      then DragReordered (reorderImages active over images)
      else DragIgnored
  end.

(** The state of [HomePage].  [successes] records the calls of
    [toast.success], for which [World] has no channel.  The handlers
    are taken one at a time: the state an updater is applied to is
    the state the handler was called in. *)
Record Home := mkHome {
  images : list IImage;
  isModalOpen : bool;
  isEditModalOpen : bool;
  isDeleteModalOpen : bool;
  selectedImage : option IImage;
  isLoading : bool;
  errors_api : option string;
  isOrderChanged : bool;
  successes : list (option string)
}.

(** [images.map((image, index) => ({ _id: image._id, order: index }))] *)
Fixpoint imageOrder_from (index : Z) (l : list IImage) : list IImageOrder :=
  match l with
  | [] => []
  | image :: l =>
      mkImageOrder (img_id image) index :: imageOrder_from (index + 1)%Z l
  end.

(** [a || b] on an optional string. *)
Definition or_else (a : option string) (b : string) : string :=
  if truthy a then default "" a else b.

Section HomePage.

Variable env : Env.

(** Reading [response.success] of [undefined] throws. *)
Definition read_response (response : option Body) : M Body :=
  match response with
  | Some b => ret b
  | None => reject (TypeError "Cannot read properties of undefined")
  end.

Definition handleSaveOrder (s : Home) : M Home :=
  try_catch
    (let imageOrder := imageOrder_from 0 (images s) in
     response <- updateImageOrder env imageOrder ;;
     b <- read_response response ;;
     if success b then
       ret (mkHome (images s) (isModalOpen s) (isEditModalOpen s)
                   (isDeleteModalOpen s) (selectedImage s) (isLoading s)
                   (errors_api s) false (successes s ++ [message b]))
     else
       ret (mkHome (images s) (isModalOpen s) (isEditModalOpen s)
                   (isDeleteModalOpen s) (selectedImage s) (isLoading s)
                   (Some "Failed to save image order") (isOrderChanged s)
                   (successes s)))
    (fun error =>
       ret (mkHome (images s) (isModalOpen s) (isEditModalOpen s)
                   (isDeleteModalOpen s) (selectedImage s) (isLoading s)
                   (Some "An error occurred while saving image order")
                   (isOrderChanged s) (successes s))).

Definition handleImageUpload (newImages : list IImage) (s : Home) : Home :=
  mkHome (images s ++ newImages) (isModalOpen s) (isEditModalOpen s)
         (isDeleteModalOpen s) (selectedImage s) (isLoading s)
         (errors_api s) (isOrderChanged s) (successes s).

Definition handleImageUpdate (updatedImage : IImage) (s : Home) : Home :=
  mkHome ((fun img => if String.eqb (img_id img) (img_id updatedImage)
                      then updatedImage else img) <$> images s)
         (isModalOpen s) false (isDeleteModalOpen s) None (isLoading s)
         (errors_api s) (isOrderChanged s) (successes s).

(** The [finally] block of [handleConfirmDelete]. *)
Definition close_delete_modal (s : Home) : Home :=
  mkHome (images s) (isModalOpen s) (isEditModalOpen s) false None
         (isLoading s) (errors_api s) (isOrderChanged s) (successes s).

Definition handleConfirmDelete (s : Home) : M Home :=
  match selectedImage s with
  | None => ret s
  | Some selected =>
      s' <- try_catch
              (response <- deleteImage env (img_id selected) ;;
               b <- read_response response ;;
               if success b then
                 ret (mkHome
                        (List.filter
                           (fun img =>
                              negb (String.eqb (img_id img) (img_id selected)))
                           (images s))
                        (isModalOpen s) (isEditModalOpen s)
                        (isDeleteModalOpen s) (selectedImage s) (isLoading s)
                        (errors_api s) (isOrderChanged s)
                        (successes s
                         ++ [Some (or_else (message b)
                                           "Image deleted successfully")]))
               else
                 toast_error
                   (Some (or_else (message b) "Failed to delete image")) ;;
                 ret s)
              (fun error =>
                 toast_error
                   (Some "An error occurred while deleting the image") ;;
                 ret s) ;;
      ret (close_delete_modal s')
  end.

End HomePage.

(** Images for the examples. *)
Definition pic (id : string) : IImage :=
  mkImage id "u1" id ("/uploads/" ++ id) "2025-01-01T00:00:00.000Z" 0.

Definition demo_home (l : list IImage) (sel : option IImage) : Home :=
  mkHome l false false (bool_decide (sel <> None)) sel false None true [].

(** [a[i] = v] on an array whose absent entries are [None]: writing
    past the end extends the array and leaves holes. *)
Definition array_set {A} (i : nat) (v : A) (a : list (option A))
    : list (option A) :=
  if (i <? length a)%nat then <[i := Some v]> a
  else a ++ replicate (i - length a) None ++ [Some v].

(** [s.includes(sub)] *)
Fixpoint includes (sub s : string) : bool :=
  String.prefix sub s ||
  match s with
  | EmptyString => false
  | String _ s' => includes sub s'
  end.

(** ** components/uploadModal.tsx *)

Module UploadModal.

(** What the component reads of a [File]. *)
Record File := mkFile {
  file_name : string;
  file_type : string;
  file_size : N
}.

Record ImageFile := mkImageFile {
  file : option File;
  title : string;
  error : option string;
  preview : option string
}.

Record ValidationErrors := mkErrors {
  titles : option (list (option string));
  files : option string;
  api : option string;
  fileSize : option (list (option string));
  fileType : option (list (option string));
  general : option string
}.

(** The object [{}]. *)
Definition no_errors : ValidationErrors :=
  mkErrors None None None None None None.

(** The state of the dialog.  [input_value] is the value of the
    [#image-upload] element, [console] the labels of [console.error]. *)
Record State := mkState {
  images : list ImageFile;
  errors : ValidationErrors;
  isLoading : bool;
  input_value : string;
  console : list string
}.

Definition MAX_IMAGES : nat := 10.
Definition MAX_FILE_SIZE : N := 5 * 1024 * 1024.
Definition MAX_TOTAL_SIZE : N := 50 * 1024 * 1024.
Definition ALLOWED_TYPES : list string :=
  ["image/jpeg"; "image/jpg"; "image/png"; "image/gif"; "image/webp"].

(** The two template strings are written out: the extensions of
    [ALLOWED_TYPES] in upper case joined with [", "], and
    [formatFileSize(MAX_FILE_SIZE)], which is ["5 MB"]. *)
Definition validateFile (file : File) : option string :=
  if negb (existsb (String.eqb (file_type file)) ALLOWED_TYPES) then
    Some "Invalid file type. Allowed: JPEG, JPG, PNG, GIF, WEBP"
  else if (MAX_FILE_SIZE <? file_size file)%N then
    Some "File too large. Maximum size: 5 MB"
  else if (file_size file =? 0)%N then
    Some "File appears to be corrupted or empty"
  else None.

Definition validateTotalSize (files : list File) : bool :=
  (fold_left (fun sum file => sum + file_size file) files 0 <=? MAX_TOTAL_SIZE)%N.

(** The four arrays the loop of [handleFileChange] fills. *)
Record Scan := mkScan {
  validFiles : list File;
  fileErrors : list (option string);
  fileSizeErrors : list (option string);
  fileTypeErrors : list (option string)
}.

(** One turn of the loop, at index [i]. *)
Definition scan_file (i : nat) (file : File) (acc : Scan) : Scan :=
  match validateFile file with
  | Some error =>
      if truthy (Some error) then
        let acc :=
          if includes "file type" error then
            mkScan (validFiles acc) (fileErrors acc) (fileSizeErrors acc)
                   (array_set i error (fileTypeErrors acc))
          else if includes "too large" error || includes "corrupted" error
          then
            mkScan (validFiles acc) (fileErrors acc)
                   (array_set i error (fileSizeErrors acc))
                   (fileTypeErrors acc)
          else acc in
        mkScan (validFiles acc) (array_set i error (fileErrors acc))
               (fileSizeErrors acc) (fileTypeErrors acc)
      else
        mkScan (validFiles acc ++ [file]) (fileErrors acc)
               (fileSizeErrors acc) (fileTypeErrors acc)
  | None =>
      mkScan (validFiles acc ++ [file]) (fileErrors acc)
             (fileSizeErrors acc) (fileTypeErrors acc)
  end.

Fixpoint scan (i : nat) (selectedFiles : list File) (acc : Scan) : Scan :=
  match selectedFiles with
  | [] => acc
  | file :: rest => scan (S i) rest (scan_file i file acc)
  end.

(** [Promise.all] over the previews: it rejects when one of them
    does. *)
Fixpoint all_previews (createPreview : File -> option string)
    (l : list File) : option (list string) :=
  match l with
  | [] => Some []
  | f :: l =>
      match createPreview f, all_previews createPreview l with
      | Some p, Some ps => Some (p :: ps)
      | _, _ => None
      end
  end.

Fixpoint imageObjects (fileErrors : list (option string)) (index : nat)
    (selectedFiles : list File) (previews : list string) : list ImageFile :=
  match selectedFiles, previews with
  | f :: fs, p :: ps =>
      let e := mjoin (fileErrors !! index) in
      mkImageFile (Some f) "" (if truthy e then e else None) (Some p)
        :: imageObjects fileErrors (S index) fs ps
  | _, _ => []
  end.

Section Dialog.

(** [createPreview] reads the file with a [FileReader]; [None] is the
    reader's error. *)
Variable createPreview : File -> option string.

Definition handleFileChange (selectedFiles : list File) (s : State)
    : State :=
  if (length selectedFiles =? 0)%nat then
    mkState [] no_errors (isLoading s) (input_value s) (console s)
  else if (MAX_IMAGES <? length selectedFiles)%nat then
    mkState (images s)
            (mkErrors None
               (Some "You can upload a maximum of 10 images at a time.")
               None None None None)
            (isLoading s) (input_value s) (console s)
  else
    let sc := scan 0 selectedFiles (mkScan [] [] [] []) in
    let general :=
      if (0 <? length (validFiles sc))%nat
         && negb (validateTotalSize (validFiles sc))
      then Some "Total file size exceeds limit of 50 MB" else None in
    if existsb truthy (fileErrors sc) || truthy general then
      mkState (images s)
              (mkErrors None None None (Some (fileSizeErrors sc))
                        (Some (fileTypeErrors sc)) general)
              (isLoading s) "" (console s)
    else
      match all_previews createPreview selectedFiles with
      | Some previews =>
          mkState (imageObjects (fileErrors sc) 0 selectedFiles previews)
                  no_errors (isLoading s) (input_value s) (console s)
      | None =>
          mkState (images s)
                  (mkErrors None None None None None
                            (Some "Error processing selected files"))
                  (isLoading s) (input_value s)
                  (console s ++ ["Error creating previews:"])
      end.

End Dialog.

(** A file the dialog takes: an allowed type and a size from 1 byte
    to [MAX_FILE_SIZE]. *)
Definition acceptable_file (f : File) : Prop :=
  In (file_type f) ALLOWED_TYPES /\
  (0 < file_size f <= MAX_FILE_SIZE)%N.

(** A selection the dialog takes. *)
Definition acceptable (createPreview : File -> option string)
    (selectedFiles : list File) : Prop :=
  (0 < length selectedFiles <= MAX_IMAGES)%nat /\
  Forall acceptable_file selectedFiles /\
  Forall (fun f => is_Some (createPreview f)) selectedFiles.

End UploadModal.


(** Files and a dialog for the examples. *)
Definition demo_png : UploadModal.File :=
  UploadModal.mkFile "a.png" "image/png" 2048.

Definition demo_pdf : UploadModal.File :=
  UploadModal.mkFile "b.pdf" "application/pdf" 2048.

Definition demo_preview (f : UploadModal.File) : option string :=
  Some ("data:" ++ UploadModal.file_type f)%string.

Definition demo_dialog : UploadModal.State :=
  UploadModal.mkState [] UploadModal.no_errors false "a.png" [].


(** ** Regular expressions and the form schemas *)

Module Forms.

(** A JavaScript string as the regular expressions and [length] see
    it: a sequence of UTF-16 code units. *)
Definition cu (c : ascii) : N := N_of_ascii c.

Definition in_range (lo hi c : N) : bool := (lo <=? c)%N && (c <=? hi)%N.

(** [\d] *)
Definition re_digit (c : N) : bool := in_range (cu "0") (cu "9") c.

(** [\s]: the white space and the line terminators of ECMAScript. *)
Definition re_space (c : N) : bool :=
  in_range 9 13 c || (c =? 32)%N || (c =? 160)%N || (c =? 5760)%N
  || in_range 8192 8202 c || (c =? 8232)%N || (c =? 8233)%N
  || (c =? 8239)%N || (c =? 8287)%N || (c =? 12288)%N || (c =? 65279)%N.

(** [.]: anything but a line terminator. *)
Definition re_dot (c : N) : bool :=
  negb ((c =? 10)%N || (c =? 13)%N || (c =? 8232)%N || (c =? 8233)%N).

(** The fragment of the regular expressions the schemas use.  All of
    them start with [^] and have no flag, so a match starts at index 0
    and [$] is the end of the string. *)
Inductive Regex :=
| Chr (p : N -> bool)
| Maybe (r : Regex)
| AtLeast (n : nat) (p : N -> bool)
| Ahead (r : Regex)
| Cat (r1 r2 : Regex)
| Eos.

(** [p{n,}] at the head of [s]: what may be left, the greedy choice
    first. *)
Fixpoint at_least (p : N -> bool) (s : list N) (n : nat) : list (list N) :=
  match s with
  | [] => match n with O => [[]] | S _ => [] end
  | c :: s' =>
      (if p c then at_least p s' (Nat.pred n) else [])
      ++ match n with O => [s] | S _ => [] end
  end.

(** The backtracking matcher: every remainder a match of [r] at the
    head of [s] may leave, in the order the engine tries them. *)
Fixpoint run (r : Regex) (s : list N) : list (list N) :=
  match r with
  | Chr p => match s with
             | c :: s' => if p c then [s'] else []
             | [] => []
             end
  | Maybe r => run r s ++ [s]
  | AtLeast n p => at_least p s n
  | Ahead r => match run r s with [] => [] | _ :: _ => [s] end
  | Cat r1 r2 => flat_map (run r2) (run r1 s)
  | Eos => match s with [] => [[]] | _ :: _ => [] end
  end.

(** [/^r/.test(s)] *)
Definition test (r : Regex) (s : list N) : bool :=
  match run r s with [] => false | _ :: _ => true end.

(** [[^\s@]] *)
Definition re_plain (c : N) : bool := negb (re_space c || (c =? cu "@")%N).

(** [[\d\s-]] *)
Definition re_phone (c : N) : bool :=
  re_digit c || re_space c || (c =? cu "-")%N.

Definition re_lower (c : N) : bool := in_range (cu "a") (cu "z") c.
Definition re_upper (c : N) : bool := in_range (cu "A") (cu "Z") c.

(** [[@$!%*?#&^]] *)
Definition re_special (c : N) : bool :=
  existsb (N.eqb c)
          [cu "@"; cu "$"; cu "!"; cu "%"; cu "*"; cu "?"; cu "#"; cu "&";
           cu "^"].

(** [[A-Za-z\d@$!%*?#&^]] *)
Definition re_password (c : N) : bool :=
  re_upper c || re_lower c || re_digit c || re_special c.

(** [/^[^\s@]+@[^\s@]+\.[^\s@]+$/] *)
Definition emailRegex : Regex :=
  Cat (AtLeast 1 re_plain)
      (Cat (Chr (N.eqb (cu "@")))
           (Cat (AtLeast 1 re_plain)
                (Cat (Chr (N.eqb (cu ".")))
                     (Cat (AtLeast 1 re_plain) Eos)))).

(** [/^\+?[\d\s-]{10,}$/] *)
Definition phoneRegex : Regex :=
  Cat (Maybe (Chr (N.eqb (cu "+")))) (Cat (AtLeast 10 re_phone) Eos).

(** [/^(?=.*[a-z])(?=.*[A-Z])(?=.*\d)(?=.*[@$!%*?#&^])[A-Za-z\d@$!%*?#&^]{8,}$/] *)
Definition passwordStrengthRegex : Regex :=
  Cat (Ahead (Cat (AtLeast 0 re_dot) (Chr re_lower)))
      (Cat (Ahead (Cat (AtLeast 0 re_dot) (Chr re_upper)))
           (Cat (Ahead (Cat (AtLeast 0 re_dot) (Chr re_digit)))
                (Cat (Ahead (Cat (AtLeast 0 re_dot) (Chr re_special)))
                     (Cat (AtLeast 8 re_password) Eos)))).

(** [String.prototype.trim] *)
Fixpoint trimStart (s : list N) : list N :=
  match s with
  | c :: s' => if re_space c then trimStart s' else s
  | [] => []
  end.

Definition trim (s : list N) : list N :=
  rev (trimStart (rev (trimStart s))).

(** The checks of a [z.string()]: zod runs them in the order they
    were added, [trim] replaces the value the later ones see, and a
    failing check adds an issue without stopping the others. *)
Inductive Check :=
| Trim
| Min (n : nat)
| Max (n : nat)
| Matches (r : Regex).

(** Whether a string passes with no issue. *)
Fixpoint passes (checks : list Check) (data : list N) : bool :=
  match checks with
  | [] => true
  | Trim :: checks => passes checks (trim data)
  | Min n :: checks => (n <=? length data)%nat && passes checks data
  | Max n :: checks => (length data <=? n)%nat && passes checks data
  | Matches r :: checks => test r data && passes checks data
  end.

(** How [min] and [max] count the characters of a string is the
    validator's business, and the repository does not pin its version:
    [passes] counts UTF-16 code units, as [String.prototype.length]
    does; [passes_by] leaves the count to a parameter. *)
Fixpoint passes_by (count : list N -> nat) (checks : list Check)
    (data : list N) : bool :=
  match checks with
  | [] => true
  | Trim :: checks => passes_by count checks (trim data)
  | Min n :: checks => (n <=? count data)%nat && passes_by count checks data
  | Max n :: checks => (count data <=? n)%nat && passes_by count checks data
  | Matches r :: checks => test r data && passes_by count checks data
  end.

(** Two ways of counting: code units, and code points, where a high
    surrogate followed by a low one counts once. *)
Definition code_units (s : list N) : nat := length s.

Fixpoint code_points (s : list N) : nat :=
  match s with
  | [] => 0
  | c :: s' =>
      match s' with
      | d :: s'' =>
          if in_range 55296 56319 c && in_range 56320 57343 d
          then S (code_points s'')
          else S (code_points s')
      | [] => 1
      end
  end.

Definition list_N_eqb (a b : list N) : bool :=
  bool_decide (a = b).

(** The data of the sign-up form. *)
Record SignupData := mkSignupData {
  username : list N;
  email : list N;
  phoneNumber : list N;
  password : list N;
  confirmPassword : list N
}.

(** [SignupFormSchema.safeParse(data).success], for a validator that
    counts characters with [count]. *)
Definition SignupFormSchema (count : list N -> nat) (data : SignupData)
    : bool :=
  passes_by count [Trim; Min 3; Max 50] (username data)
  && passes_by count [Trim; Min 1; Matches emailRegex] (email data)
  && passes_by count [Trim; Min 1; Matches phoneRegex] (phoneNumber data)
  && passes_by count [Min 8; Matches passwordStrengthRegex] (password data)
  && passes_by count [Min 1] (confirmPassword data)
  && list_N_eqb (password data) (confirmPassword data).

(** [SigninFormSchema.safeParse({ email, password }).success] *)
Definition SigninFormSchema (email password : list N) : bool :=
  passes [Trim; Min 1; Matches emailRegex] email
  && passes [Min 8; Matches passwordStrengthRegex] password.

(** [ResetPasswordFormSchema.safeParse({ email }).success] *)
Definition ResetPasswordFormSchema (email : list N) : bool :=
  passes [Trim; Min 1; Matches emailRegex] email.

(** pages/SignIn.tsx: what enables the login button. *)
Definition validateFormForButton (email password : list N) : bool :=
  if match trim email with [] => true | _ :: _ => false end then false
  else if negb (test emailRegex email) then false
  else if match password with [] => true | _ :: _ => false end then false
  else if (length password <? 8)%nat then false
  else true.

End Forms.


(** ** components/ProtectedRoute.tsx and the guarded route of App.tsx *)

(** What an element renders: a view, or [<Navigate to=... replace />]. *)
Inductive Rendered := Shows (v : View) | NavigateTo (path : string).

Definition PrivateRoute (children : View) (w : World) : Rendered :=
  if isAuthenticated (authStore w) then Shows children
  else NavigateTo "/signin".

(** The element of the route matched at [path]: [App] wraps the home
    page, and only it, in [PrivateRoute]. *)
Definition route_element (path : string) (w : World) : option Rendered :=
  match match_route path with
  | Some HomePage => Some (PrivateRoute HomePage w)
  | Some v => Some (Shows v)
  | None => None
  end.

(** The view on screen at [path], once a [Navigate] has been
    followed. *)
Definition App (path : string) (w : World) : option View :=
  match route_element path w with
  | Some (Shows v) => Some v
  | Some (NavigateTo p) =>
      match route_element p w with
      | Some (Shows v) => Some v
      | _ => None
      end
  | None => None
  end.

(** ** pages/SignIn.tsx and pages/VerifyOtp.tsx: submitting *)

(** The strings of this model are byte strings; the schemas read each
    byte as the code unit of the same value. *)
Definition units (s : string) : list N :=
  N_of_ascii <$> list_ascii_of_string s.

(** Calling [response.json()] on the body of a reply, which has no
    such method. *)
Definition response_json {A} (b : Body) : M A :=
  reject (TypeError "response.json is not a function").

(** Sign-up data for the examples: the user name is given in code
    units, [grin_a] being U+1F600 followed by ["a"]. *)
Definition grin_a : list N := [55357; 56832; 97]%N.

Definition demo_signup (username : list N) : Forms.SignupData :=
  Forms.mkSignupData username (units "ann@example.org")
                     (units "+1 555 010 2030") (units "Secret#123")
                     (units "Secret#123").

Module SignInPage.

Record FormErrors := mkFormErrors {
  email : option string;
  password : option string;
  api : option string
}.

(** [navigated] records the calls of [navigate], [successes] those of
    [toast.success]. *)
Record State := mkState {
  formData_email : string;
  formData_password : string;
  errors : FormErrors;
  isLoading : bool;
  navigated : list string;
  successes : list string
}.

Section Page.

Variable env : Env.

(** The object [validateForm] builds from the issues of a failed
    parse. *)
Variable fieldErrors : string -> string -> FormErrors.

Definition validateForm (s : State) : bool * State :=
  if negb (Forms.SigninFormSchema (units (formData_email s))
                                  (units (formData_password s)))
  then
    (false,
     mkState (formData_email s) (formData_password s)
             (fieldErrors (formData_email s) (formData_password s))
             (isLoading s) (navigated s) (successes s))
  else
    (true,
     mkState (formData_email s) (formData_password s)
             (mkFormErrors None None None)
             (isLoading s) (navigated s) (successes s)).

Definition handleSubmit (s : State) : M State :=
  let '(valid, s) := validateForm s in
  if valid then
    s' <- try_catch
            (response <- SignIn env (mkUser None (formData_email s) None
                                            (formData_password s)) ;;
             b <- read_response response ;;
             if success b then
               ret (mkState "" "" (errors s) true
                            (navigated s ++ ["/"])
                            (successes s ++ ["Login successful!"]))
             else
               errorData <- response_json b ;;
               ret (mkState (formData_email s) (formData_password s)
                            (mkFormErrors None None
                               (Some (or_else (message errorData)
                                              "Login failed")))
                            true (navigated s) (successes s)))
            (fun error =>
               ret (mkState (formData_email s) (formData_password s)
                            (mkFormErrors None None
                               (Some "An error occurred. Please try again."))
                            true (navigated s) (successes s))) ;;
    ret (mkState (formData_email s') (formData_password s') (errors s')
                 false (navigated s') (successes s'))
  else ret s.

End Page.

End SignInPage.

Module VerifyOtpPage.

Record FormErrors := mkFormErrors {
  api : option string;
  code_error : option string
}.

Record State := mkState {
  code : list string;
  errors : FormErrors;
  isLoading : bool;
  isFormValid : bool;
  navigated : list string;
  successes : list string
}.

Section Page.

Variable env : Env.

(** The [:email] parameter of the route, from [useParams]. *)
Variable email : option string.

Definition handleSubmit (s : State) : M State :=
  if isFormValid s && truthy email then
    s' <- try_catch
            (let cacheCode := String.concat "" (code s) in
             response <- VerifyCode env (default "" email) cacheCode ;;
             b <- read_response response ;;
             if success b then
               ret (mkState ["" ; "" ; "" ; "" ; "" ; ""] (errors s) true
                            (isFormValid s) (navigated s ++ ["/"])
                            (successes s
                             ++ ["Verification successful! Account created."]))
             else
               errorData <- response_json b ;;
               ret (mkState (code s)
                            (mkFormErrors
                               (Some (or_else (message errorData)
                                              "Verification failed"))
                               None)
                            true (isFormValid s) (navigated s)
                            (successes s)))
            (fun error =>
               ret (mkState (code s)
                            (mkFormErrors
                               (Some "An error occurred. Please try again.")
                               None)
                            true (isFormValid s) (navigated s)
                            (successes s))) ;;
    ret (mkState (code s') (errors s') false (isFormValid s')
                 (navigated s') (successes s'))
  else if negb (truthy email) then
    ret (mkState (code s)
                 (mkFormErrors (Some "Email is missing from the request.")
                               None)
                 (isLoading s) (isFormValid s) (navigated s) (successes s))
  else ret s.

End Page.

End VerifyOtpPage.


(** * Properties *)

(** ** Stepping through the monad *)

Lemma bind_Resolved {A B} (m : M A) (k : A -> M B) w a w' :
  m w = (Resolved a, w') -> bind m k w = k a w'.
Proof. intros H. unfold bind. now rewrite H. Qed.

Lemma bind_Rejected {A B} (m : M A) (k : A -> M B) w e w' :
  m w = (Rejected e, w') -> bind m k w = (Rejected e, w').
Proof. intros H. unfold bind. now rewrite H. Qed.

Lemma try_catch_Resolved {A} (m : M A) h w a w' :
  m w = (Resolved a, w') -> try_catch m h w = (Resolved a, w').
Proof. intros H. unfold try_catch. now rewrite H. Qed.

Lemma try_catch_Rejected {A} (m : M A) h w e w' :
  m w = (Rejected e, w') -> try_catch m h w = h e w'.
Proof. intros H. unfold try_catch. now rewrite H. Qed.

Lemma truthy_Some s : truthy (Some s) = true <-> s <> "".
Proof.
  unfold truthy. destruct (String.eqb_spec s ""); simpl; split;
    congruence.
Qed.

Lemma truthy_false (e : option string) :
  truthy e = false <-> e = None \/ e = Some "".
Proof.
  destruct e as [s|]; simpl.
  - destruct (String.eqb_spec s ""); simpl; split; intros H;
      try subst; auto; try discriminate.
    destruct H as [H|H]; congruence.
  - split; auto.
Qed.

Section StoreFacts.

Variable env : Env.

(** What [setAuth] does when its [email] argument is falsy. *)
Lemma setAuth_falsy auth e w :
  truthy e = false ->
  setAuth env auth e w =
    (Resolved tt,
     mkWorld (<["auth-store" :=
                JSON_stringify env (mkAuthState auth (email (authStore w)))]>
                (localStorage w))
             (mkAuthState auth (email (authStore w)))
             (network w) (location w) (toasts w) (console w)).
Proof. intros H. unfold setAuth. rewrite H. reflexivity. Qed.

Lemma refresh_granted w tok :
  granted (refresh_reply env w) = Some tok ->
  refreshAccessToken env w = (Resolved (Some tok), after_grant env tok w).
Proof.
  unfold granted, refresh_reply, refresh_call, refreshAccessToken,
    try_catch, bind, axios_post, transmit, refresh_config.
  destruct (server env _ _) as [r|]; [|discriminate].
  destruct (validateStatus (status r)); simpl; [|discriminate].
  destruct (success (body r)); simpl; [|discriminate].
  destruct (negb _) eqn:Hne; [|discriminate].
  intros [= <-]. reflexivity.
Qed.

Lemma refresh_denied w :
  granted (refresh_reply env w) = None ->
  exists w',
    refreshAccessToken env w = (Resolved None, w') /\
    localStorage w' = localStorage w /\
    authStore w' = authStore w /\
    network w' = network w ++ [refresh_call env] /\
    location w' = location w /\
    toasts w' = toasts w.
Proof.
  unfold granted, refresh_reply, refresh_call, refreshAccessToken,
    try_catch, bind, axios_post, transmit, refresh_config.
  destruct (server env _ _) as [r|].
  - destruct (validateStatus (status r)); simpl.
    + destruct (success (body r)); simpl.
      * destruct (negb _); [discriminate|].
        intros _. eexists. repeat split; reflexivity.
      * intros _. eexists. repeat split; reflexivity.
    + intros _. eexists. repeat split; reflexivity.
  - intros _. eexists. repeat split; reflexivity.
Qed.

Lemma granted_nonempty o tok : granted o = Some tok -> tok <> "".
Proof.
  destruct o as [r|]; simpl; [|discriminate].
  destruct (validateStatus _ && _); simpl; [|discriminate].
  destruct (negb _) eqn:Hne; [|discriminate].
  intros [= <-] Habs. rewrite Habs in Hne. discriminate.
Qed.

(** The refresh never rejects, and what it returns is what the reply
    grants. *)
Lemma refresh_total w :
  exists w', refreshAccessToken env w =
               (Resolved (granted (refresh_reply env w)), w')
             /\ network w' = network w ++ [refresh_call env].
Proof.
  destruct (granted (refresh_reply env w)) as [tok|] eqn:Hg.
  - exists (after_grant env tok w). split; [now apply refresh_granted|reflexivity].
  - destruct (refresh_denied w Hg) as (w' & H & _ & _ & Hn & _).
    exists w'. now split.
Qed.

Lemma refresh_logs_error w :
  (refresh_reply env w = NoReply \/
   exists r, refresh_reply env w = Reply r /\ validateStatus (status r) = false) ->
  exists w',
    refreshAccessToken env w = (Resolved None, w') /\
    console w' = console w ++ ["Error refreshing token:"].
Proof.
  unfold refresh_reply, refresh_call, refreshAccessToken,
    try_catch, bind, axios_post, transmit, refresh_config.
  intros [H|(r & H & Hst)]; rewrite H; [|rewrite Hst];
    eexists; split; reflexivity.
Qed.

End StoreFacts.

(** ** Two runs of the client *)

(** A token expired ten seconds ago and [GET /images]: one call to
    [/refresh-token], then one call to [/images] with the new bearer
    header. *)
Example expired_token_run :
  let env := mkEnv None demo_jwtDecode (fun _ => 20000%Z) srv_ok
                   demo_stringify in
  let r := getImages env (demo_world "expired") in
  fst r = Resolved (Some ok_body) /\
  network (snd r)
    = [refresh_call env;
       Sent ViaApiClient (set_Authorization "Bearer fresh" get_images)].
Proof. split; reflexivity. Qed.

(** [/images] answers 401 once and the refresh succeeds: the resend
    succeeds, the caller sees the data, three network calls in all. *)
Example retried_run :
  let env := demo_env srv_401_once in
  let r := getImages env (demo_world "valid") in
  fst r = Resolved (Some ok_body) /\
  length (network (snd r)) = 3 /\
  client_calls (network (snd r)) = 2 /\
  location (snd r) = [] /\ toasts (snd r) = [].
Proof. repeat split. Qed.

(** ** C9: setAuth without an email, and the refresh *)

(** C9.  [setAuth] called without an email, or with an empty one, sets
    [isAuthenticated] and nothing else of the session: the in-memory
    email and every storage key but the store's own ['auth-store'] (so
    ['userEmail'] too) keep their value; the same holds across a
    successful refresh, which calls [setAuth(true)] (it writes
    ['accessToken'] as well). *)
Theorem setAuth_without_email_frame (env : Env) (auth : bool)
    (e : option string) (w : World) :
  e = None \/ e = Some "" ->
  (exists w',
     setAuth env auth e w = (Resolved tt, w') /\
     isAuthenticated (authStore w') = auth /\
     email (authStore w') = email (authStore w) /\
     localStorage w' !! "userEmail" = localStorage w !! "userEmail" /\
     (forall k, k <> "auth-store" ->
                localStorage w' !! k = localStorage w !! k) /\
     network w' = network w /\ location w' = location w /\
     toasts w' = toasts w /\ console w' = console w) /\
  (forall tok w'',
     refreshAccessToken env w = (Resolved (Some tok), w'') ->
     email (authStore w'') = email (authStore w) /\
     localStorage w'' !! "userEmail" = localStorage w !! "userEmail").
Proof.
  intros He. apply truthy_false in He. split.
  - rewrite (setAuth_falsy env auth e w He). eexists. split; [reflexivity|].
    simpl. repeat split.
    + now rewrite lookup_insert_ne.
    + intros k Hk. now rewrite lookup_insert_ne.
  - intros tok w'' Hr.
    destruct (refresh_total env w) as (w1 & H1 & _).
    rewrite H1 in Hr. injection Hr as Hg <-.
    pose proof (refresh_granted env w tok Hg) as H2.
    rewrite H1 in H2. injection H2 as _ ->.
    simpl. split; [reflexivity|].
    rewrite lookup_insert_ne by discriminate.
    now rewrite lookup_insert_ne.
Qed.

Lemma setAuth_without_email_frame_witness :
  (@None string = None \/ @None string = Some "") /\
  (exists w',
     setAuth (demo_env srv_ok) false None (demo_world "valid")
       = (Resolved tt, w') /\
     email (authStore w') = Some "ann@example.org" /\
     localStorage w' !! "userEmail" = Some "ann@example.org") /\
  (exists w'',
     refreshAccessToken (demo_env srv_ok) (demo_world "expired")
       = (Resolved (Some "fresh"), w'') /\
     email (authStore w'') = Some "ann@example.org" /\
     localStorage w'' !! "userEmail" = Some "ann@example.org").
Proof.
  split; [now left|]. split.
  - destruct (setAuth_without_email_frame (demo_env srv_ok) false None
                (demo_world "valid") (or_introl eq_refl))
      as [(w' & H & _ & He & Hu & _) _].
    exists w'. split; [exact H|]. split; [exact He|exact Hu].
  - destruct (setAuth_without_email_frame (demo_env srv_ok) false None
                (demo_world "expired") (or_introl eq_refl))
      as [_ H].
    eexists. split; [reflexivity|]. now apply (H "fresh").
Defined.

(** ** C6: the refresh never throws *)

Lemma granted_success r :
  validateStatus (status r) = true -> success (body r) = true ->
  accessToken (body r) <> "" ->
  granted (Reply r) = Some (accessToken (body r)).
Proof.
  intros H1 H2 H3. simpl. rewrite H1, H2. simpl.
  apply truthy_Some in H3. simpl in H3. now rewrite H3.
Qed.

Lemma granted_failure o :
  (o = NoReply \/
   exists r, o = Reply r /\
     (validateStatus (status r) = false \/ success (body r) = false \/
      accessToken (body r) = "")) ->
  granted o = None.
Proof.
  intros [->|(r & -> & H)]; [reflexivity|]. simpl.
  destruct H as [H|[H|H]]; rewrite H; simpl;
    rewrite ?andb_false_r; reflexivity.
Qed.

(** C6.  [refreshAccessToken] always resolves, after exactly one request
    to [/refresh-token].  When that request is answered with a 2xx
    response whose body has [success] true and a non-empty
    [accessToken], the token is stored under ['accessToken'], the
    session is authenticated and the token is returned.  In every other
    case (no answer, a status outside 2xx, [success] false, no token)
    the result is [null] and neither the storage nor the session
    changes; a failed request is logged on the console. *)
Theorem refreshAccessToken_boundary (env : Env) (w : World) :
  (exists result w',
     refreshAccessToken env w = (Resolved result, w') /\
     network w' = network w ++ [refresh_call env]) /\
  (forall r,
     refresh_reply env w = Reply r ->
     validateStatus (status r) = true ->
     success (body r) = true ->
     accessToken (body r) <> "" ->
     exists w',
       refreshAccessToken env w
         = (Resolved (Some (accessToken (body r))), w') /\
       localStorage w' !! "accessToken" = Some (accessToken (body r)) /\
       isAuthenticated (authStore w') = true) /\
  ((refresh_reply env w = NoReply \/
    exists r, refresh_reply env w = Reply r /\
      (validateStatus (status r) = false \/ success (body r) = false \/
       accessToken (body r) = "")) ->
   exists w',
     refreshAccessToken env w = (Resolved None, w') /\
     localStorage w' = localStorage w /\
     authStore w' = authStore w) /\
  ((refresh_reply env w = NoReply \/
    exists r, refresh_reply env w = Reply r /\
              validateStatus (status r) = false) ->
   exists w',
     refreshAccessToken env w = (Resolved None, w') /\
     console w' = console w ++ ["Error refreshing token:"]).
Proof.
  repeat split.
  - destruct (refresh_total env w) as (w' & H & Hn). eauto.
  - intros r Hr H1 H2 H3.
    pose proof (granted_success r H1 H2 H3) as Hg. rewrite <- Hr in Hg.
    exists (after_grant env (accessToken (body r)) w).
    split; [now apply refresh_granted|]. simpl. split; [|reflexivity].
    rewrite lookup_insert_ne by discriminate. apply lookup_insert_eq.
  - intros H. apply granted_failure in H.
    destruct (refresh_denied env w H) as (w' & H1 & H2 & H3 & _). eauto.
  - apply refresh_logs_error.
Qed.

Lemma refreshAccessToken_boundary_witness :
  (exists w',
     refreshAccessToken (demo_env srv_ok) (demo_world "expired")
       = (Resolved (Some "fresh"), w') /\
     localStorage w' !! "accessToken" = Some "fresh" /\
     isAuthenticated (authStore w') = true) /\
  (exists w',
     refreshAccessToken (demo_env srv_down) (demo_world "expired")
       = (Resolved None, w') /\
     localStorage w' = localStorage (demo_world "expired") /\
     authStore w' = authStore (demo_world "expired")) /\
  (exists w',
     refreshAccessToken (demo_env srv_deny) (demo_world "expired")
       = (Resolved None, w') /\
     console w' = ["Error refreshing token:"]).
Proof.
  split; [|split].
  - destruct (refreshAccessToken_boundary (demo_env srv_ok)
                (demo_world "expired")) as (_ & H & _).
    apply (H (mkResponse 200 (grant_body "fresh"))); try reflexivity.
    discriminate.
  - destruct (refreshAccessToken_boundary (demo_env srv_down)
                (demo_world "expired")) as (_ & _ & H & _).
    apply H. now left.
  - destruct (refreshAccessToken_boundary (demo_env srv_deny)
                (demo_world "expired")) as (_ & _ & _ & H).
    apply H. right. exists (mkResponse 401 deny_body). now split.
Defined.

(** ** The request interceptor, case by case *)

Section RequestFacts.

Variable env : Env.

Lemma give_up_session_eq w :
  give_up_session env w = (Resolved (inr session_expired), after_give_up env w).
Proof. reflexivity. Qed.

(** The expiry check only ever writes to the console. *)
Lemma isTokenExpired_frame t w :
  exists b w1,
    isTokenExpired env t w = (Resolved b, w1) /\
    localStorage w1 = localStorage w /\ authStore w1 = authStore w /\
    network w1 = network w /\ location w1 = location w /\
    toasts w1 = toasts w.
Proof.
  unfold isTokenExpired.
  destruct (jwtDecode env t) as [p|].
  - destruct (exp p); eexists _, w; repeat split; reflexivity.
  - eexists _, _. repeat split; reflexivity.
Qed.

Lemma isTokenExpired_past t e w :
  jwtDecode env t = Some (mkJwt (Some e)) ->
  (e * 1000 <= Date_now env (network w))%Z ->
  isTokenExpired env t w = (Resolved true, w).
Proof.
  intros Hd He. unfold isTokenExpired. rewrite Hd. simpl.
  apply Z.leb_le in He. now rewrite He.
Qed.

Lemma isTokenExpired_future t e w :
  jwtDecode env t = Some (mkJwt (Some e)) ->
  (Date_now env (network w) < e * 1000)%Z ->
  isTokenExpired env t w = (Resolved false, w).
Proof.
  intros Hd He. unfold isTokenExpired. rewrite Hd. simpl.
  apply Z.leb_gt in He. now rewrite He.
Qed.

Lemma isTokenExpired_undecodable t w :
  jwtDecode env t = None ->
  isTokenExpired env t w =
    (Resolved true,
     mkWorld (localStorage w) (authStore w) (network w) (location w)
             (toasts w) (console w ++ ["Error decoding token:"])).
Proof. intros Hd. unfold isTokenExpired. now rewrite Hd. Qed.

Lemma request_no_token config w :
  truthy (localStorage w !! "accessToken") = false ->
  request_onFulfilled env config w = (Resolved config, w).
Proof.
  intros H. unfold request_onFulfilled, bind, localStorage_getItem.
  now rewrite H.
Qed.

Lemma request_unexpired config w t w1 :
  localStorage w !! "accessToken" = Some t -> t <> "" ->
  isTokenExpired env t w = (Resolved false, w1) ->
  request_onFulfilled env config w
    = (Resolved (set_Authorization (bearer t) config), w1).
Proof.
  intros Ht Hne Hx. apply truthy_Some in Hne.
  unfold request_onFulfilled, bind at 1, localStorage_getItem.
  rewrite Ht, Hne. simpl default.
  rewrite (bind_Resolved _ _ _ _ _ Hx). reflexivity.
Qed.

Lemma request_refreshed config w t w1 nt :
  localStorage w !! "accessToken" = Some t -> t <> "" ->
  isTokenExpired env t w = (Resolved true, w1) ->
  granted (refresh_reply env w1) = Some nt ->
  request_onFulfilled env config w
    = (Resolved (set_Authorization (bearer nt) config),
       after_grant env nt w1).
Proof.
  intros Ht Hne Hx Hg. apply truthy_Some in Hne.
  unfold request_onFulfilled, bind at 1, localStorage_getItem.
  rewrite Ht, Hne. simpl default.
  rewrite (bind_Resolved _ _ _ _ _ Hx).
  pose proof (refresh_granted env w1 nt Hg) as Hr.
  apply granted_nonempty, truthy_Some in Hg.
  unfold bind at 1, try_catch, bind at 1. rewrite Hr, Hg. reflexivity.
Qed.

Lemma request_gives_up config w t w1 :
  localStorage w !! "accessToken" = Some t -> t <> "" ->
  isTokenExpired env t w = (Resolved true, w1) ->
  granted (refresh_reply env w1) = None ->
  exists w2,
    refreshAccessToken env w1 = (Resolved None, w2) /\
    request_onFulfilled env config w
      = (Rejected session_expired, after_give_up env w2).
Proof.
  intros Ht Hne Hx Hg. apply truthy_Some in Hne.
  destruct (refresh_denied env w1 Hg) as (w2 & Hr & _).
  exists w2. split; [exact Hr|].
  unfold request_onFulfilled, bind at 1, localStorage_getItem.
  rewrite Ht, Hne. simpl default.
  rewrite (bind_Resolved _ _ _ _ _ Hx).
  unfold bind at 1, try_catch, bind at 1. rewrite Hr. reflexivity.
Qed.

End RequestFacts.

(** ** The retry loop *)

Section LoopFacts.

Variable env : Env.

(** What the request interceptor can return: the config, untouched or
    with a bearer header, or the session-expired error. *)
Lemma request_cases config w :
  (exists c' w1,
     request_onFulfilled env config w = (Resolved c', w1) /\
     (c' = config \/ exists tok, c' = set_Authorization (bearer tok) config))
  \/ (exists w1,
        request_onFulfilled env config w = (Rejected session_expired, w1)).
Proof.
  destruct (truthy (localStorage w !! "accessToken")) eqn:Htok.
  - destruct (localStorage w !! "accessToken") as [t|] eqn:Ht;
      [|discriminate].
    apply truthy_Some in Htok.
    destruct (isTokenExpired_frame env t w) as (b & w1 & Hx & _).
    destruct b.
    + destruct (granted (refresh_reply env w1)) as [nt|] eqn:Hg.
      * left. eexists _, _. split.
        -- now apply (request_refreshed env config w t w1 nt).
        -- right. now exists nt.
      * right.
        destruct (request_gives_up env config w t w1 Ht Htok Hx Hg)
          as (w2 & _ & H).
        now exists (after_give_up env w2).
    + left. eexists _, _. split.
      * now apply (request_unexpired env config w t w1).
      * right. now exists t.
  - left. exists config, w. split; [now apply request_no_token|now left].
Qed.

Lemma transmit_cases via c w :
  let w' := mkWorld (localStorage w) (authStore w)
                    (network w ++ [Sent via c])
                    (location w) (toasts w) (console w) in
  (exists r, transmit env via c w = (Resolved r, w')) \/
  (exists r, transmit env via c w = (Rejected (AxiosError c r), w')).
Proof.
  unfold transmit. destruct (server env _ _) as [r|].
  - destruct (validateStatus _); [left|right]; eauto.
  - right; eauto.
Qed.

(** The send phase settles, and an axios error it rejects with carries
    the flag of the config it was given. *)
Lemma apiClient_send_cases config w :
  (exists r w1, apiClient_send env config w = (Resolved r, w1)) \/
  (exists c r w1,
     apiClient_send env config w = (Rejected (AxiosError c r), w1) /\
     _retry c = _retry config) \/
  (exists w1, apiClient_send env config w = (Rejected session_expired, w1)).
Proof.
  unfold apiClient_send.
  destruct (request_cases config w) as [(c' & w1 & Hq & Hc)|(w1 & Hq)].
  - rewrite (bind_Resolved _ _ _ _ _ Hq). unfold dispatchRequest.
    assert (_retry c' = _retry config) as Hr
      by (destruct Hc as [->|(tok & ->)]; reflexivity).
    destruct (transmit_cases ViaApiClient c' w1) as [(r & H)|(r & H)];
      rewrite H.
    + left. eauto.
    + right. left. eauto 6.
  - right. right. rewrite (bind_Rejected _ _ _ _ _ Hq). eauto.
Qed.

(** With the flag set the response interceptor lets everything through:
    the client is its send phase. *)
Lemma apiClient_rec_retried n config w :
  _retry config = true ->
  apiClient_rec env (S n) config w = apiClient_send env config w.
Proof.
  intros Hflag. simpl. unfold request, then_.
  destruct (apiClient_send_cases config w)
    as [(r & w1 & H)|[(c & r & w1 & H & Hc)|(w1 & H)]]; rewrite H.
  - reflexivity.
  - unfold response_onRejected. rewrite Hc, Hflag.
    destruct r as [r|]; [|reflexivity].
    now rewrite andb_false_r.
  - reflexivity.
Qed.

(** The three ways through the response interceptor's error handler. *)
Lemma response_passes f e w :
  match e with
  | AxiosError c (Some r) => (status r =? 401)%Z && negb (_retry c) = false
  | _ => True
  end ->
  response_onRejected env f e w = (Rejected e, w).
Proof.
  unfold response_onRejected.
  destruct e as [c [r|]| |]; try reflexivity.
  now intros ->.
Qed.

Lemma response_resends f c r w nt :
  status r = 401%Z -> _retry c = false ->
  granted (refresh_reply env w) = Some nt ->
  response_onRejected env f (AxiosError c (Some r)) w
    = f (set_Authorization (bearer nt) (set_retry true c))
        (after_grant env nt w).
Proof.
  intros Hst Hc Hg. unfold response_onRejected. rewrite Hst, Hc. simpl.
  pose proof (refresh_granted env w nt Hg) as Hr.
  apply granted_nonempty, truthy_Some in Hg.
  unfold bind at 1, try_catch, bind at 1. rewrite Hr, Hg. reflexivity.
Qed.

Lemma response_session_lost f c r w :
  status r = 401%Z -> _retry c = false ->
  granted (refresh_reply env w) = None ->
  exists w2,
    refreshAccessToken env w = (Resolved None, w2) /\
    response_onRejected env f (AxiosError c (Some r)) w
      = (Rejected (AxiosError (set_retry true c) (Some r)),
         after_session_lost env w2).
Proof.
  intros Hst Hc Hg. unfold response_onRejected. rewrite Hst, Hc. simpl.
  destruct (refresh_denied env w Hg) as (w2 & Hr & _).
  exists w2. split; [exact Hr|].
  unfold bind at 1, try_catch, bind at 1. rewrite Hr. reflexivity.
Qed.

(** The response interceptor only ever calls the client on a config
    whose flag is set. *)
Lemma response_onRejected_ext f g e w :
  (forall c w, _retry c = true -> f c w = g c w) ->
  response_onRejected env f e w = response_onRejected env g e w.
Proof.
  intros Hfg.
  destruct e as [c [r|]| |]; try (now rewrite !response_passes).
  destruct ((status r =? 401)%Z && negb (_retry c)) eqn:Hcond;
    [|now rewrite !response_passes].
  apply andb_true_iff in Hcond as [Hst Hc].
  apply Z.eqb_eq in Hst. apply negb_true_iff in Hc.
  destruct (granted (refresh_reply env w)) as [nt|] eqn:Hg.
  - rewrite !(response_resends _ c r w nt Hst Hc Hg). now apply Hfg.
  - destruct (response_session_lost f c r w Hst Hc Hg) as (w2 & Hr & ->).
    destruct (response_session_lost g c r w Hst Hc Hg) as (w3 & Hr' & ->).
    rewrite Hr in Hr'. now injection Hr' as ->.
Qed.

(** Fuel beyond two is never used. *)
Lemma apiClient_rec_fuel n config w :
  apiClient_rec env (S (S n)) config w = apiClient env config w.
Proof.
  unfold apiClient.
  change (request env (apiClient_rec env (S n)) config w
          = request env (apiClient_rec env 1) config w).
  unfold request, then_.
  destruct (apiClient_send env config w) as [[r|e|] w1]; try reflexivity.
  apply response_onRejected_ext. intros c w' Hc.
  now rewrite !apiClient_rec_retried.
Qed.

Lemma response_onRejected_settles f e w :
  (forall c w, _retry c = true -> fst (f c w) <> Unfinished) ->
  fst (response_onRejected env f e w) <> Unfinished.
Proof.
  intros Hf.
  destruct e as [c [r|]| |]; try (now rewrite response_passes).
  destruct ((status r =? 401)%Z && negb (_retry c)) eqn:Hcond;
    [|now rewrite response_passes].
  apply andb_true_iff in Hcond as [Hst Hc].
  apply Z.eqb_eq in Hst. apply negb_true_iff in Hc.
  destruct (granted (refresh_reply env w)) as [nt|] eqn:Hg.
  - rewrite (response_resends _ c r w nt Hst Hc Hg). now apply Hf.
  - destruct (response_session_lost f c r w Hst Hc Hg) as (w2 & _ & ->).
    discriminate.
Qed.

Lemma apiClient_send_settles config w :
  fst (apiClient_send env config w) <> Unfinished.
Proof.
  destruct (apiClient_send_cases config w)
    as [(r & w1 & H)|[(c & r & w1 & H & _)|(w1 & H)]]; rewrite H;
    discriminate.
Qed.

(** The client always settles. *)
Lemma apiClient_settles config w :
  fst (apiClient env config w) <> Unfinished.
Proof.
  unfold apiClient.
  change (fst (request env (apiClient_rec env 1) config w) <> Unfinished).
  unfold request, then_.
  destruct (apiClient_send env config w) as [[r|e|] w1] eqn:Hs.
  - discriminate.
  - apply response_onRejected_settles. intros c w' Hc.
    rewrite (apiClient_rec_retried 0 c w' Hc).
    apply apiClient_send_settles.
  - exfalso. apply (apiClient_send_settles config w). now rewrite Hs.
Qed.

Lemma refresh_Some_inv w nt w1 :
  refreshAccessToken env w = (Resolved (Some nt), w1) ->
  granted (refresh_reply env w) = Some nt /\ w1 = after_grant env nt w.
Proof.
  intros H. destruct (refresh_total env w) as (w' & H' & _).
  rewrite H' in H. injection H as Hg <-. split; [exact Hg|].
  pose proof (refresh_granted env w nt Hg) as H2.
  rewrite H' in H2. now injection H2.
Qed.

Lemma refresh_None_inv w w1 :
  refreshAccessToken env w = (Resolved None, w1) ->
  granted (refresh_reply env w) = None.
Proof.
  intros H. destruct (refresh_total env w) as (w' & H' & _).
  rewrite H' in H. now injection H.
Qed.

Lemma send_error_flag config w c r w0 :
  apiClient_send env config w = (Rejected (AxiosError c r), w0) ->
  _retry c = _retry config.
Proof.
  intros H.
  destruct (apiClient_send_cases config w)
    as [(r' & w1 & H')|[(c' & r' & w1 & H' & Hc)|(w1 & H')]];
    rewrite H' in H; try discriminate.
  now injection H as -> _ _.
Qed.

(** After a first 401 and a granted refresh, the client is the send
    phase of the request resent with the flag and the new header. *)
Lemma apiClient_after_401 n config w c r w0 nt :
  _retry config = false ->
  apiClient_send env config w = (Rejected (AxiosError c (Some r)), w0) ->
  status r = 401%Z ->
  granted (refresh_reply env w0) = Some nt ->
  apiClient_rec env (S (S n)) config w
    = apiClient_send env (set_Authorization (bearer nt) (set_retry true c))
                     (after_grant env nt w0).
Proof.
  intros Hflag Hs Hst Hg.
  change (apiClient_rec env (S (S n)) config w)
    with (request env (apiClient_rec env (S n)) config w).
  unfold request, then_. rewrite Hs.
  rewrite (response_resends _ c r w0 nt Hst); auto.
  - now apply apiClient_rec_retried.
  - rewrite <- Hflag. eapply send_error_flag; eauto.
Qed.

Lemma client_calls_app l1 l2 :
  client_calls (l1 ++ l2) = client_calls l1 + client_calls l2.
Proof. induction l1 as [|c l1 IH]; simpl; [reflexivity|]. rewrite IH. lia. Qed.

Lemma refresh_client_calls w o w' :
  refreshAccessToken env w = (o, w') ->
  client_calls (network w') = client_calls (network w).
Proof.
  intros H. destruct (refresh_total env w) as (w1 & H1 & Hn).
  rewrite H1 in H. injection H as _ <-.
  rewrite Hn, client_calls_app. simpl. lia.
Qed.

Lemma request_client_calls config w o w' :
  request_onFulfilled env config w = (o, w') ->
  client_calls (network w') = client_calls (network w).
Proof.
  destruct (truthy (localStorage w !! "accessToken")) eqn:Htok.
  - destruct (localStorage w !! "accessToken") as [t|] eqn:Ht;
      [|discriminate].
    apply truthy_Some in Htok.
    destruct (isTokenExpired_frame env t w) as (b & w1 & Hx & _ & _ & Hn & _).
    destruct b.
    + destruct (granted (refresh_reply env w1)) as [nt|] eqn:Hg.
      * rewrite (request_refreshed env config w t w1 nt Ht Htok Hx Hg).
        intros [= _ <-]. simpl. rewrite client_calls_app, Hn. simpl. lia.
      * destruct (request_gives_up env config w t w1 Ht Htok Hx Hg)
          as (w2 & Hr & ->).
        intros [= _ <-]. simpl.
        rewrite (refresh_client_calls _ _ _ Hr). now rewrite Hn.
    + rewrite (request_unexpired env config w t w1 Ht Htok Hx).
      intros [= _ <-]. now rewrite Hn.
  - rewrite (request_no_token env config w Htok). now intros [= _ <-].
Qed.

Lemma transmit_network via c w o w' :
  transmit env via c w = (o, w') ->
  network w' = network w ++ [Sent via c].
Proof.
  destruct (transmit_cases via c w) as [(r & ->)|(r & ->)];
    now intros [= _ <-].
Qed.

(** The send phase puts at most one request of the client on the wire. *)
Lemma apiClient_send_client_calls config w o w' :
  apiClient_send env config w = (o, w') ->
  client_calls (network w') <= client_calls (network w) + 1.
Proof.
  unfold apiClient_send, bind.
  destruct (request_onFulfilled env config w) as [[c'|e|] w1] eqn:Hq;
    pose proof (request_client_calls _ _ _ _ Hq) as Hc.
  - unfold dispatchRequest. intros Ht.
    apply transmit_network in Ht. rewrite Ht, client_calls_app. simpl. lia.
  - intros [= _ <-]. lia.
  - intros [= _ <-]. lia.
Qed.

(** The whole client puts at most two. *)
Lemma apiClient_client_calls config w o w' :
  apiClient env config w = (o, w') ->
  client_calls (network w') <= client_calls (network w) + 2.
Proof.
  unfold apiClient.
  change (apiClient_rec env 2 config w)
    with (request env (apiClient_rec env 1) config w).
  unfold request, then_.
  destruct (apiClient_send env config w) as [[r|e|] w0] eqn:Hs;
    pose proof (apiClient_send_client_calls _ _ _ _ Hs) as Hc0.
  - intros [= _ <-]. lia.
  - destruct e as [c [r|]| |];
      try (rewrite response_passes by exact I; intros [= _ <-]; lia).
    destruct ((status r =? 401)%Z && negb (_retry c)) eqn:Hcond;
      [|rewrite response_passes by exact Hcond; intros [= _ <-]; lia].
    apply andb_true_iff in Hcond as [Hst Hflag].
    apply Z.eqb_eq in Hst. apply negb_true_iff in Hflag.
    destruct (granted (refresh_reply env w0)) as [nt|] eqn:Hg.
    + rewrite (response_resends _ c r w0 nt Hst Hflag Hg).
      rewrite apiClient_rec_retried by reflexivity.
      intros Hs2. apply apiClient_send_client_calls in Hs2.
      simpl in Hs2. rewrite client_calls_app in Hs2. simpl in Hs2. lia.
    + destruct (response_session_lost (apiClient_rec env 1) c r w0
                  Hst Hflag Hg) as (w2 & Hr & ->).
      intros [= _ <-]. simpl.
      rewrite (refresh_client_calls _ _ _ Hr). lia.
  - intros [= _ <-]. lia.
Qed.

End LoopFacts.

(** ** C7: a stored token that has not expired *)

(** C7.  When the stored token is present and its [exp] lies in the
    future, the request interceptor returns the config with
    [Authorization: Bearer <token>], the token unchanged, and leaves the
    world as it was: it makes no refresh call.  The config it returns
    has that header and, for the rest, the method, url, body and flag
    it was given.  The send phase is then that one request on the wire
    and nothing else; and when the answer is not a 401 the whole client
    call makes that one network call only. *)
Theorem valid_token_one_call (env : Env) (config : Config) (w : World)
    (t : string) (e : Z) :
  localStorage w !! "accessToken" = Some t -> t <> "" ->
  jwtDecode env t = Some (mkJwt (Some e)) ->
  (Date_now env (network w) < e * 1000)%Z ->
  let sent := set_Authorization ("Bearer " ++ t) config in
  (Authorization sent = Some ("Bearer " ++ t)%string /\
   method sent = method config /\ url sent = url config /\
   data sent = data config /\ _retry sent = _retry config) /\
  request_onFulfilled env config w = (Resolved sent, w) /\
  apiClient_send env config w = transmit env ViaApiClient sent w /\
  (forall o w', apiClient_send env config w = (o, w') ->
                network w' = network w ++ [Sent ViaApiClient sent]) /\
  ((forall r, server env (network w) (Sent ViaApiClient sent) = Reply r ->
              status r <> 401%Z) ->
   apiClient env config w = transmit env ViaApiClient sent w /\
   forall o w', apiClient env config w = (o, w') ->
                network w' = network w ++ [Sent ViaApiClient sent]).
Proof.
  intros Ht Hne Hd He sent.
  pose proof (isTokenExpired_future env t e w Hd He) as Hx.
  pose proof (request_unexpired env config w t w Ht Hne Hx) as Hq.
  assert (apiClient_send env config w = transmit env ViaApiClient sent w)
    as Hs by (unfold apiClient_send; now rewrite (bind_Resolved _ _ _ _ _ Hq)).
  split; [now repeat split|].
  split; [exact Hq|]. split; [exact Hs|]. split.
  - intros o w' H. rewrite Hs in H. now apply transmit_network in H.
  - intros Hno401.
    assert (apiClient env config w = transmit env ViaApiClient sent w) as Ha.
    { unfold apiClient.
      change (apiClient_rec env 2 config w)
        with (request env (apiClient_rec env 1) config w).
      unfold request, then_. rewrite Hs. unfold transmit.
      destruct (server env _ _) as [r|] eqn:Hsrv.
      - destruct (validateStatus (status r)); [reflexivity|].
        apply response_passes.
        specialize (Hno401 r eq_refl). apply Z.eqb_neq in Hno401.
        now rewrite Hno401.
      - now apply response_passes. }
    split; [exact Ha|].
    intros o w' H. rewrite Ha in H. now apply transmit_network in H.
Qed.

Lemma valid_token_one_call_witness :
  let env := demo_env srv_ok in
  let w := demo_world "valid" in
  (localStorage w !! "accessToken" = Some "valid" /\ "valid" <> "" /\
   jwtDecode env "valid" = Some (mkJwt (Some 5000%Z)) /\
   (Date_now env (network w) < 5000 * 1000)%Z) /\
  request_onFulfilled env get_images w
    = (Resolved (mkConfig GET "/images" NoData (Some "Bearer valid") false),
       w) /\
  network (snd (apiClient env get_images w))
    = [Sent ViaApiClient
         (mkConfig GET "/images" NoData (Some "Bearer valid") false)].
Proof.
  intros env w.
  assert (localStorage w !! "accessToken" = Some "valid") as H1
    by reflexivity.
  assert ("valid" <> "") as H2 by discriminate.
  assert (jwtDecode env "valid" = Some (mkJwt (Some 5000%Z))) as H3
    by reflexivity.
  assert (Date_now env (network w) < 5000 * 1000)%Z as H4 by reflexivity.
  split; [now repeat split|].
  destruct (valid_token_one_call env get_images w "valid" 5000 H1 H2 H3 H4)
    as (_ & Hq & _ & _ & Hall).
  split; [exact Hq|].
  destruct Hall as [_ Hnet].
  - intros r [= <-]. discriminate.
  - apply (Hnet (fst (apiClient env get_images w))).
    now destruct (apiClient env get_images w).
Defined.

(** ** C3: one refresh and one resend after a 401 *)





(** ** C4: the second 401 is final *)

(** C4.  The client settles whatever the fuel beyond two, and with the
    same outcome: the retry loop terminates.  It puts at most two
    requests of its own on the wire, the original and one resend.  A
    request whose flag is set goes through the response interceptor
    untouched; so when the resend that follows a 401 and a successful
    refresh is again answered 401, that second error, which carries the
    flag, is what the caller gets, and the world is the one the resend
    left: no further refresh, resend or redirect. *)
Theorem second_401_is_final (env : Env) (n : nat) (config : Config)
    (w : World) :
  fst (apiClient_rec env (S (S n)) config w) <> Unfinished /\
  apiClient_rec env (S (S n)) config w = apiClient env config w /\
  client_calls (network (snd (apiClient env config w)))
    <= client_calls (network w) + 2 /\
  (_retry config = true ->
   apiClient_rec env (S n) config w = apiClient_send env config w) /\
  (forall c r w0 nt w1 c2 r2 w2,
     _retry config = false ->
     apiClient_send env config w = (Rejected (AxiosError c (Some r)), w0) ->
     status r = 401%Z ->
     refreshAccessToken env w0 = (Resolved (Some nt), w1) ->
     apiClient_send env (set_Authorization ("Bearer " ++ nt)
                                           (set_retry true c)) w1
       = (Rejected (AxiosError c2 (Some r2)), w2) ->
     status r2 = 401%Z ->
     _retry c2 = true /\
     apiClient_rec env (S (S n)) config w
       = (Rejected (AxiosError c2 (Some r2)), w2)).
Proof.
  split; [|split; [|split; [|split]]].
  - rewrite apiClient_rec_fuel. apply apiClient_settles.
  - apply apiClient_rec_fuel.
  - destruct (apiClient env config w) as [o w'] eqn:H.
    now apply apiClient_client_calls in H.
  - apply apiClient_rec_retried.
  - intros c r w0 nt w1 c2 r2 w2 Hflag Hs Hst Hr Hs2 Hst2.
    apply refresh_Some_inv in Hr as [Hg ->]. split.
    + now apply send_error_flag in Hs2.
    + rewrite <- Hs2. now apply apiClient_after_401 with (r := r).
Qed.

Lemma second_401_is_final_witness :
  let env := demo_env srv_401_always in
  let w := demo_world "valid" in
  let c := set_Authorization "Bearer valid" get_images in
  let r := mkResponse 401 deny_body in
  let w0 := snd (apiClient_send env get_images w) in
  let w1 := after_grant env "fresh" w0 in
  let c2 := set_Authorization "Bearer fresh" (set_retry true c) in
  let w2 := snd (apiClient_send env c2 w1) in
  (_retry get_images = false /\
   apiClient_send env get_images w = (Rejected (AxiosError c (Some r)), w0) /\
   status r = 401%Z /\
   refreshAccessToken env w0 = (Resolved (Some "fresh"), w1) /\
   apiClient_send env c2 w1 = (Rejected (AxiosError c2 (Some r)), w2)) /\
  apiClient_rec env 5 get_images w = (Rejected (AxiosError c2 (Some r)), w2) /\
  network w2 = [Sent ViaApiClient c; refresh_call env; Sent ViaApiClient c2] /\
  location w2 = [].
Proof.
  intros env w c r w0 w1 c2 w2.
  assert (_retry get_images = false) as H1 by reflexivity.
  assert (apiClient_send env get_images w
          = (Rejected (AxiosError c (Some r)), w0)) as H2 by reflexivity.
  assert (status r = 401%Z) as H3 by reflexivity.
  assert (refreshAccessToken env w0 = (Resolved (Some "fresh"), w1)) as H4
    by reflexivity.
  assert (apiClient_send env c2 w1 = (Rejected (AxiosError c2 (Some r)), w2))
    as H5 by reflexivity.
  split; [now repeat split|].
  destruct (second_401_is_final env 3 get_images w) as (_ & _ & _ & _ & H).
  destruct (H c r w0 "fresh" w1 c2 r w2 H1 H2 H3 H4 H5 H3) as [_ Hfin].
  split; [exact Hfin|]. split; reflexivity.
Defined.

(** ** A token the expiry check rejects is not sent *)


Section Provenance.

Variable env : Env.
Variable base : list NetCall.
Variable ok : string -> Prop.

(** Every token the refresh is granted once the history has reached
    [base] is among [ok]. *)
Hypothesis granted_ok :
  forall w l nt,
    network w = base ++ l -> granted (refresh_reply env w) = Some nt -> ok nt.





End Provenance.




Section RefreshFirst.

Variable env : Env.

Lemma request_extends config w o w' :
  request_onFulfilled env config w = (o, w') ->
  network w' = network w \/ network w' = network w ++ [refresh_call env].
Proof.
  destruct (truthy (localStorage w !! "accessToken")) eqn:Htok.
  - destruct (localStorage w !! "accessToken") as [t|] eqn:Ht;
      [|discriminate].
    apply truthy_Some in Htok.
    destruct (isTokenExpired_frame env t w) as (b & w1 & Hx & _ & _ & Hn & _).
    destruct b.
    + destruct (granted (refresh_reply env w1)) as [nt|] eqn:Hg.
      * rewrite (request_refreshed env config w t w1 nt Ht Htok Hx Hg).
        intros [= _ <-]. right. simpl. now rewrite Hn.
      * destruct (request_gives_up env config w t w1 Ht Htok Hx Hg)
          as (w2 & Hr & ->).
        intros [= _ <-]. right. simpl.
        destruct (refresh_total env w1) as (w2' & Hr' & Hn2).
        rewrite Hr in Hr'. injection Hr' as _ <-. now rewrite Hn2, Hn.
    + rewrite (request_unexpired env config w t w1 Ht Htok Hx).
      intros [= _ <-]. now left.
  - rewrite (request_no_token env config w Htok). intros [= _ <-].
    now left.
Qed.




End RefreshFirst.

(** ** C2: a stored token whose [exp] is in the past *)





(** ** C8: a token that does not decode *)




(** ** C10: which wrappers rethrow *)

Section WrapperFacts.

Variable env : Env.

Lemma handleAxiosError_eq e w :
  exists w',
    handleAxiosError e w = (Resolved tt, w') /\
    toasts w' = toasts w ++ [error_toast e].
Proof.
  destruct e as [c [r|]| |]; eexists; split; reflexivity.
Qed.

Lemma caught_error_swallowed {A} (m : M (option A)) e w w1 :
  m w = (Rejected e, w1) ->
  exists w2,
    try_catch m (fun error => handleAxiosError error ;; ret None) w
      = (Resolved None, w2) /\
    toasts w2 = toasts w1 ++ [error_toast e].
Proof.
  intros Hm. rewrite (try_catch_Rejected _ _ _ _ _ Hm).
  destruct (handleAxiosError_eq e w1) as (w2 & H & Ht).
  rewrite (bind_Resolved _ _ _ _ _ H). exists w2.
  split; [reflexivity|exact Ht].
Qed.

(** The shape seven of the wrappers share. *)
Lemma plain_wrapper_swallows (call : M Response) w :
  fst (call w) <> Unfinished ->
  swallows call
    (try_catch (response <- call ;; ret (Some (body response)))
               (fun error => handleAxiosError error ;; ret None)) w.
Proof.
  intros Hfin. split.
  - destruct (call w) as [[r|e|] w1] eqn:Hc; simpl in Hfin.
    + eexists _, _. apply try_catch_Resolved.
      rewrite (bind_Resolved _ _ _ _ _ Hc). reflexivity.
    + destruct (caught_error_swallowed _ e w w1
                  (bind_Rejected _ (fun response => ret (Some (body response)))
                                 _ _ _ Hc)) as (w2 & H & _).
      eauto.
    + congruence.
  - intros e w1 Hc. apply caught_error_swallowed.
    now apply bind_Rejected.
Qed.

Lemma axios_post_settles u d w :
  fst (axios_post env u d w) <> Unfinished.
Proof.
  unfold axios_post.
  destruct (transmit_cases env ViaAxios (mkConfig POST u d None false) w)
    as [(r & ->)|(r & ->)]; discriminate.
Qed.

(** The shape of [VerifyCode] and [SignIn]: the body may also throw a
    [TypeError], which is swallowed like the rest. *)
Lemma auth_wrapper_swallows (call : M Response)
    (email_of : Payload -> string) w :
  fst (call w) <> Unfinished ->
  swallows call
    (try_catch
       (response <- call ;;
        p <- read_payload (body response) ;;
        let accessToken := payload_accessToken p in
        (if truthy (Some accessToken) then
           localStorage_setItem "accessToken" accessToken ;;
           setAuth env true (Some (email_of p))
         else ret tt) ;;
        ret (Some (body response)))
       (fun error => handleAxiosError error ;; ret None)) w.
Proof.
  intros Hfin. split.
  - destruct (call w) as [[r|e|] w1] eqn:Hc; simpl in Hfin.
    + destruct (payload (body r)) as [p|] eqn:Hp.
      * destruct (truthy (Some (payload_accessToken p))) eqn:Ha;
          destruct (truthy (Some (email_of p))) eqn:He;
          eexists _, _; apply try_catch_Resolved;
          rewrite (bind_Resolved _ _ _ _ _ Hc);
          unfold read_payload; rewrite Hp;
          cbv beta iota delta [bind ret localStorage_setItem setAuth];
          rewrite Ha, ?He; reflexivity.
      * match goal with
        | |- context [try_catch ?m _ _] =>
            destruct (caught_error_swallowed m
                        (TypeError "Cannot read properties of undefined")
                        w w1) as (w2 & H & _)
        end; [|eexists _, _; exact H].
        rewrite (bind_Resolved _ _ _ _ _ Hc).
        unfold read_payload. rewrite Hp. reflexivity.
    + match goal with
      | |- context [try_catch ?m _ _] =>
          destruct (caught_error_swallowed m e w w1) as (w2 & H & _)
      end; [|eexists _, _; exact H].
      now apply bind_Rejected.
    + congruence.
  - intros e w1 Hc. apply caught_error_swallowed.
    now apply bind_Rejected.
Qed.

End WrapperFacts.

(** C10.  [uploadImage] shows the notification and rejects with the
    error its request rejected with.  Each of the nine other wrappers
    always resolves: when its request rejects it shows the notification
    and resolves with [undefined]; no error ever reaches its caller. *)
Theorem only_uploadImage_rethrows (env : Env) (w : World) :
  (forall formData,
     rethrows (apiClient_post env "/upload" (Form formData))
              (uploadImage env formData) w) /\
  (forall userData,
     swallows (axios_post env (API_URI env ++ "/signup")
                          (JsonFields (user_fields userData)))
              (Signup env userData) w) /\
  (forall email cacheCode,
     swallows (axios_post env (API_URI env ++ "/verify-cache")
                 (JsonFields [("email", email); ("cacheCode", cacheCode)]))
              (VerifyCode env email cacheCode) w) /\
  (forall userData,
     swallows (axios_post env (API_URI env ++ "/signin")
                          (JsonFields (user_fields userData)))
              (SignIn env userData) w) /\
  (forall email,
     swallows (axios_post env (API_URI env ++ "/forgot-password")
                          (JsonFields [("email", email)]))
              (forgotPassword env email) w) /\
  (forall cacheCode password email,
     swallows (axios_post env (API_URI env ++ "/reset-password")
                 (JsonFields [("cacheCode", cacheCode);
                              ("password", password); ("email", email)]))
              (resetPassword env cacheCode password email) w) /\
  swallows (apiClient_get env "/images") (getImages env) w /\
  (forall imageOrder,
     swallows (apiClient_post env "/change-order" (ImageOrders imageOrder))
              (updateImageOrder env imageOrder) w) /\
  (forall id,
     swallows (apiClient_delete env ("/delete-image/" ++ id))
              (deleteImage env id) w) /\
  (forall id formData,
     swallows (apiClient_post env ("/update-image/" ++ id) (Form formData))
              (updateImage env id formData) w).
Proof.
  split; [|split; [|split; [|split; [|split; [|split; [|split; [|split;
    [|split]]]]]]]].
  - intros formData e w1 Hc. unfold uploadImage.
    rewrite (try_catch_Rejected _ _ _ _ _ (bind_Rejected _ _ _ _ _ Hc)).
    destruct (handleAxiosError_eq e w1) as (w2 & H2 & Ht).
    rewrite (bind_Resolved _ _ _ _ _ H2). exists w2.
    split; [reflexivity|exact Ht].
  - intros. apply plain_wrapper_swallows, axios_post_settles.
  - intros addr code.
    apply (auth_wrapper_swallows env _ (fun _ => addr)),
      axios_post_settles.
  - intros.
    apply (auth_wrapper_swallows env _ payload_email), axios_post_settles.
  - intros. apply plain_wrapper_swallows, axios_post_settles.
  - intros. apply plain_wrapper_swallows, axios_post_settles.
  - apply plain_wrapper_swallows, apiClient_settles.
  - intros. apply plain_wrapper_swallows, apiClient_settles.
  - intros. apply plain_wrapper_swallows, apiClient_settles.
  - intros. apply plain_wrapper_swallows, apiClient_settles.
Qed.

Lemma only_uploadImage_rethrows_witness :
  let env := demo_env srv_down in
  let w := demo_world "valid" in
  (exists e w2, uploadImage env "form" w = (Rejected e, w2) /\
                toasts w2 = [None]) /\
  (exists w2, getImages env w = (Resolved None, w2) /\ toasts w2 = [None]).
Proof.
  intros env w.
  destruct (only_uploadImage_rethrows env w)
    as (Hup & _ & _ & _ & _ & _ & Hget & _).
  split.
  - set (c := set_Authorization "Bearer valid"
                (mkConfig POST "/upload" (Form "form") None false)).
    set (w1 := snd (apiClient_post env "/upload" (Form "form") w)).
    assert (apiClient_post env "/upload" (Form "form") w
            = (Rejected (AxiosError c None), w1)) as Hc by reflexivity.
    destruct (Hup "form" _ _ Hc) as (w2 & H & Ht). eauto.
  - set (c := set_Authorization "Bearer valid" get_images).
    set (w1 := snd (apiClient_get env "/images" w)).
    assert (apiClient_get env "/images" w
            = (Rejected (AxiosError c None), w1)) as Hc by reflexivity.
    destruct Hget as [_ Hget].
    destruct (Hget _ _ Hc) as (w2 & H & Ht). eauto.
Defined.

(** ** C5: when the refresh fails *)

Section GiveUpFacts.

Variable env : Env.

(** Before the send: the token is removed, the session is
    unauthenticated, [window.location.href] is assigned once, and the
    client rejects with the session-expired error after the refresh call
    alone. *)
Lemma refresh_failure_before_send n config w t w1 w2 :
  localStorage w !! "accessToken" = Some t -> t <> "" ->
  isTokenExpired env t w = (Resolved true, w1) ->
  refreshAccessToken env w1 = (Resolved None, w2) ->
  let w' := after_give_up env w2 in
  apiClient_rec env (S n) config w = (Rejected session_expired, w') /\
  network w' = network w ++ [refresh_call env] /\
  localStorage w' !! "accessToken" = None /\
  isAuthenticated (authStore w') = false /\
  location w' = location w ++ ["/login"].
Proof.
  intros Ht Hne Hx Hr w'.
  pose proof (refresh_None_inv env w1 w2 Hr) as Hg.
  destruct (request_gives_up env config w t w1 Ht Hne Hx Hg)
    as (w2' & Hr' & Hq).
  rewrite Hr in Hr'. injection Hr' as <-.
  destruct (isTokenExpired_frame env t w)
    as (b & w1' & Hx' & _ & _ & Hn & Hloc & _).
  rewrite Hx in Hx'. injection Hx' as <- <-.
  destruct (refresh_denied env w1 Hg) as (w3 & Hr3 & _ & _ & Hn3 & Hloc3 & _).
  rewrite Hr in Hr3. injection Hr3 as <-.
  split; [|split; [|split; [|split]]].
  - simpl. unfold request, then_, apiClient_send.
    rewrite (bind_Rejected _ _ _ _ _ Hq). reflexivity.
  - simpl. now rewrite Hn3, Hn.
  - simpl. apply lookup_delete_eq.
  - reflexivity.
  - simpl. now rewrite Hloc3, Hloc.
Qed.

(** After a 401: the same, with a notification, and the 401 goes back to
    the caller. *)
Lemma refresh_failure_after_401 f c r w w2 :
  status r = 401%Z -> _retry c = false ->
  refreshAccessToken env w = (Resolved None, w2) ->
  let w' := after_session_lost env w2 in
  response_onRejected env f (AxiosError c (Some r)) w
    = (Rejected (AxiosError (set_retry true c) (Some r)), w') /\
  network w' = network w ++ [refresh_call env] /\
  localStorage w' !! "accessToken" = None /\
  isAuthenticated (authStore w') = false /\
  location w' = location w ++ ["/login"] /\
  toasts w' = toasts w ++ [Some "Session expired. Please login again."].
Proof.
  intros Hst Hflag Hr w'.
  pose proof (refresh_None_inv env w w2 Hr) as Hg.
  destruct (response_session_lost env f c r w Hst Hflag Hg)
    as (w2' & Hr' & Hq).
  rewrite Hr in Hr'. injection Hr' as <-.
  destruct (refresh_denied env w Hg)
    as (w3 & Hr3 & _ & _ & Hn3 & Hloc3 & Hto3).
  rewrite Hr in Hr3. injection Hr3 as <-.
  split; [exact Hq|]. split; [|split; [|split; [|split]]]; simpl.
  - exact Hn3.
  - rewrite lookup_insert_ne by discriminate. apply lookup_delete_eq.
  - reflexivity.
  - now rewrite Hloc3.
  - now rewrite Hto3.
Qed.

End GiveUpFacts.

(** C5.  With an expired stored token and a refresh that fails, a call
    of the client is rejected with the session-expired error after the
    refresh call alone; with a valid token, a 401 and a refresh that
    fails, the 401 comes back.  In both cases the token is removed, the
    session is unauthenticated and [window.location.href] is assigned
    exactly once; but the value assigned is ["/login"], a path for which
    the route table of [App.tsx] has no view: the login view is at
    ["/signin"]. *)
Theorem refresh_failure_leaves_for_unrouted_path :
  let before := apiClient (demo_env srv_down) get_images
                          (demo_world "expired") in
  let after := apiClient (demo_env srv_deny) get_images
                         (demo_world "valid") in
  (fst before = Rejected session_expired /\
   network (snd before) = [refresh_call (demo_env srv_down)] /\
   localStorage (snd before) !! "accessToken" = None /\
   isAuthenticated (authStore (snd before)) = false /\
   location (snd before) = ["/login"]) /\
  (fst after
     = Rejected (AxiosError
                   (set_retry true
                      (set_Authorization "Bearer valid" get_images))
                   (Some (mkResponse 401 deny_body))) /\
   localStorage (snd after) !! "accessToken" = None /\
   isAuthenticated (authStore (snd after)) = false /\
   location (snd after) = ["/login"]) /\
  match_route "/login" = None /\
  match_route "/signin" = Some LoginPage.
Proof. repeat split. Qed.

(** ** C1: logout *)

Section LogoutFacts.

Variable env : Env.

(** When the awaited call resolves, the three keys are removed and the
    session is reset; the [set] that resets it writes the store back
    under ['auth-store']. *)
Lemma logout_after_remote_success w r w1 :
  apiClient_post env "/logout" NoData w = (Resolved r, w1) ->
  exists w2,
    logout env w = (Resolved tt, w2) /\
    localStorage w2 !! "accessToken" = None /\
    localStorage w2 !! "userEmail" = None /\
    localStorage w2 !! "auth-store"
      = Some (JSON_stringify env (mkAuthState false None)) /\
    authStore w2 = mkAuthState false None.
Proof.
  intros H. unfold logout. rewrite (bind_Resolved _ _ _ _ _ H).
  eexists. split; [reflexivity|]. simpl. split; [|split; [|split]].
  - rewrite lookup_insert_ne by discriminate.
    rewrite lookup_delete_ne by discriminate. apply lookup_delete_eq.
  - rewrite lookup_insert_ne by discriminate. apply lookup_delete_eq.
  - apply lookup_insert_eq.
  - reflexivity.
Qed.

(** When it rejects, so does [logout], and nothing after the [await]
    runs. *)
Lemma logout_after_remote_failure w e w1 :
  apiClient_post env "/logout" NoData w = (Rejected e, w1) ->
  logout env w = (Rejected e, w1).
Proof. intros H. unfold logout. now rewrite (bind_Rejected _ _ _ _ _ H). Qed.

End LogoutFacts.

(** C1.  With a valid token stored and a server that does not answer,
    [logout] rejects with the error of its [/logout] request and the
    teardown is skipped: ['auth-store'], ['accessToken'] and
    ['userEmail'] are still in storage and the session is still
    authenticated.  (With a server that answers, [logout] resolves, the
    token and the email are gone and the session is reset, and
    ['auth-store'] holds the reset session the store has just
    written.) *)
Theorem logout_keeps_session_when_remote_fails :
  let failed := logout (demo_env srv_down) (demo_world "valid") in
  let done := logout (demo_env srv_ok) (demo_world "valid") in
  (fst failed
     = Rejected (AxiosError
                   (set_Authorization "Bearer valid"
                      (mkConfig POST "/logout" NoData None false))
                   None) /\
   localStorage (snd failed) = localStorage (demo_world "valid") /\
   localStorage (snd failed) !! "accessToken" = Some "valid" /\
   localStorage (snd failed) !! "userEmail" = Some "ann@example.org" /\
   is_Some (localStorage (snd failed) !! "auth-store") /\
   authStore (snd failed) = mkAuthState true (Some "ann@example.org")) /\
  (fst done = Resolved tt /\
   localStorage (snd done) !! "accessToken" = None /\
   localStorage (snd done) !! "userEmail" = None /\
   localStorage (snd done) !! "auth-store"
     = Some (demo_stringify (mkAuthState false None)) /\
   authStore (snd done) = mkAuthState false None).
Proof. repeat split. now eexists. Qed.


(** * Further properties of the client, the store and the wrappers *)

(** ** The two failure branches, in general *)

(** X1.  When the expiry check rejects the stored token and the refresh
    fails, a call of the client is rejected with the session-expired
    error after the refresh call alone: the token is removed, the
    session is unauthenticated, [window.location.href] is assigned
    ["/login"] once, no notification is shown, and the email, in memory
    and under ['userEmail'], is kept. *)
Theorem refresh_failure_before_send_teardown (env : Env) (config : Config)
    (w w1 w2 : World) (t : string) :
  localStorage w !! "accessToken" = Some t -> t <> "" ->
  isTokenExpired env t w = (Resolved true, w1) ->
  refreshAccessToken env w1 = (Resolved None, w2) ->
  exists w',
    apiClient env config w = (Rejected session_expired, w') /\
    network w' = network w ++ [refresh_call env] /\
    localStorage w' !! "accessToken" = None /\
    localStorage w' !! "userEmail" = localStorage w !! "userEmail" /\
    authStore w' = mkAuthState false (email (authStore w)) /\
    location w' = location w ++ ["/login"] /\
    toasts w' = toasts w.
Proof.
  intros Ht Hne Hx Hr.
  destruct (refresh_failure_before_send env 1 config w t w1 w2 Ht Hne Hx Hr)
    as (Ha & Hn & Htok & _ & Hloc).
  destruct (isTokenExpired_frame env t w)
    as (b & w1' & Hx' & Hls & Hau & _ & _ & Hto).
  rewrite Hx in Hx'. injection Hx' as <- <-.
  destruct (refresh_denied env w1 (refresh_None_inv env w1 w2 Hr))
    as (w3 & Hr3 & Hls3 & Hau3 & _ & _ & Hto3).
  rewrite Hr in Hr3. injection Hr3 as <-.
  exists (after_give_up env w2). split; [exact Ha|].
  split; [exact Hn|]. split; [exact Htok|]. split; [|split; [|split]].
  - simpl. rewrite lookup_delete_ne by discriminate.
    rewrite lookup_insert_ne by discriminate. now rewrite Hls3, Hls.
  - simpl. now rewrite Hau3, Hau.
  - exact Hloc.
  - simpl. now rewrite Hto3, Hto.
Qed.

Lemma refresh_failure_before_send_teardown_witness :
  let env := demo_env srv_down in
  let w := demo_world "expired" in
  (localStorage w !! "accessToken" = Some "expired" /\ "expired" <> "" /\
   isTokenExpired env "expired" w = (Resolved true, w) /\
   fst (refreshAccessToken env w) = Resolved None) /\
  exists w',
    apiClient env get_images w = (Rejected session_expired, w') /\
    localStorage w' !! "userEmail" = Some "ann@example.org" /\
    location w' = ["/login"].
Proof.
  intros env w.
  assert (refreshAccessToken env w
          = (Resolved None, snd (refreshAccessToken env w))) as Hr
    by reflexivity.
  split; [repeat split; discriminate|].
  destruct (refresh_failure_before_send_teardown env get_images w w _
              "expired" eq_refl ltac:(discriminate) eq_refl Hr)
    as (w' & Ha & _ & _ & Hu & _ & Hloc & _).
  exists w'. split; [exact Ha|]. split; [exact Hu|exact Hloc].
Defined.

(** X2.  When a request whose flag is unset is answered 401 and the
    refresh fails, the client rejects with that 401 error, its config
    now flagged ([_retry] is true, the rest of the config as it was
    sent), after the refresh call alone: the token is removed, the
    session is unauthenticated, the "session expired" notification is
    shown, [window.location.href] is assigned ["/login"] once, and the
    email is kept. *)
Theorem refresh_failure_after_401_teardown (env : Env) (config c : Config)
    (r : Response) (w w0 w1 : World) :
  _retry config = false ->
  apiClient_send env config w = (Rejected (AxiosError c (Some r)), w0) ->
  status r = 401%Z ->
  refreshAccessToken env w0 = (Resolved None, w1) ->
  exists c' w',
    apiClient env config w = (Rejected (AxiosError c' (Some r)), w') /\
    c' = set_retry true c /\
    (_retry c' = true /\ Authorization c' = Authorization c /\
     method c' = method c /\ url c' = url c /\ data c' = data c) /\
    network w' = network w0 ++ [refresh_call env] /\
    localStorage w' !! "accessToken" = None /\
    localStorage w' !! "userEmail" = localStorage w0 !! "userEmail" /\
    authStore w' = mkAuthState false (email (authStore w0)) /\
    location w' = location w0 ++ ["/login"] /\
    toasts w' = toasts w0 ++ [Some "Session expired. Please login again."].
Proof.
  intros Hflag Hs Hst Hr.
  assert (_retry c = false) as Hc
    by (rewrite <- Hflag; eapply send_error_flag; eauto).
  destruct (refresh_failure_after_401 env (apiClient_rec env 1) c r w0 w1
              Hst Hc Hr) as (Hq & Hn & Htok & _ & Hloc & Hto).
  destruct (refresh_denied env w0 (refresh_None_inv env w0 w1 Hr))
    as (w3 & Hr3 & Hls3 & Hau3 & _).
  rewrite Hr in Hr3. injection Hr3 as <-.
  exists (set_retry true c), (after_session_lost env w1). split.
  - unfold apiClient.
    change (apiClient_rec env 2 config w)
      with (request env (apiClient_rec env 1) config w).
    unfold request, then_. now rewrite Hs.
  - split; [reflexivity|]. split; [now repeat split|].
    split; [exact Hn|]. split; [exact Htok|]. split; [|split; [|split]].
    + simpl. rewrite lookup_insert_ne by discriminate.
      rewrite lookup_delete_ne by discriminate. now rewrite Hls3.
    + simpl. now rewrite Hau3.
    + exact Hloc.
    + exact Hto.
Qed.

Lemma refresh_failure_after_401_teardown_witness :
  let env := demo_env srv_deny in
  let w := demo_world "valid" in
  let c := set_Authorization "Bearer valid" get_images in
  let r := mkResponse 401 deny_body in
  let w0 := snd (apiClient_send env get_images w) in
  (_retry get_images = false /\
   apiClient_send env get_images w = (Rejected (AxiosError c (Some r)), w0) /\
   status r = 401%Z /\
   fst (refreshAccessToken env w0) = Resolved None) /\
  exists w',
    apiClient env get_images w
      = (Rejected
           (AxiosError
              (mkConfig GET "/images" NoData (Some "Bearer valid") true)
              (Some r)), w') /\
    location w' = ["/login"] /\
    toasts w' = [Some "Session expired. Please login again."].
Proof.
  intros env w c r w0.
  assert (refreshAccessToken env w0
          = (Resolved None, snd (refreshAccessToken env w0))) as Hr
    by reflexivity.
  split; [now repeat split|].
  destruct (refresh_failure_after_401_teardown env get_images c r w w0 _
              eq_refl eq_refl eq_refl Hr)
    as (c' & w' & Ha & -> & _ & _ & _ & _ & _ & Hloc & Hto).
  exists w'. split; [exact Ha|]. split; [exact Hloc|exact Hto].
Defined.

(** ** When the request interceptor refreshes *)

(** The two cases of the request interceptor. *)
Lemma request_onFulfilled_stale (env : Env) (config : Config)
    (w : World) :
  exists o w',
    request_onFulfilled env config w = (o, w') /\
    (stale env w -> network w' = network w ++ [refresh_call env]) /\
    (~ stale env w ->
     w' = w /\
     o = Resolved
           (if truthy (localStorage w !! "accessToken")
            then set_Authorization
                   (bearer (default "" (localStorage w !! "accessToken")))
                   config
            else config)).
Proof.
  destruct (truthy (localStorage w !! "accessToken")) eqn:Htok.
  - destruct (localStorage w !! "accessToken") as [t|] eqn:Ht;
      [|discriminate].
    apply truthy_Some in Htok. simpl default.
    destruct (jwtDecode env t) as [[[e|]]|] eqn:Hd.
    + destruct (Z.leb_spec (e * 1000) (Date_now env (network w))) as [He|He].
      * pose proof (isTokenExpired_past env t e w Hd He) as Hx.
        assert (stale env w) as Hstale by (exists t; eauto 10).
        destruct (granted (refresh_reply env w)) as [nt|] eqn:Hg.
        -- eexists _, _. split;
             [exact (request_refreshed env config w t w nt Ht Htok Hx Hg)|].
           split; [reflexivity|tauto].
        -- destruct (request_gives_up env config w t w Ht Htok Hx Hg)
             as (w2 & Hr & Hq).
           eexists _, _. split; [exact Hq|]. split; [|tauto].
           intros _. simpl. destruct (refresh_total env w) as (w3 & Hr3 & Hn).
           rewrite Hr in Hr3. now injection Hr3 as _ <-.
      * pose proof (isTokenExpired_future env t e w Hd He) as Hx.
        eexists _, _. split;
          [exact (request_unexpired env config w t w Ht Htok Hx)|].
        split; [|now intros _].
        intros (t' & Ht' & _ & [Hd'|(e' & Hd' & He')]).
        -- rewrite Ht in Ht'. injection Ht' as <-. congruence.
        -- rewrite Ht in Ht'. injection Ht' as <-.
           rewrite Hd in Hd'. injection Hd' as <-. lia.
    + assert (isTokenExpired env t w = (Resolved false, w)) as Hx
        by (unfold isTokenExpired; now rewrite Hd).
      eexists _, _. split;
        [exact (request_unexpired env config w t w Ht Htok Hx)|].
      split; [|now intros _].
      intros (t' & Ht' & _ & [Hd'|(e' & Hd' & He')]);
        rewrite Ht in Ht'; injection Ht' as <-; congruence.
    + pose proof (isTokenExpired_undecodable env t w Hd) as Hx.
      assert (stale env w) as Hstale by (exists t; eauto).
      set (w1 := mkWorld (localStorage w) (authStore w) (network w)
                         (location w) (toasts w)
                         (console w ++ ["Error decoding token:"])) in *.
      destruct (granted (refresh_reply env w1)) as [nt|] eqn:Hg.
      * eexists _, _. split;
          [exact (request_refreshed env config w t w1 nt Ht Htok Hx Hg)|].
        split; [reflexivity|tauto].
      * destruct (request_gives_up env config w t w1 Ht Htok Hx Hg)
          as (w2 & Hr & Hq).
        eexists _, _. split; [exact Hq|]. split; [|tauto].
        intros _. simpl. destruct (refresh_total env w1) as (w3 & Hr3 & Hn).
        rewrite Hr in Hr3. now injection Hr3 as _ <-.
  - exists (Resolved config), w.
    split; [now apply request_no_token|]. split; [|now intros _].
    intros (t & Ht & Hne & _). rewrite Ht in Htok.
    apply truthy_Some in Hne. congruence.
Qed.

(** X3.  The request interceptor calls the refresh exactly when a
    non-empty token is stored that does not decode or whose [exp] is not
    after the clock.  In every other case (no token, an empty one, a
    token without [exp], an unexpired token) it makes no network call
    and resolves with a config that has the method, url, body and flag
    it was given: with the header it was given when no token is stored,
    with the header [Bearer <token>] otherwise. *)
Theorem interceptor_refreshes_iff_stale (env : Env) (config : Config)
    (w : World) :
  exists o w',
    request_onFulfilled env config w = (o, w') /\
    (stale env w -> network w' = network w ++ [refresh_call env]) /\
    (~ stale env w ->
     w' = w /\
     o = Resolved
           (if truthy (localStorage w !! "accessToken")
            then set_Authorization
                   (bearer (default "" (localStorage w !! "accessToken")))
                   config
            else config) /\
     exists c',
       o = Resolved c' /\
       method c' = method config /\ url c' = url config /\
       data c' = data config /\ _retry c' = _retry config /\
       Authorization c'
         = if truthy (localStorage w !! "accessToken")
           then Some ("Bearer "
                      ++ default "" (localStorage w !! "accessToken"))%string
           else Authorization config).
Proof.
  destruct (request_onFulfilled_stale env config w)
    as (o & w' & Hq & Hs & Hn).
  exists o, w'. split; [exact Hq|]. split; [exact Hs|].
  intros Hfresh. destruct (Hn Hfresh) as [-> ->].
  split; [reflexivity|]. split; [reflexivity|].
  destruct (truthy (localStorage w !! "accessToken"));
    eexists; (split; [reflexivity|]); now repeat split.
Qed.

Lemma interceptor_refreshes_iff_stale_witness :
  (stale (demo_env srv_ok) (demo_world "garbage") /\
   network (snd (request_onFulfilled (demo_env srv_ok) get_images
                                     (demo_world "garbage")))
     = [refresh_call (demo_env srv_ok)]) /\
  (~ stale (demo_env srv_ok) (demo_world "noexp") /\
   request_onFulfilled (demo_env srv_ok) get_images (demo_world "noexp")
     = (Resolved (mkConfig GET "/images" NoData (Some "Bearer noexp") false),
        demo_world "noexp")).
Proof.
  assert (stale (demo_env srv_ok) (demo_world "garbage")) as H1.
  { exists "garbage". split; [reflexivity|]. split; [discriminate|now left]. }
  assert (~ stale (demo_env srv_ok) (demo_world "noexp")) as H2.
  { intros (t & Ht & _ & [Hd|(e & Hd & _)]);
      injection Ht as <-; discriminate. }
  split.
  - split; [exact H1|].
    destruct (interceptor_refreshes_iff_stale (demo_env srv_ok) get_images
                (demo_world "garbage")) as (o & w' & Hq & Hs & _).
    rewrite Hq. exact (Hs H1).
  - split; [exact H2|].
    destruct (interceptor_refreshes_iff_stale (demo_env srv_ok) get_images
                (demo_world "noexp")) as (o & w' & Hq & _ & Hn).
    rewrite Hq. destruct (Hn H2) as (-> & -> & _). reflexivity.
Defined.

(** ** Logout on either side of its awaited call *)

(** X4.  [logout] runs its local teardown exactly when the awaited
    [/logout] call resolves: then ['accessToken'] and ['userEmail'] are
    removed, the session is reset to unauthenticated without email, and
    ['auth-store'] holds that reset session; nothing else changes after
    the call.  When the call rejects, [logout] rejects with the same
    error and leaves the world as the call left it. *)
Theorem logout_follows_remote_call (env : Env) (w : World) :
  (forall r w1,
     apiClient_post env "/logout" NoData w = (Resolved r, w1) ->
     exists w2,
       logout env w = (Resolved tt, w2) /\
       localStorage w2 !! "accessToken" = None /\
       localStorage w2 !! "userEmail" = None /\
       localStorage w2 !! "auth-store"
         = Some (JSON_stringify env (mkAuthState false None)) /\
       authStore w2 = mkAuthState false None /\
       network w2 = network w1 /\ location w2 = location w1 /\
       toasts w2 = toasts w1) /\
  (forall e w1,
     apiClient_post env "/logout" NoData w = (Rejected e, w1) ->
     logout env w = (Rejected e, w1)).
Proof.
  split.
  - intros r w1 H. unfold logout. rewrite (bind_Resolved _ _ _ _ _ H).
    eexists. split; [reflexivity|]. simpl.
    split; [|split; [|split; [|now repeat split]]].
    + rewrite lookup_insert_ne by discriminate.
      rewrite lookup_delete_ne by discriminate. apply lookup_delete_eq.
    + rewrite lookup_insert_ne by discriminate. apply lookup_delete_eq.
    + apply lookup_insert_eq.
  - intros e w1 H. unfold logout. now rewrite (bind_Rejected _ _ _ _ _ H).
Qed.

Lemma logout_follows_remote_call_witness :
  (exists w2,
     logout (demo_env srv_ok) (demo_world "valid") = (Resolved tt, w2) /\
     localStorage w2 !! "accessToken" = None /\
     authStore w2 = mkAuthState false None) /\
  (exists e w1,
     logout (demo_env srv_down) (demo_world "valid") = (Rejected e, w1) /\
     localStorage w1 !! "accessToken" = Some "valid").
Proof.
  split.
  - destruct (logout_follows_remote_call (demo_env srv_ok)
                (demo_world "valid")) as [H _].
    destruct (H (mkResponse 200 ok_body)
                (snd (apiClient_post (demo_env srv_ok) "/logout" NoData
                                     (demo_world "valid"))) eq_refl)
      as (w2 & Hl & Ht & _ & _ & Ha & _).
    exists w2. split; [exact Hl|]. split; [exact Ht|exact Ha].
  - destruct (logout_follows_remote_call (demo_env srv_down)
                (demo_world "valid")) as [_ H].
    eexists _, _. split; [apply H; reflexivity|reflexivity].
Defined.

(** ** Signing in *)

Section SignInFacts.

Variable env : Env.

Lemma axios_post_resolved u d w r :
  server env (network w) (Sent ViaAxios (mkConfig POST u d None false))
    = Reply r ->
  validateStatus (status r) = true ->
  axios_post env u d w
    = (Resolved r,
       mkWorld (localStorage w) (authStore w)
               (network w ++ [Sent ViaAxios (mkConfig POST u d None false)])
               (location w) (toasts w) (console w)).
Proof.
  intros Hs Hv. unfold axios_post, transmit. now rewrite Hs, Hv.
Qed.

End SignInFacts.

(** What an accepted sign-in leaves. *)
Lemma SignIn_granted (env : Env) (userData : IUser)
    (w : World) (r : Response) (tok mail : string) :
  server env (network w) (signin_call env userData) = Reply r ->
  validateStatus (status r) = true ->
  payload (body r) = Some (AuthData tok mail) ->
  tok <> "" -> mail <> "" ->
  exists w',
    SignIn env userData w = (Resolved (Some (body r)), w') /\
    localStorage w' !! "accessToken" = Some tok /\
    localStorage w' !! "userEmail" = Some mail /\
    authStore w' = mkAuthState true (Some mail) /\
    localStorage w' !! "auth-store"
      = Some (JSON_stringify env (mkAuthState true (Some mail))) /\
    network w' = network w ++ [signin_call env userData] /\
    toasts w' = toasts w /\ location w' = location w.
Proof.
  intros Hs Hv Hp Ht Hm.
  apply truthy_Some in Ht. apply truthy_Some in Hm.
  eexists. split.
  - unfold SignIn. apply try_catch_Resolved.
    rewrite (bind_Resolved _ _ _ _ _ (axios_post_resolved env _ _ w r Hs Hv)).
    unfold read_payload. rewrite Hp.
    cbv beta iota delta [bind ret localStorage_setItem setAuth
                         payload_accessToken payload_email].
    rewrite Ht, Hm. reflexivity.
  - simpl. split; [|split; [|split; [|split; [|now repeat split]]]].
    + rewrite lookup_insert_ne by discriminate.
      rewrite lookup_insert_ne by discriminate. apply lookup_insert_eq.
    + rewrite lookup_insert_ne by discriminate. apply lookup_insert_eq.
    + reflexivity.
    + apply lookup_insert_eq.
Qed.

(** X5.  When the [/signin] request is answered 2xx with a payload
    carrying a non-empty token and a non-empty email, [SignIn] returns
    the body and leaves the token under ['accessToken'], the email of
    the answer under ['userEmail'] and the session authenticated with
    that email, persisted under ['auth-store']; it makes that one
    request and shows no notification. *)
Theorem SignIn_establishes_session (env : Env) (userData : IUser)
    (w : World) (r : Response) (tok mail : string) :
  server env (network w) (signin_call env userData) = Reply r ->
  validateStatus (status r) = true ->
  payload (body r) = Some (AuthData tok mail) ->
  tok <> "" -> mail <> "" ->
  exists w',
    SignIn env userData w = (Resolved (Some (body r)), w') /\
    localStorage w' !! "accessToken" = Some tok /\
    localStorage w' !! "userEmail" = Some mail /\
    authStore w' = mkAuthState true (Some mail) /\
    localStorage w' !! "auth-store"
      = Some (JSON_stringify env (mkAuthState true (Some mail))) /\
    network w' = network w ++ [signin_call env userData] /\
    toasts w' = toasts w /\ location w' = location w.
Proof. exact (SignIn_granted env userData w r tok mail). Qed.

Lemma SignIn_establishes_session_witness :
  let env := demo_env srv_signin in
  exists w',
    SignIn env ann fresh_world
      = (Resolved (Some (mkBody true "" None
                           (Some (AuthData "valid" "ann@example.org")))),
         w') /\
    localStorage w' !! "accessToken" = Some "valid" /\
    authStore w' = mkAuthState true (Some "ann@example.org").
Proof.
  intros env.
  destruct (SignIn_establishes_session env ann fresh_world
              (mkResponse 200
                 (mkBody true "" None
                         (Some (AuthData "valid" "ann@example.org"))))
              "valid" "ann@example.org" eq_refl eq_refl eq_refl
              ltac:(discriminate) ltac:(discriminate))
    as (w' & H & Ht & _ & Ha & _).
  exists w'. split; [exact H|]. split; [exact Ht|exact Ha].
Defined.

(** X6.  [VerifyCode] stores the email it was called with, not the one
    of the answer: after a 2xx answer carrying a non-empty token,
    ['userEmail'] and the session hold the argument (when it is not
    empty), whatever email the payload has. *)
Theorem VerifyCode_keeps_its_argument (env : Env) (mail cacheCode : string)
    (w : World) (r : Response) (tok answered : string) :
  server env (network w) (verify_call env mail cacheCode) = Reply r ->
  validateStatus (status r) = true ->
  payload (body r) = Some (AuthData tok answered) ->
  tok <> "" -> mail <> "" ->
  exists w',
    VerifyCode env mail cacheCode w = (Resolved (Some (body r)), w') /\
    localStorage w' !! "accessToken" = Some tok /\
    localStorage w' !! "userEmail" = Some mail /\
    authStore w' = mkAuthState true (Some mail).
Proof.
  intros Hs Hv Hp Ht Hm.
  apply truthy_Some in Ht. apply truthy_Some in Hm.
  eexists. split.
  - unfold VerifyCode. apply try_catch_Resolved.
    rewrite (bind_Resolved _ _ _ _ _ (axios_post_resolved env _ _ w r Hs Hv)).
    unfold read_payload. rewrite Hp.
    cbv beta iota delta [bind ret localStorage_setItem setAuth
                         payload_accessToken].
    rewrite Ht, Hm. reflexivity.
  - simpl. split; [|split; [|reflexivity]].
    + rewrite lookup_insert_ne by discriminate.
      rewrite lookup_insert_ne by discriminate. apply lookup_insert_eq.
    + rewrite lookup_insert_ne by discriminate. apply lookup_insert_eq.
Qed.

Lemma VerifyCode_keeps_its_argument_witness :
  let env := demo_env srv_signin in
  exists w',
    fst (VerifyCode env "bob@example.org" "hdi1cp" fresh_world)
      = Resolved (Some (mkBody true "" None
                          (Some (AuthData "valid" "ann@example.org")))) /\
    VerifyCode env "bob@example.org" "hdi1cp" fresh_world
      = (fst (VerifyCode env "bob@example.org" "hdi1cp" fresh_world), w') /\
    localStorage w' !! "userEmail" = Some "bob@example.org" /\
    authStore w' = mkAuthState true (Some "bob@example.org").
Proof.
  intros env.
  destruct (VerifyCode_keeps_its_argument env "bob@example.org" "hdi1cp"
              fresh_world
              (mkResponse 200
                 (mkBody true "" None
                         (Some (AuthData "valid" "ann@example.org"))))
              "valid" "ann@example.org" eq_refl eq_refl eq_refl
              ltac:(discriminate) ltac:(discriminate))
    as (w' & H & _ & Hu & Ha).
  exists w'. rewrite H. repeat split; assumption.
Defined.

(** X7.  An answer without token signs nobody in: when the [/signin]
    request is answered 2xx with a payload whose token is missing or
    empty, [SignIn] still returns the body, but storage and session are
    as before. *)
Theorem SignIn_without_token_changes_nothing (env : Env) (userData : IUser)
    (w : World) (r : Response) (p : Payload) :
  server env (network w) (signin_call env userData) = Reply r ->
  validateStatus (status r) = true ->
  payload (body r) = Some p ->
  payload_accessToken p = "" ->
  exists w',
    SignIn env userData w = (Resolved (Some (body r)), w') /\
    localStorage w' = localStorage w /\ authStore w' = authStore w.
Proof.
  intros Hs Hv Hp Ht. eexists. split.
  - unfold SignIn. apply try_catch_Resolved.
    rewrite (bind_Resolved _ _ _ _ _ (axios_post_resolved env _ _ w r Hs Hv)).
    unfold read_payload. rewrite Hp.
    cbv beta iota delta [bind ret]. rewrite Ht. reflexivity.
  - now split.
Qed.

Lemma SignIn_without_token_changes_nothing_witness :
  let env := demo_env srv_no_token in
  exists w',
    SignIn env ann fresh_world
      = (Resolved (Some (mkBody true "" None (Some (OtherData "{}")))), w') /\
    localStorage w' = ∅ /\ authStore w' = mkAuthState false None.
Proof.
  intros env.
  destruct (SignIn_without_token_changes_nothing env ann fresh_world
              (mkResponse 200 (mkBody true "" None (Some (OtherData "{}"))))
              (OtherData "{}") eq_refl eq_refl eq_refl eq_refl)
    as (w' & H & Hl & Ha).
  exists w'. split; [exact H|]. split; [exact Hl|exact Ha].
Defined.

(** X8.  A token obtained by signing in is the one the next request
    carries: after an accepted sign-in, with a token whose [exp] is after
    the clock, the client sends any request as its single network call,
    without refreshing; the request on the wire has the header
    [Bearer <token>] and the method, url, body and flag of the config
    that was given. *)
Theorem SignIn_then_request_carries_token (env : Env) (userData : IUser)
    (w : World) (r : Response) (tok mail : string) (e : Z) (config : Config) :
  server env (network w) (signin_call env userData) = Reply r ->
  validateStatus (status r) = true ->
  payload (body r) = Some (AuthData tok mail) ->
  tok <> "" -> mail <> "" ->
  jwtDecode env tok = Some (mkJwt (Some e)) ->
  (Date_now env (network w ++ [signin_call env userData]) < e * 1000)%Z ->
  exists w',
    SignIn env userData w = (Resolved (Some (body r)), w') /\
    apiClient_send env config w'
      = transmit env ViaApiClient
                 (set_Authorization ("Bearer " ++ tok) config) w' /\
    (forall o w2, apiClient_send env config w' = (o, w2) ->
       exists sent,
         network w2 = network w' ++ [Sent ViaApiClient sent] /\
         Authorization sent = Some ("Bearer " ++ tok)%string /\
         method sent = method config /\ url sent = url config /\
         data sent = data config /\ _retry sent = _retry config).
Proof.
  intros Hs Hv Hp Ht Hm Hd He.
  destruct (SignIn_granted env userData w r tok mail
              Hs Hv Hp Ht Hm) as (w' & H & Htok & _ & _ & _ & Hn & _).
  exists w'. split; [exact H|].
  rewrite <- Hn in He.
  pose proof (isTokenExpired_future env tok e w' Hd He) as Hx.
  assert (apiClient_send env config w'
          = transmit env ViaApiClient
                     (set_Authorization ("Bearer " ++ tok) config) w')
    as Hsend.
  { unfold apiClient_send.
    now rewrite (bind_Resolved _ _ _ _ _
                   (request_unexpired env config w' tok w' Htok Ht Hx)). }
  split; [exact Hsend|].
  intros o w2 Ha. rewrite Hsend in Ha. apply transmit_network in Ha.
  eexists. split; [exact Ha|]. now repeat split.
Qed.

Lemma SignIn_then_request_carries_token_witness :
  let env := demo_env srv_signin in
  exists w',
    fst (SignIn env ann fresh_world)
      = Resolved (Some (mkBody true "" None
                          (Some (AuthData "valid" "ann@example.org")))) /\
    snd (SignIn env ann fresh_world) = w' /\
    network (snd (apiClient_send env get_images w'))
      = [signin_call env ann;
         Sent ViaApiClient
           (mkConfig GET "/images" NoData (Some "Bearer valid") false)].
Proof.
  intros env.
  destruct (SignIn_then_request_carries_token env ann fresh_world
              (mkResponse 200
                 (mkBody true "" None
                         (Some (AuthData "valid" "ann@example.org"))))
              "valid" "ann@example.org" 5000 get_images
              eq_refl eq_refl eq_refl ltac:(discriminate) ltac:(discriminate)
              eq_refl eq_refl)
    as (w' & H & Hsend & _).
  exists w'. rewrite H. split; [reflexivity|]. split; [reflexivity|].
  rewrite Hsend.
  assert (w' = snd (SignIn env ann fresh_world)) as -> by now rewrite H.
  reflexivity.
Defined.

(** ** What the client puts on the wire *)

Section WireFacts.

Variable env : Env.

Lemma same_request_refl c : same_request c c.
Proof. now repeat split. Qed.

Lemma same_request_header h c c' :
  same_request c c' -> same_request c (set_Authorization h c').
Proof. intros (H1 & H2 & H3). now repeat split. Qed.

Lemma same_request_flag b c c' :
  same_request c c' -> same_request c (set_retry b c').
Proof. intros (H1 & H2 & H3). now repeat split. Qed.

Lemma same_request_trans a b c :
  same_request a b -> same_request b c -> same_request a c.
Proof.
  intros (H1 & H2 & H3) (H4 & H5 & H6). unfold same_request.
  rewrite H4, H5, H6. now repeat split.
Qed.

Lemma send_wire config w o w' :
  apiClient_send env config w = (o, w') ->
  (exists l, network w' = network w ++ l /\
             Forall (refresh_or env config) l) /\
  (forall c r, o = Rejected (AxiosError c r) -> same_request config c).
Proof.
  unfold apiClient_send.
  destruct (request_cases env config w) as [(c' & w1 & Hq & Hc)|(w1 & Hq)].
  - rewrite (bind_Resolved _ _ _ _ _ Hq). unfold dispatchRequest.
    assert (same_request config c') as Hsame
      by (destruct Hc as [->|(tok & ->)];
          [apply same_request_refl
          |apply same_request_header, same_request_refl]).
    pose proof (request_extends env config w _ _ Hq) as Hn.
    intros Ht. pose proof (transmit_network env _ _ _ _ _ Ht) as Hn'.
    split.
    + destruct Hn as [Hn|Hn]; rewrite Hn', Hn.
      * exists [Sent ViaApiClient c']. split; [reflexivity|].
        now apply Forall_singleton.
      * exists [refresh_call env; Sent ViaApiClient c'].
        rewrite <- app_assoc. split; [reflexivity|].
        apply Forall_cons. split; [reflexivity|].
        now apply Forall_singleton.
    + intros c r ->.
      destruct (transmit_cases env ViaApiClient c' w1) as [(r' & H)|(r' & H)];
        rewrite H in Ht; [discriminate|]. now injection Ht as <- _ _.
  - rewrite (bind_Rejected _ _ _ _ _ Hq). intros [= <- <-].
    split; [|discriminate].
    destruct (request_extends env config w _ _ Hq) as [Hn|Hn]; rewrite Hn.
    + exists []. now rewrite app_nil_r.
    + exists [refresh_call env]. split; [reflexivity|].
      now apply Forall_singleton.
Qed.

End WireFacts.

(** Every request a call of the client puts on the wire. *)
Lemma apiClient_wire (env : Env) (config : Config)
    (w : World) :
  exists o w' l,
    apiClient env config w = (o, w') /\
    network w' = network w ++ l /\
    Forall (refresh_or env config) l.
Proof.
  unfold apiClient.
  change (apiClient_rec env 2 config w)
    with (request env (apiClient_rec env 1) config w).
  unfold request, then_.
  destruct (apiClient_send env config w) as [o0 w0] eqn:Hs.
  destruct (send_wire env config w o0 w0 Hs) as ((l1 & Hn1 & Hl1) & Herr).
  destruct o0 as [r|e|].
  - eexists _, _, l1. now repeat split.
  - destruct e as [c [r|]| |];
      try (rewrite response_passes by exact I;
           eexists _, _, l1; now repeat split).
    destruct ((status r =? 401)%Z && negb (_retry c)) eqn:Hcond;
      [|rewrite response_passes by exact Hcond;
        eexists _, _, l1; now repeat split].
    apply andb_true_iff in Hcond as [Hst Hflag].
    apply Z.eqb_eq in Hst. apply negb_true_iff in Hflag.
    pose proof (Herr c (Some r) eq_refl) as Hsame.
    destruct (granted (refresh_reply env w0)) as [nt|] eqn:Hg.
    + rewrite (response_resends env _ c r w0 nt Hst Hflag Hg).
      rewrite apiClient_rec_retried by reflexivity.
      destruct (apiClient_send env _ (after_grant env nt w0))
        as [o2 w2] eqn:Hs2.
      destruct (send_wire env _ _ o2 w2 Hs2) as ((l2 & Hn2 & Hl2) & _).
      exists o2, w2, (l1 ++ refresh_call env :: l2). split; [reflexivity|].
      split.
      * rewrite Hn2. simpl. rewrite Hn1, <- !app_assoc. reflexivity.
      * apply Forall_app. split; [exact Hl1|].
        apply Forall_cons. split; [reflexivity|].
        eapply Forall_impl; [exact Hl2|].
        intros [[|] c']; simpl; [|tauto].
        apply same_request_trans.
        now apply same_request_header, same_request_flag.
    + destruct (response_session_lost env (apiClient_rec env 1) c r w0
                  Hst Hflag Hg) as (w2 & Hr & ->).
      destruct (refresh_total env w0) as (w2' & Hr' & Hn2).
      rewrite Hr in Hr'. injection Hr' as _ <-.
      eexists _, _, (l1 ++ [refresh_call env]). split; [reflexivity|].
      split.
      * simpl. rewrite Hn2, Hn1, <- app_assoc. reflexivity.
      * apply Forall_app. split; [exact Hl1|].
        now apply Forall_singleton.
  - eexists _, _, l1. now repeat split.
Qed.

(** X9.  The client never alters what is asked: every request it puts
    on the wire during a call is either the refresh call or a request
    with the method, the url and the body of the config it was given,
    the resend after a 401 included; only the [Authorization] header
    and the [_retry] flag differ.  The call always settles: it resolves
    or rejects. *)
Theorem client_sends_only_the_request (env : Env) (config : Config)
    (w : World) :
  exists o w' l,
    apiClient env config w = (o, w') /\
    o <> Unfinished /\
    network w' = network w ++ l /\
    Forall (refresh_or env config) l.
Proof.
  destruct (apiClient_wire env config w) as (o & w' & l & Ha & Hn & Hl).
  exists o, w', l. split; [exact Ha|]. split; [|now split].
  pose proof (apiClient_settles env config w) as Hfin.
  now rewrite Ha in Hfin.
Qed.

(** ** The gallery page: reordering *)

Section ArrayFacts.

Context {A : Type}.

Lemma findIndex_from_cases (p : A -> bool) l i :
  (findIndex_from p l i = (-1)%Z /\ Forall (fun x => p x = false) l) \/
  (exists k x, findIndex_from p l i = (i + Z.of_nat k)%Z /\
               l !! k = Some x /\ p x = true /\
               Forall (fun y => p y = false) (take k l)).
Proof.
  revert i. induction l as [|a l IH]; intros i; simpl.
  - left. split; [reflexivity|constructor].
  - destruct (p a) eqn:Hp.
    + right. exists 0%nat, a. rewrite Z.add_0_r. repeat split; auto.
    + destruct (IH (i + 1)%Z) as [[H1 H2]|(k & x & H1 & H2 & H3 & H4)].
      * left. split; [exact H1|now constructor].
      * right. exists (S k), x. repeat split; auto.
        -- rewrite H1. lia.
        -- simpl. now constructor.
Qed.

Lemma findIndex_cases (p : A -> bool) l :
  (findIndex p l = (-1)%Z /\ Forall (fun x => p x = false) l) \/
  (exists k x, findIndex p l = Z.of_nat k /\
               l !! k = Some x /\ p x = true /\
               Forall (fun y => p y = false) (take k l)).
Proof. apply (findIndex_from_cases p l 0). Qed.

(** Where [splice] starts when it is given the result of
    [findIndex] on a non-empty array: at the index found, or at the
    last element when nothing was found. *)
Lemma splice_start_findIndex (p : A -> bool) l :
  l <> [] ->
  (splice_start (length l) (findIndex p l) < length l)%nat.
Proof.
  intros Hl. assert (0 < length l)%nat by (destruct l; simpl; [congruence|lia]).
  unfold splice_start.
  destruct (findIndex_cases p l) as [[-> _]|(k & x & -> & Hk & _)].
  - simpl. lia.
  - apply lookup_lt_Some in Hk.
    destruct (Z.ltb_spec (Z.of_nat k) 0); lia.
Qed.

Lemma splice_start_found len k :
  (k <= len)%nat -> splice_start len (Z.of_nat k) = k.
Proof.
  intros Hk. unfold splice_start.
  destruct (Z.ltb_spec (Z.of_nat k) 0); lia.
Qed.

Lemma splice_start_le len start : (splice_start len start <= len)%nat.
Proof.
  unfold splice_start. destruct (Z.ltb_spec start 0); lia.
Qed.

End ArrayFacts.

(** On a non-empty list the updater takes one image out and puts it
    back. *)
Lemma reorderImages_moves (activeId overId : string) l i x :
  i = splice_start (length l)
        (findIndex (fun image => String.eqb (img_id image) activeId) l) ->
  l !! i = Some x ->
  reorderImages activeId overId l
    = Some <$>
        (take (splice_start (length (delete i l))
                 (findIndex (fun image => String.eqb (img_id image) overId)
                            l))
              (delete i l)
         ++ x :: drop (splice_start (length (delete i l))
                         (findIndex
                            (fun image => String.eqb (img_id image) overId)
                            l))
                      (delete i l)).
Proof.
  intros Hi Hx. unfold reorderImages, splice.
  rewrite length_fmap, <- Hi.
  assert (Hrem : take 1 (drop i (Some <$> l)) = [Some x]).
  { rewrite <- fmap_drop, <- fmap_take.
    rewrite (drop_S l x i Hx). reflexivity. }
  rewrite Hrem. cbn [head default snd].
  assert (Hrest : take i (Some <$> l) ++ [] ++ drop (i + 1) (Some <$> l)
                  = Some <$> delete i l).
  { rewrite <- fmap_drop, <- fmap_take, app_nil_l, <- fmap_app.
    f_equal. rewrite delete_take_drop. f_equal. f_equal. lia. }
  rewrite Hrest, length_fmap.
  rewrite Nat.add_0_r, <- fmap_drop, <- fmap_take.
  change ([Some x] ++ ?r) with (Some x :: r).
  rewrite fmap_app. reflexivity.
Qed.

(** X10.  Whatever the two identifiers, a drag end on a gallery that
    shows at least one image either changes nothing (the card was
    dropped on itself) or rearranges the images: the new list holds
    exactly the images of the old one, none lost, none doubled, no
    [undefined] entry. *)
Theorem handleDragEnd_rearranges (active over : string)
    (prev : list IImage) :
  prev <> [] ->
  (active = over /\ handleDragEnd active (Some over) prev = DragIgnored) \/
  (active <> over /\
   exists l', handleDragEnd active (Some over) prev
                = DragReordered (Some <$> l') /\
              l' ≡ₚ prev /\ length l' = length prev).
Proof.
  intros Hne. unfold handleDragEnd.
  destruct (String.eqb_spec active over) as [->|Hd]; simpl.
  - left. split; reflexivity.
  - right. split; [exact Hd|].
    set (i := splice_start (length prev)
                (findIndex (fun image => String.eqb (img_id image) active)
                           prev)).
    assert (Hlt : (i < length prev)%nat)
      by now apply splice_start_findIndex.
    apply lookup_lt_is_Some_2 in Hlt as [x Hx].
    set (r := delete i prev).
    set (j := splice_start (length r)
                (findIndex (fun image => String.eqb (img_id image) over)
                           prev)).
    exists (take j r ++ x :: drop j r). split.
    + f_equal. exact (reorderImages_moves active over prev i x eq_refl Hx).
    + assert (Hperm : take j r ++ x :: drop j r ≡ₚ prev).
      { rewrite <- Permutation_middle, take_drop. symmetry.
        now apply delete_Permutation. }
      split; [exact Hperm|]. now rewrite Hperm.
Qed.


Lemma handleDragEnd_rearranges_witness :
  [pic "a"; pic "b"; pic "c"] <> [] /\
  (("a" = "c" /\
    handleDragEnd "a" (Some "c") [pic "a"; pic "b"; pic "c"] = DragIgnored) \/
   ("a" <> "c" /\
    exists l', handleDragEnd "a" (Some "c") [pic "a"; pic "b"; pic "c"]
                 = DragReordered (Some <$> l') /\
               l' ≡ₚ [pic "a"; pic "b"; pic "c"] /\
               length l' = length [pic "a"; pic "b"; pic "c"])).
Proof.
  split; [discriminate|].
  apply (handleDragEnd_rearranges "a" "c" [pic "a"; pic "b"; pic "c"]).
  discriminate.
Defined.

Lemma delete_middle {A} (l1 l2 : list A) x :
  delete (length l1) (l1 ++ x :: l2) = l1 ++ l2.
Proof. induction l1 as [|a l1 IH]; simpl; [reflexivity|now rewrite IH]. Qed.

Lemma findIndex_found {A} (p : A -> bool) l (k : nat) :
  findIndex p l = Z.of_nat k ->
  exists x, l !! k = Some x /\ p x = true.
Proof.
  intros H.
  destruct (findIndex_cases p l) as [[H1 _]|(k' & x & H1 & H2 & H3 & _)].
  - rewrite H1 in H. lia.
  - rewrite H1 in H. apply Nat2Z.inj in H as ->. eauto.
Qed.

(** X11.  When both cards are in the gallery, the dragged image ends
    at the index the target had, and the images other than the dragged
    one keep their order. *)
Theorem dragged_image_takes_target_place (active over : string)
    (prev : list IImage) (i j : nat) :
  active <> over ->
  findIndex (fun image => String.eqb (img_id image) active) prev
    = Z.of_nat i ->
  findIndex (fun image => String.eqb (img_id image) over) prev
    = Z.of_nat j ->
  exists x y l',
    prev !! i = Some x /\ img_id x = active /\
    prev !! j = Some y /\ img_id y = over /\
    handleDragEnd active (Some over) prev = DragReordered (Some <$> l') /\
    l' !! j = Some x /\
    delete j l' = delete i prev.
Proof.
  intros Hd Hi Hj.
  destruct (findIndex_found _ _ _ Hi) as (x & Hx & Hpx).
  destruct (findIndex_found _ _ _ Hj) as (y & Hy & Hpy).
  apply String.eqb_eq in Hpx, Hpy.
  pose proof (lookup_lt_Some _ _ _ Hx) as Hli.
  pose proof (lookup_lt_Some _ _ _ Hy) as Hlj.
  set (r := delete i prev).
  assert (Hr : length r = (length prev - 1)%nat).
  { unfold r. rewrite length_delete; [lia|eauto]. }
  exists x, y, (take j r ++ x :: drop j r).
  assert (Htake : length (take j r) = j) by (rewrite length_take; lia).
  repeat split; auto.
  - unfold handleDragEnd.
    destruct (String.eqb_spec active over) as [|_]; [contradiction|].
    simpl. f_equal.
    rewrite (reorderImages_moves active over prev i x); [|
      rewrite Hi; symmetry; apply splice_start_found; lia | exact Hx].
    fold r. rewrite Hj, splice_start_found by lia. reflexivity.
  - rewrite lookup_app_r by lia. rewrite Htake, Nat.sub_diag. reflexivity.
  - rewrite <- Htake at 1. rewrite delete_middle. apply take_drop.
Qed.


Lemma dragged_image_takes_target_place_witness :
  exists x y l',
    [pic "a"; pic "b"; pic "c"] !! 0%nat = Some x /\ img_id x = "a" /\
    [pic "a"; pic "b"; pic "c"] !! 2%nat = Some y /\ img_id y = "c" /\
    handleDragEnd "a" (Some "c") [pic "a"; pic "b"; pic "c"]
      = DragReordered (Some <$> l') /\
    l' !! 2%nat = Some x /\
    delete 2 l' = delete 0 [pic "a"; pic "b"; pic "c"].
Proof.
  apply (dragged_image_takes_target_place
           "a" "c" [pic "a"; pic "b"; pic "c"] 0 2).
  - discriminate.
  - reflexivity.
  - reflexivity.
Defined.

Lemma findIndex_absent {A} (p : A -> bool) l :
  Forall (fun x => p x = false) l -> findIndex p l = (-1)%Z.
Proof.
  intros H.
  destruct (findIndex_cases p l) as [[H1 _]|(k & x & _ & H2 & H3 & _)].
  - exact H1.
  - rewrite Forall_lookup in H. rewrite (H k x H2) in H3. discriminate.
Qed.

(** X12.  A drag end whose dragged card is no longer among the images
    still moves one: [findIndex] answers [-1], which [splice] counts
    from the end, so the last image of the gallery is taken out and
    put at the index of the target. *)
Theorem absent_card_moves_last_image (active over : string)
    (init : list IImage) (last : IImage) (j : nat) :
  active <> over ->
  Forall (fun image => img_id image <> active) (init ++ [last]) ->
  findIndex (fun image => String.eqb (img_id image) over) (init ++ [last])
    = Z.of_nat j ->
  exists l',
    handleDragEnd active (Some over) (init ++ [last])
      = DragReordered (Some <$> l') /\
    l' !! j = Some last /\
    delete j l' = init.
Proof.
  intros Hd Habs Hj. set (prev := init ++ [last]) in *.
  assert (Hold : findIndex (fun image => String.eqb (img_id image) active)
                           prev = (-1)%Z).
  { apply findIndex_absent. eapply Forall_impl; [exact Habs|].
    intros x Hx. now apply String.eqb_neq. }
  assert (Hlen : length prev = S (length init))
    by (unfold prev; rewrite length_app; simpl; lia).
  assert (Hi : splice_start (length prev) (-1) = length init).
  { unfold splice_start. simpl. lia. }
  assert (Hx : prev !! length init = Some last).
  { unfold prev. rewrite lookup_app_r by lia.
    now rewrite Nat.sub_diag. }
  assert (Hr : delete (length init) prev = init).
  { unfold prev. rewrite delete_middle. apply app_nil_r. }
  destruct (findIndex_found _ _ _ Hj) as (y & Hy & _).
  apply lookup_lt_Some in Hy.
  assert (Htake : length (take j init) = j) by (rewrite length_take; lia).
  exists (take j init ++ last :: drop j init). repeat split.
  - unfold handleDragEnd.
    destruct (String.eqb_spec active over) as [|_]; [contradiction|].
    simpl. f_equal.
    rewrite (reorderImages_moves active over prev (length init) last);
      [|rewrite Hold; symmetry; exact Hi|exact Hx].
    rewrite Hr, Hj, splice_start_found by lia. reflexivity.
  - rewrite lookup_app_r by lia. rewrite Htake, Nat.sub_diag. reflexivity.
  - rewrite <- Htake at 1. rewrite delete_middle. apply take_drop.
Qed.

Lemma absent_card_moves_last_image_witness :
  exists l',
    handleDragEnd "gone" (Some "a") ([pic "a"; pic "b"] ++ [pic "c"])
      = DragReordered (Some <$> l') /\
    l' !! 0%nat = Some (pic "c") /\
    delete 0 l' = [pic "a"; pic "b"].
Proof.
  apply (absent_card_moves_last_image "gone" "a" [pic "a"; pic "b"]
                                      (pic "c") 0).
  - discriminate.
  - repeat constructor; discriminate.
  - reflexivity.
Defined.


(** ** The gallery page: saving the order, deleting, editing *)

Lemma imageOrder_from_lookup l : forall index k img,
  l !! k = Some img ->
  imageOrder_from index l !! k
    = Some (mkImageOrder (img_id img) (index + Z.of_nat k)).
Proof.
  induction l as [|a l IH]; intros index k img H; [discriminate|].
  destruct k as [|k]; simpl in *.
  - injection H as ->. now rewrite Z.add_0_r.
  - rewrite (IH _ _ _ H). do 2 f_equal. lia.
Qed.

Lemma imageOrder_from_length l : forall index,
  length (imageOrder_from index l) = length l.
Proof. induction l as [|a l IH]; intros index; simpl; auto. Qed.

Section HomeFacts.

Variable env : Env.

Lemma handleAxiosError_frame e w :
  exists w',
    handleAxiosError e w = (Resolved tt, w') /\
    toasts w' = toasts w ++ [error_toast e] /\
    network w' = network w /\
    localStorage w' = localStorage w /\
    authStore w' = authStore w /\
    location w' = location w.
Proof.
  destruct e as [c [r|]| |]; eexists; repeat split; reflexivity.
Qed.

(** What a wrapper that swallows hands to the page: the body of the
    reply, or [undefined] after the notification. *)
Lemma plain_wrapper_cases (call : M Response) w :
  fst (call w) <> Unfinished ->
  (exists r w1,
     call w = (Resolved r, w1) /\
     try_catch (response <- call ;; ret (Some (body response)))
               (fun error => handleAxiosError error ;; ret None) w
       = (Resolved (Some (body r)), w1)) \/
  (exists e w1 w2,
     call w = (Rejected e, w1) /\
     try_catch (response <- call ;; ret (Some (body response)))
               (fun error => handleAxiosError error ;; ret None) w
       = (Resolved None, w2) /\
     toasts w2 = toasts w1 ++ [error_toast e] /\
     network w2 = network w1 /\
     localStorage w2 = localStorage w1 /\
     authStore w2 = authStore w1 /\
     location w2 = location w1).
Proof.
  intros Hfin. destruct (call w) as [[r|e|] w1] eqn:Hc; simpl in Hfin.
  - left. exists r, w1. split; [reflexivity|].
    apply try_catch_Resolved.
    now rewrite (bind_Resolved _ _ _ _ _ Hc).
  - right. destruct (handleAxiosError_frame e w1) as (w2 & H & Hrest).
    exists e, w1, w2. split; [reflexivity|]. split; [|exact Hrest].
    rewrite (try_catch_Rejected _ _ w e w1).
    + now rewrite (bind_Resolved _ _ _ _ _ H).
    + now apply bind_Rejected.
  - congruence.
Qed.

Lemma updateImageOrder_cases imageOrder w :
  (exists r w1,
     apiClient_post env "/change-order" (ImageOrders imageOrder) w
       = (Resolved r, w1) /\
     updateImageOrder env imageOrder w = (Resolved (Some (body r)), w1)) \/
  (exists e w1 w2,
     apiClient_post env "/change-order" (ImageOrders imageOrder) w
       = (Rejected e, w1) /\
     updateImageOrder env imageOrder w = (Resolved None, w2) /\
     toasts w2 = toasts w1 ++ [error_toast e] /\
     network w2 = network w1 /\
     localStorage w2 = localStorage w1 /\
     authStore w2 = authStore w1 /\
     location w2 = location w1).
Proof. apply plain_wrapper_cases, apiClient_settles. Qed.

Lemma deleteImage_cases id w :
  (exists r w1,
     apiClient_delete env ("/delete-image/" ++ id) w = (Resolved r, w1) /\
     deleteImage env id w = (Resolved (Some (body r)), w1)) \/
  (exists e w1 w2,
     apiClient_delete env ("/delete-image/" ++ id) w = (Rejected e, w1) /\
     deleteImage env id w = (Resolved None, w2) /\
     toasts w2 = toasts w1 ++ [error_toast e] /\
     network w2 = network w1 /\
     localStorage w2 = localStorage w1 /\
     authStore w2 = authStore w1 /\
     location w2 = location w1).
Proof. apply plain_wrapper_cases, apiClient_settles. Qed.

Lemma handleSaveOrder_replied s w r w1 :
  apiClient_post env "/change-order"
    (ImageOrders (imageOrder_from 0 (images s))) w = (Resolved r, w1) ->
  handleSaveOrder env s w
    = (Resolved
         (if success (body r) then
            mkHome (images s) (isModalOpen s) (isEditModalOpen s)
                   (isDeleteModalOpen s) (selectedImage s) (isLoading s)
                   (errors_api s) false (successes s ++ [message (body r)])
          else
            mkHome (images s) (isModalOpen s) (isEditModalOpen s)
                   (isDeleteModalOpen s) (selectedImage s) (isLoading s)
                   (Some "Failed to save image order") (isOrderChanged s)
                   (successes s)),
       w1).
Proof.
  intros Hc.
  destruct (updateImageOrder_cases (imageOrder_from 0 (images s)) w)
    as [(r' & w1' & Hc' & Hu)|(e & w1' & w2 & Hc' & _)];
    rewrite Hc in Hc'; [|discriminate].
  injection Hc' as <- <-.
  unfold handleSaveOrder. apply try_catch_Resolved.
  rewrite (bind_Resolved _ _ _ _ _ Hu). simpl.
  unfold bind, ret. simpl. now destruct (success (body r)).
Qed.

Lemma handleSaveOrder_failed s w e w1 :
  apiClient_post env "/change-order"
    (ImageOrders (imageOrder_from 0 (images s))) w = (Rejected e, w1) ->
  exists w2,
    handleSaveOrder env s w
      = (Resolved
           (mkHome (images s) (isModalOpen s) (isEditModalOpen s)
                   (isDeleteModalOpen s) (selectedImage s) (isLoading s)
                   (Some "An error occurred while saving image order")
                   (isOrderChanged s) (successes s)),
         w2) /\
    toasts w2 = toasts w1 ++ [error_toast e] /\
    network w2 = network w1 /\
    localStorage w2 = localStorage w1 /\
    authStore w2 = authStore w1 /\
    location w2 = location w1.
Proof.
  intros Hc.
  destruct (updateImageOrder_cases (imageOrder_from 0 (images s)) w)
    as [(r' & w1' & Hc' & _)|(e' & w1' & w2 & Hc' & Hu & Hrest)];
    rewrite Hc in Hc'; [discriminate|].
  injection Hc' as <- <-.
  exists w2. split; [|exact Hrest].
  unfold handleSaveOrder.
  rewrite (try_catch_Rejected _ _ w
             (TypeError "Cannot read properties of undefined") w2);
    [reflexivity|].
  now rewrite (bind_Resolved _ _ _ _ _ Hu).
Qed.

End HomeFacts.


(** X13.  Saving the order sends the gallery as it is displayed: the
    body of every [/change-order] request on the wire lists the images
    in display order, the k-th one with its identifier and the order
    [k], counted from 0; apart from the refresh call nothing else is
    sent, and the images on the page are left as they are. *)
Theorem saved_order_is_display_order (env : Env) (s : Home) (w : World) :
  exists o w' l,
    handleSaveOrder env s w = (o, w') /\
    network w' = network w ++ l /\
    Forall (refresh_or env
              (mkConfig POST "/change-order"
                        (ImageOrders (imageOrder_from 0 (images s)))
                        None false)) l /\
    length (imageOrder_from 0 (images s)) = length (images s) /\
    forall k img, images s !! k = Some img ->
      imageOrder_from 0 (images s) !! k
        = Some (mkImageOrder (img_id img) (Z.of_nat k)).
Proof.
  destruct (apiClient_wire env
              (mkConfig POST "/change-order"
                        (ImageOrders (imageOrder_from 0 (images s)))
                        None false) w) as (o & w1 & l & Hc & Hn & Hl).
  assert (Hpos : length (imageOrder_from 0 (images s)) = length (images s) /\
                 forall k img, images s !! k = Some img ->
                   imageOrder_from 0 (images s) !! k
                     = Some (mkImageOrder (img_id img) (Z.of_nat k))).
  { split; [apply imageOrder_from_length|].
    intros k img H. now rewrite (imageOrder_from_lookup _ 0 k img H). }
  destruct o as [r|e|].
  - rewrite (handleSaveOrder_replied env s w r w1 Hc).
    eexists _, w1, l. split; [reflexivity|]. now repeat split.
  - destruct (handleSaveOrder_failed env s w e w1 Hc)
      as (w2 & -> & _ & Hn2 & _).
    eexists _, w2, l. split; [reflexivity|]. rewrite Hn2. now repeat split.
  - exfalso. eapply apiClient_settles. rewrite Hc. reflexivity.
Qed.

(** X14.  The handler of the save button never throws, and it marks
    the order as saved only when the reply of the server reports
    success: then the success notification shows the message of the
    reply.  In every other case the order stays marked as it was, no
    success is announced and the page shows one of its two error
    texts.  The images are never touched. *)
Theorem order_marked_saved_only_on_success (env : Env) (s : Home)
    (w : World) :
  exists s' w',
    handleSaveOrder env s w = (Resolved s', w') /\
    images s' = images s /\
    ((exists r,
        apiClient_post env "/change-order"
          (ImageOrders (imageOrder_from 0 (images s))) w
          = (Resolved r, w') /\
        success (body r) = true /\
        isOrderChanged s' = false /\
        successes s' = successes s ++ [message (body r)] /\
        errors_api s' = errors_api s) \/
     (isOrderChanged s' = isOrderChanged s /\
      successes s' = successes s /\
      (errors_api s' = Some "Failed to save image order" \/
       errors_api s' = Some "An error occurred while saving image order"))).
Proof.
  destruct (apiClient_post env "/change-order"
              (ImageOrders (imageOrder_from 0 (images s))) w)
    as [[r|e|] w1] eqn:Hc.
  - rewrite (handleSaveOrder_replied env s w r w1 Hc).
    destruct (success (body r)) eqn:Hs; eexists _, w1;
      (split; [reflexivity|]); (split; [reflexivity|]).
    + left. exists r. now repeat split.
    + right. simpl. auto.
  - destruct (handleSaveOrder_failed env s w e w1 Hc) as (w2 & -> & _).
    eexists _, w2. split; [reflexivity|]. split; [reflexivity|].
    right. simpl. auto.
  - exfalso. apply (apiClient_settles env
                      (mkConfig POST "/change-order"
                         (ImageOrders (imageOrder_from 0 (images s)))
                         None false) w).
    unfold apiClient_post in Hc. now rewrite Hc.
Qed.

(** X15.  When the [/change-order] request fails, the user is told
    twice: [updateImageOrder] shows the notification of the error and
    resolves with [undefined], and reading [success] of that throws
    into the handler's own [catch], which puts its text on the page.
    The order stays marked as unsaved. *)
Theorem failed_save_reported_twice (env : Env) (s : Home) (w : World)
    (e : JsError) (w1 : World) :
  apiClient_post env "/change-order"
    (ImageOrders (imageOrder_from 0 (images s))) w = (Rejected e, w1) ->
  exists s' w',
    handleSaveOrder env s w = (Resolved s', w') /\
    toasts w' = toasts w1 ++ [error_toast e] /\
    errors_api s' = Some "An error occurred while saving image order" /\
    isOrderChanged s' = isOrderChanged s /\
    images s' = images s /\
    successes s' = successes s.
Proof.
  intros Hc.
  destruct (handleSaveOrder_failed env s w e w1 Hc) as (w2 & -> & Ht & _).
  eexists _, w2. now repeat split.
Qed.

Lemma failed_save_reported_twice_witness :
  exists e w1,
    apiClient_post (demo_env srv_down) "/change-order"
      (ImageOrders
         (imageOrder_from 0
            (images (demo_home [pic "b"; pic "a"] None))))
      (demo_world "valid") = (Rejected e, w1) /\
    exists s' w',
      handleSaveOrder (demo_env srv_down)
        (demo_home [pic "b"; pic "a"] None) (demo_world "valid")
        = (Resolved s', w') /\
      toasts w' = toasts w1 ++ [error_toast e] /\
      errors_api s' = Some "An error occurred while saving image order" /\
      isOrderChanged s'
        = isOrderChanged (demo_home [pic "b"; pic "a"] None) /\
      images s' = images (demo_home [pic "b"; pic "a"] None) /\
      successes s' = successes (demo_home [pic "b"; pic "a"] None).
Proof.
  eexists _, _.
  refine ((fun H => conj H
             (failed_save_reported_twice (demo_env srv_down)
                (demo_home [pic "b"; pic "a"] None) (demo_world "valid")
                _ _ H)) _).
  reflexivity.
Defined.


Lemma or_else_nonempty a b : b <> "" -> or_else a b <> "".
Proof.
  intros Hb. unfold or_else. destruct (truthy a) eqn:Ht; [|exact Hb].
  destruct a as [t|]; [|discriminate]. simpl. now apply truthy_Some.
Qed.

Section DeleteFacts.

Variable env : Env.

Lemma handleConfirmDelete_replied s sel w r w1 :
  selectedImage s = Some sel ->
  apiClient_delete env ("/delete-image/" ++ img_id sel) w
    = (Resolved r, w1) ->
  handleConfirmDelete env s w
    = if success (body r) then
        (Resolved
           (close_delete_modal
              (mkHome
                 (List.filter
                    (fun img => negb (String.eqb (img_id img) (img_id sel)))
                    (images s))
                 (isModalOpen s) (isEditModalOpen s) (isDeleteModalOpen s)
                 (selectedImage s) (isLoading s) (errors_api s)
                 (isOrderChanged s)
                 (successes s
                  ++ [Some (or_else (message (body r))
                                    "Image deleted successfully")]))),
         w1)
      else
        (Resolved (close_delete_modal s),
         mkWorld (localStorage w1) (authStore w1) (network w1) (location w1)
                 (toasts w1
                  ++ [Some (or_else (message (body r))
                                    "Failed to delete image")])
                 (console w1)).
Proof.
  intros Hsel Hc. unfold handleConfirmDelete. rewrite Hsel.
  destruct (deleteImage_cases env (img_id sel) w)
    as [(r' & w1' & Hc' & Hd)|(e & w1' & w2 & Hc' & _)];
    rewrite Hc in Hc'; [|discriminate].
  injection Hc' as <- <-.
  destruct (success (body r)) eqn:Hs.
  - erewrite bind_Resolved; [reflexivity|].
    apply try_catch_Resolved.
    rewrite (bind_Resolved _ _ _ _ _ Hd). simpl.
    unfold bind, ret. simpl. now rewrite Hs.
  - erewrite bind_Resolved; [reflexivity|].
    apply try_catch_Resolved.
    rewrite (bind_Resolved _ _ _ _ _ Hd). simpl.
    unfold bind, ret. simpl. now rewrite Hs.
Qed.

Lemma handleConfirmDelete_failed s sel w e w1 :
  selectedImage s = Some sel ->
  apiClient_delete env ("/delete-image/" ++ img_id sel) w
    = (Rejected e, w1) ->
  exists w2,
    handleConfirmDelete env s w = (Resolved (close_delete_modal s), w2) /\
    toasts w2
      = toasts w1 ++ [error_toast e;
                      Some "An error occurred while deleting the image"] /\
    network w2 = network w1 /\
    localStorage w2 = localStorage w1 /\
    authStore w2 = authStore w1 /\
    location w2 = location w1.
Proof.
  intros Hsel Hc. unfold handleConfirmDelete. rewrite Hsel.
  destruct (deleteImage_cases env (img_id sel) w)
    as [(r' & w1' & Hc' & _)|(e' & w1' & w2 & Hc' & Hd & Ht & Hn & Hl & Ha & Ho)];
    rewrite Hc in Hc'; [discriminate|].
  injection Hc' as <- <-.
  eexists. split.
  - erewrite bind_Resolved; [reflexivity|].
    rewrite (try_catch_Rejected _ _ w
               (TypeError "Cannot read properties of undefined") w2);
      [reflexivity|].
    now rewrite (bind_Resolved _ _ _ _ _ Hd).
  - simpl. rewrite Ht, <- app_assoc. now repeat split.
Qed.

End DeleteFacts.

(** X16.  Confirming a deletion never throws and always ends with the
    dialog closed and the selection cleared.  An image leaves the page
    only when the reply of the server reports success: then exactly the
    images with the selected identifier are dropped, the others stay in
    their order, and a success is announced.  In every other case (the
    request fails or the reply reports no success) the images are as
    before, no success is announced and the last notification is an
    error text, never an empty one.  Without a selection nothing
    happens at all. *)
Theorem confirm_delete_outcome (env : Env) (s : Home) (w : World) :
  exists s' w',
    handleConfirmDelete env s w = (Resolved s', w') /\
    match selectedImage s with
    | None => s' = s /\ w' = w
    | Some sel =>
        isDeleteModalOpen s' = false /\
        selectedImage s' = None /\
        ((exists r,
            apiClient_delete env ("/delete-image/" ++ img_id sel) w
              = (Resolved r, w') /\
            success (body r) = true /\
            images s'
              = List.filter
                  (fun img => negb (String.eqb (img_id img) (img_id sel)))
                  (images s) /\
            Forall (fun img => img_id img <> img_id sel) (images s') /\
            successes s'
              = successes s ++ [Some (or_else (message (body r))
                                              "Image deleted successfully")]) \/
         (images s' = images s /\
          successes s' = successes s /\
          exists t, last (toasts w') = Some (Some t) /\ t <> ""))
    end.
Proof.
  destruct (selectedImage s) as [sel|] eqn:Hsel.
  2: { exists s, w. unfold handleConfirmDelete. rewrite Hsel. now repeat split. }
  destruct (apiClient_delete env ("/delete-image/" ++ img_id sel) w)
    as [[r|e|] w1] eqn:Hc.
  - rewrite (handleConfirmDelete_replied env s sel w r w1 Hsel Hc).
    destruct (success (body r)) eqn:Hs; eexists _, _;
      (split; [reflexivity|]); (split; [reflexivity|]);
      (split; [reflexivity|]).
    + left. exists r. repeat split; auto.
      simpl. apply List.Forall_forall. intros x Hx.
      apply List.filter_In in Hx as [_ Hx].
      apply negb_true_iff in Hx. now apply String.eqb_neq.
    + right. simpl. repeat split.
      eexists. rewrite last_snoc. split; [reflexivity|].
      now apply or_else_nonempty.
  - destruct (handleConfirmDelete_failed env s sel w e w1 Hsel Hc)
      as (w2 & -> & Ht & _).
    eexists _, w2. split; [reflexivity|].
    split; [reflexivity|]. split; [reflexivity|].
    right. simpl. repeat split.
    eexists. rewrite Ht.
    change [error_toast e; Some "An error occurred while deleting the image"]
      with ([error_toast e]
            ++ [Some "An error occurred while deleting the image"]).
    rewrite app_assoc, last_snoc. split; [reflexivity|discriminate].
  - exfalso. eapply apiClient_settles. unfold apiClient_delete in Hc.
    rewrite Hc. reflexivity.
Qed.

(** X17.  When the [/delete-image] request itself fails, the image
    stays on the page and the user gets two notifications in a row:
    the one [deleteImage] shows for the error, then the handler's
    own; the dialog is closed all the same. *)
Theorem failed_delete_keeps_image (env : Env) (s : Home) (sel : IImage)
    (w : World) (e : JsError) (w1 : World) :
  selectedImage s = Some sel ->
  apiClient_delete env ("/delete-image/" ++ img_id sel) w
    = (Rejected e, w1) ->
  exists s' w',
    handleConfirmDelete env s w = (Resolved s', w') /\
    images s' = images s /\
    isDeleteModalOpen s' = false /\
    selectedImage s' = None /\
    toasts w'
      = toasts w1 ++ [error_toast e;
                      Some "An error occurred while deleting the image"].
Proof.
  intros Hsel Hc.
  destruct (handleConfirmDelete_failed env s sel w e w1 Hsel Hc)
    as (w2 & -> & Ht & _).
  eexists _, w2. now repeat split.
Qed.

Lemma failed_delete_keeps_image_witness :
  exists e w1,
    (selectedImage (demo_home [pic "a"; pic "b"] (Some (pic "a")))
       = Some (pic "a") /\
     apiClient_delete (demo_env srv_down)
       ("/delete-image/" ++ img_id (pic "a")) (demo_world "valid")
       = (Rejected e, w1)) /\
    exists s' w',
      handleConfirmDelete (demo_env srv_down)
        (demo_home [pic "a"; pic "b"] (Some (pic "a"))) (demo_world "valid")
        = (Resolved s', w') /\
      images s' = images (demo_home [pic "a"; pic "b"] (Some (pic "a"))) /\
      isDeleteModalOpen s' = false /\
      selectedImage s' = None /\
      toasts w'
        = toasts w1 ++ [error_toast e;
                        Some "An error occurred while deleting the image"].
Proof.
  eexists _, _.
  refine ((fun H => conj (conj eq_refl H)
             (failed_delete_keeps_image (demo_env srv_down)
                (demo_home [pic "a"; pic "b"] (Some (pic "a")))
                (pic "a") (demo_world "valid") _ _ eq_refl H)) _).
  reflexivity.
Defined.

(** X18.  Replacing an image after an edit keeps the gallery in
    shape: the identifiers of the images and their positions are what
    they were, an image with another identifier is untouched, and the
    edit dialog is closed with the selection cleared. *)
Theorem handleImageUpdate_keeps_identifiers (updatedImage : IImage)
    (s : Home) :
  img_id <$> images (handleImageUpdate updatedImage s)
    = img_id <$> images s /\
  (forall k img, images s !! k = Some img ->
     img_id img <> img_id updatedImage ->
     images (handleImageUpdate updatedImage s) !! k = Some img) /\
  (forall k img, images s !! k = Some img ->
     img_id img = img_id updatedImage ->
     images (handleImageUpdate updatedImage s) !! k = Some updatedImage) /\
  isEditModalOpen (handleImageUpdate updatedImage s) = false /\
  selectedImage (handleImageUpdate updatedImage s) = None.
Proof.
  unfold handleImageUpdate. cbn [images isEditModalOpen selectedImage].
  repeat split.
  - induction (images s) as [|a l IH]; [reflexivity|].
    rewrite !fmap_cons, IH. f_equal.
    destruct (String.eqb_spec (img_id a) (img_id updatedImage)); congruence.
  - intros k img H Hd. rewrite list_lookup_fmap, H. simpl.
    apply String.eqb_neq in Hd. now rewrite Hd.
  - intros k img H Hd. rewrite list_lookup_fmap, H. simpl.
    apply String.eqb_eq in Hd. now rewrite Hd.
Qed.


(** ** The upload dialog: choosing files *)

Section ArraySetFacts.

Context {A : Type}.

Lemma array_set_lookup (i : nat) (v : A) a :
  array_set i v a !! i = Some (Some v).
Proof.
  unfold array_set. destruct (Nat.ltb_spec i (length a)).
  - now apply list_lookup_insert_eq.
  - rewrite lookup_app_r by lia.
    rewrite lookup_app_r by (rewrite length_replicate; lia).
    rewrite length_replicate, Nat.sub_diag. reflexivity.
Qed.

(** Writing at [i] leaves what is read at another index. *)
Lemma array_set_lookup_ne (i k : nat) (v : A) a :
  k <> i -> mjoin (array_set i v a !! k) = mjoin (a !! k).
Proof.
  intros Hk. unfold array_set. destruct (Nat.ltb_spec i (length a)).
  - now rewrite list_lookup_insert_ne.
  - destruct (Nat.lt_ge_cases k (length a)).
    + now rewrite lookup_app_l.
    + rewrite (lookup_ge_None_2 a k) by lia.
      rewrite lookup_app_r by lia.
      destruct (Nat.lt_ge_cases k i).
      * rewrite lookup_app_l by (rewrite length_replicate; lia).
        rewrite lookup_replicate_2 by lia. reflexivity.
      * rewrite lookup_ge_None_2; [reflexivity|].
        rewrite length_app, length_replicate. simpl. lia.
Qed.

Lemma array_set_some (p : option A -> bool) (i : nat) (v : A) a :
  p (Some v) = true -> existsb p (array_set i v a) = true.
Proof.
  intros Hp. apply existsb_exists. exists (Some v). split; [|exact Hp].
  apply list_elem_of_In, (list_elem_of_lookup_2 _ i), array_set_lookup.
Qed.

End ArraySetFacts.

Section UploadFacts.

Import UploadModal.

Lemma allowed_type_In t :
  existsb (String.eqb t) ALLOWED_TYPES = true <-> In t ALLOWED_TYPES.
Proof.
  rewrite existsb_exists. split.
  - intros (x & Hx & He). apply String.eqb_eq in He. now subst.
  - intros H. exists t. split; [exact H|apply String.eqb_refl].
Qed.

Lemma validateFile_None f :
  validateFile f = None <-> acceptable_file f.
Proof.
  unfold validateFile, acceptable_file.
  destruct (existsb (String.eqb (file_type f)) ALLOWED_TYPES) eqn:Ht; simpl.
  - apply allowed_type_In in Ht.
    destruct (N.ltb_spec MAX_FILE_SIZE (file_size f)).
    + split; [discriminate|]. intros [_ ?]. lia.
    + destruct (N.eqb_spec (file_size f) 0).
      * split; [discriminate|]. intros [_ ?]. lia.
      * split; [|reflexivity]. intros _. split; [exact Ht|lia].
  - split; [discriminate|]. intros [Hin _].
    apply allowed_type_In in Hin. congruence.
Qed.

Lemma validateFile_truthy f e :
  validateFile f = Some e -> truthy (Some e) = true.
Proof.
  unfold validateFile.
  destruct (negb _); [intros [= <-]; reflexivity|].
  destruct (_ <? _)%N; [intros [= <-]; reflexivity|].
  destruct (_ =? _)%N; [intros [= <-]; reflexivity|discriminate].
Qed.

Lemma scan_file_valid i f acc :
  validateFile f = None ->
  scan_file i f acc
    = mkScan (validFiles acc ++ [f]) (fileErrors acc)
             (fileSizeErrors acc) (fileTypeErrors acc).
Proof. intros H. unfold scan_file. now rewrite H. Qed.

(** What one turn of the loop does with a file that fails. *)
Lemma scan_file_invalid i f acc e :
  validateFile f = Some e ->
  validFiles (scan_file i f acc) = validFiles acc /\
  fileErrors (scan_file i f acc) = array_set i e (fileErrors acc) /\
  ((~ In (file_type f) ALLOWED_TYPES /\
    fileTypeErrors (scan_file i f acc)
      = array_set i e (fileTypeErrors acc) /\
    fileSizeErrors (scan_file i f acc) = fileSizeErrors acc) \/
   (In (file_type f) ALLOWED_TYPES /\
    fileSizeErrors (scan_file i f acc)
      = array_set i e (fileSizeErrors acc) /\
    fileTypeErrors (scan_file i f acc) = fileTypeErrors acc)).
Proof.
  intros H. unfold scan_file. rewrite H.
  rewrite (validateFile_truthy f e H).
  revert H. unfold validateFile.
  destruct (existsb (String.eqb (file_type f)) ALLOWED_TYPES) eqn:Ht; cbn [negb].
  - apply allowed_type_In in Ht.
    destruct (_ <? _)%N; [|destruct (_ =? _)%N; [|discriminate]];
      intros [= <-]; (split; [reflexivity|]); (split; [reflexivity|]);
      right; now repeat split.
  - intros [= <-]. split; [reflexivity|]. split; [reflexivity|].
    left. split; [|split; reflexivity].
    rewrite <- allowed_type_In. congruence.
Qed.

Lemma scan_validFiles l : forall i acc,
  Forall acceptable_file (validFiles acc) ->
  Forall acceptable_file (validFiles (scan i l acc)) /\
  (length (validFiles (scan i l acc))
     <= length (validFiles acc) + length l)%nat.
Proof.
  induction l as [|f l IH]; intros i acc Hacc; simpl.
  - split; [exact Hacc|lia].
  - destruct (validateFile f) as [e|] eqn:Hv.
    + destruct (scan_file_invalid i f acc e Hv) as (Hvf & _).
      destruct (IH (S i) (scan_file i f acc)) as [H1 H2].
      * now rewrite Hvf.
      * split; [exact H1|]. rewrite Hvf in H2. lia.
    + rewrite (scan_file_valid i f acc Hv).
      destruct (IH (S i) (mkScan (validFiles acc ++ [f]) (fileErrors acc)
                                 (fileSizeErrors acc) (fileTypeErrors acc)))
        as [H1 H2].
      * simpl. apply Forall_app. split; [exact Hacc|].
        apply Forall_singleton. now apply validateFile_None.
      * split; [exact H1|]. simpl in H2. rewrite length_app in H2.
        simpl in H2. lia.
Qed.

Lemma total_size_bound l : forall a,
  Forall acceptable_file l ->
  (fold_left (fun sum file => sum + file_size file) l a
     <= a + N.of_nat (length l) * MAX_FILE_SIZE)%N.
Proof.
  induction l as [|f l IH]; intros a Hl; simpl fold_left.
  - simpl. lia.
  - apply Forall_cons in Hl as [[_ Hf] Hl].
    specialize (IH (a + file_size f)%N Hl).
    rewrite length_cons, Nat2N.inj_succ. lia.
Qed.

Lemma validateTotalSize_scan l :
  (length l <= MAX_IMAGES)%nat ->
  validateTotalSize (validFiles (scan 0 l (mkScan [] [] [] []))) = true.
Proof.
  intros Hlen.
  destruct (scan_validFiles l 0 (mkScan [] [] [] [])) as [Hv Hn];
    [constructor|].
  simpl in Hn. unfold validateTotalSize. apply N.leb_le.
  etransitivity; [apply total_size_bound, Hv|].
  unfold MAX_IMAGES in Hlen. unfold MAX_FILE_SIZE, MAX_TOTAL_SIZE. lia.
Qed.

Lemma scan_all_valid l : forall i acc,
  Forall acceptable_file l ->
  fileErrors (scan i l acc) = fileErrors acc.
Proof.
  induction l as [|f l IH]; intros i acc Hl; simpl; [reflexivity|].
  apply Forall_cons in Hl as [Hf Hl]. apply validateFile_None in Hf.
  rewrite (scan_file_valid i f acc Hf), IH by exact Hl. reflexivity.
Qed.

Lemma scan_keeps_flag l : forall i acc,
  existsb truthy (fileErrors acc) = true ->
  existsb truthy (fileErrors (scan i l acc)) = true.
Proof.
  induction l as [|f l IH]; intros i acc Hacc; simpl; [exact Hacc|].
  apply IH. destruct (validateFile f) as [e|] eqn:Hv.
  - destruct (scan_file_invalid i f acc e Hv) as (_ & -> & _).
    apply array_set_some. now apply (validateFile_truthy f).
  - now rewrite (scan_file_valid i f acc Hv).
Qed.

Lemma scan_flags_invalid l : forall i acc,
  ~ Forall acceptable_file l ->
  existsb truthy (fileErrors (scan i l acc)) = true.
Proof.
  induction l as [|f l IH]; intros i acc Hl; simpl.
  - destruct Hl. constructor.
  - destruct (validateFile f) as [e|] eqn:Hv.
    + apply scan_keeps_flag.
      destruct (scan_file_invalid i f acc e Hv) as (_ & -> & _).
      apply array_set_some. now apply (validateFile_truthy f).
    + apply IH. intros Hl'. apply Hl. constructor; [|exact Hl'].
      now apply validateFile_None.
Qed.

Lemma all_previews_Some cp l :
  Forall (fun f => is_Some (cp f)) l ->
  exists ps, all_previews cp l = Some ps /\
    forall i, imageObjects [] i l ps
              = (fun f => mkImageFile (Some f) "" None (cp f)) <$> l.
Proof.
  induction l as [|f l IH]; intros Hl.
  - exists []. split; reflexivity.
  - apply Forall_cons in Hl as [[p Hp] Hl].
    destruct (IH Hl) as (ps & Hps & Him).
    exists (p :: ps). simpl. rewrite Hp, Hps. split; [reflexivity|].
    intros i. now rewrite Him.
Qed.

Lemma all_previews_None cp l :
  all_previews cp l = None -> ~ Forall (fun f => is_Some (cp f)) l.
Proof.
  intros H Hl. destruct (all_previews_Some cp l Hl) as (ps & Hps & _).
  congruence.
Qed.

End UploadFacts.


Section UploadIndexFacts.

Import UploadModal.

(** Later turns of the loop leave what was written at earlier
    indices. *)
Lemma scan_preserves l : forall i acc j,
  (j < i)%nat ->
  mjoin (fileTypeErrors (scan i l acc) !! j)
    = mjoin (fileTypeErrors acc !! j) /\
  mjoin (fileSizeErrors (scan i l acc) !! j)
    = mjoin (fileSizeErrors acc !! j).
Proof.
  induction l as [|f l IH]; intros i acc j Hj; simpl; [now split|].
  destruct (IH (S i) (scan_file i f acc) j ltac:(lia)) as [-> ->].
  destruct (validateFile f) as [e|] eqn:Hv.
  - destruct (scan_file_invalid i f acc e Hv)
      as (_ & _ & [(_ & -> & ->)|(_ & -> & ->)]);
      rewrite array_set_lookup_ne by lia; now split.
  - rewrite (scan_file_valid i f acc Hv). now split.
Qed.

Lemma scan_reports l : forall i acc k f e,
  l !! k = Some f ->
  validateFile f = Some e ->
  (~ In (file_type f) ALLOWED_TYPES ->
   mjoin (fileTypeErrors (scan i l acc) !! (i + k)%nat) = Some e) /\
  (In (file_type f) ALLOWED_TYPES ->
   mjoin (fileSizeErrors (scan i l acc) !! (i + k)%nat) = Some e).
Proof.
  induction l as [|g l IH]; intros i acc k f e Hk Hv; [discriminate|].
  destruct k as [|k]; simpl in Hk.
  - injection Hk as ->. simpl. rewrite Nat.add_0_r.
    destruct (scan_preserves l (S i) (scan_file i f acc) i ltac:(lia))
      as [-> ->].
    destruct (scan_file_invalid i f acc e Hv)
      as (_ & _ & [(Hn & -> & _)|(Hy & -> & _)]);
      rewrite array_set_lookup; split; intros; simpl;
      first [reflexivity|contradiction].
  - simpl. replace (i + S k)%nat with (S i + k)%nat by lia.
    now apply IH.
Qed.

End UploadIndexFacts.

(** X19.  The limit on the total size can never apply: at most
    [MAX_IMAGES] files reach the check, each one that counts is at most
    [MAX_FILE_SIZE], and ten times that is the limit itself.  So
    [validateTotalSize] answers [true] on every selection the dialog
    lets through to it, and no selection whatever makes the dialog set
    the message about the total size. *)
Theorem total_size_limit_never_applies
    (createPreview : UploadModal.File -> option string)
    (selectedFiles : list UploadModal.File) (s : UploadModal.State) :
  implb (length selectedFiles <=? UploadModal.MAX_IMAGES)%nat
        (UploadModal.validateTotalSize
           (UploadModal.validFiles
              (UploadModal.scan 0 selectedFiles
                 (UploadModal.mkScan [] [] [] [])))) = true /\
  UploadModal.general
    (UploadModal.errors
       (UploadModal.handleFileChange createPreview selectedFiles s))
    <> Some "Total file size exceeds limit of 50 MB".
Proof.
  split.
  - destruct (Nat.leb_spec (length selectedFiles) UploadModal.MAX_IMAGES);
      [|reflexivity].
    simpl. now apply validateTotalSize_scan.
  - unfold UploadModal.handleFileChange.
    destruct (length selectedFiles =? 0)%nat; [discriminate|].
    destruct (Nat.ltb_spec UploadModal.MAX_IMAGES (length selectedFiles));
      [discriminate|].
    rewrite validateTotalSize_scan by assumption.
    rewrite andb_false_r.
    destruct (existsb truthy _ || truthy None); [discriminate|].
    destruct (UploadModal.all_previews _ _); discriminate.
Qed.

(** X20.  A selection is taken whole or not at all.  When it has one
    to [MAX_IMAGES] files, each of an allowed type and of 1 byte to
    [MAX_FILE_SIZE], and every preview can be read, the dialog shows
    exactly these files, in their order, each with an empty title, its
    preview and no error, and clears the errors.  An empty selection
    empties the dialog.  In every other case, one bad file among good
    ones included, the images of the dialog stay as they were and an
    error is set. *)
Theorem selection_taken_whole_or_not_at_all
    (createPreview : UploadModal.File -> option string)
    (selectedFiles : list UploadModal.File) (s : UploadModal.State) :
  (selectedFiles = [] /\
   UploadModal.images
     (UploadModal.handleFileChange createPreview selectedFiles s) = [] /\
   UploadModal.errors
     (UploadModal.handleFileChange createPreview selectedFiles s)
     = UploadModal.no_errors) \/
  (UploadModal.acceptable createPreview selectedFiles /\
   UploadModal.images
     (UploadModal.handleFileChange createPreview selectedFiles s)
     = (fun f => UploadModal.mkImageFile (Some f) "" None (createPreview f))
         <$> selectedFiles /\
   UploadModal.errors
     (UploadModal.handleFileChange createPreview selectedFiles s)
     = UploadModal.no_errors) \/
  (selectedFiles <> [] /\
   ~ UploadModal.acceptable createPreview selectedFiles /\
   UploadModal.images
     (UploadModal.handleFileChange createPreview selectedFiles s)
     = UploadModal.images s /\
   UploadModal.errors
     (UploadModal.handleFileChange createPreview selectedFiles s)
     <> UploadModal.no_errors).
Proof.
  unfold UploadModal.handleFileChange.
  destruct (Nat.eqb_spec (length selectedFiles) 0) as [H0|H0].
  { left. destruct selectedFiles; [now repeat split|discriminate]. }
  right.
  assert (Hne : selectedFiles <> []) by (intros ->; now apply H0).
  destruct (Nat.ltb_spec UploadModal.MAX_IMAGES (length selectedFiles))
    as [Hmax|Hmax].
  { right. split; [exact Hne|].
    split; [|split; [reflexivity|discriminate]].
    intros [[_ ?] _]. lia. }
  rewrite validateTotalSize_scan by assumption.
  rewrite andb_false_r, orb_false_r.
  destruct (decide (Forall (fun f => UploadModal.validateFile f = None)
                           selectedFiles)) as [Hall|Hsome].
  - assert (Hacc : Forall UploadModal.acceptable_file selectedFiles).
    { eapply Forall_impl; [exact Hall|].
      intros f. apply validateFile_None. }
    rewrite scan_all_valid by exact Hacc. simpl existsb. cbv iota.
    destruct (UploadModal.all_previews createPreview selectedFiles)
      as [ps|] eqn:Hps.
    + assert (Hcp : Forall (fun f => is_Some (createPreview f))
                           selectedFiles).
      { destruct (decide (Forall (fun f => is_Some (createPreview f))
                                 selectedFiles)) as [Hy|Hn]; [exact Hy|].
        exfalso. revert Hps Hn. clear.
        induction selectedFiles as [|f l IH] in ps |- *; intros Hps Hn.
        - apply Hn. constructor.
        - simpl in Hps. destruct (createPreview f) as [p|] eqn:Hp;
            [|discriminate].
          destruct (UploadModal.all_previews createPreview l) as [ps'|]
            eqn:Hps'; [|discriminate].
          apply (IH ps' eq_refl). intros Hl. apply Hn.
          constructor; [rewrite Hp; eauto|exact Hl]. }
      destruct (all_previews_Some createPreview selectedFiles Hcp)
        as (ps' & Hps' & Him).
      rewrite Hps in Hps'. injection Hps' as <-.
      left. split; [|split; [apply Him|reflexivity]].
      split; [|split; assumption]. destruct selectedFiles; simpl in *;
        [congruence|lia].
    + right. split; [exact Hne|].
    split; [|split; [reflexivity|discriminate]].
      intros (_ & _ & Hcp). now apply (all_previews_None _ _ Hps).
  - assert (Hnacc : ~ Forall UploadModal.acceptable_file selectedFiles).
    { intros Hacc. apply Hsome. eapply Forall_impl; [exact Hacc|].
      intros f. apply validateFile_None. }
    rewrite scan_flags_invalid by exact Hnacc.
    right. split; [exact Hne|].
    split; [|split; [reflexivity|discriminate]].
    intros (_ & Hacc & _). now apply Hnacc.
Qed.

(** X21.  A file the dialog refuses is reported at its own position:
    its message stands at the file's index in the array of type
    errors when the type is not allowed, and in the array of size
    errors otherwise; the selection is dropped from the input and the
    images of the dialog stay as they were. *)
Theorem refused_file_reported_at_its_index
    (createPreview : UploadModal.File -> option string)
    (selectedFiles : list UploadModal.File) (s : UploadModal.State)
    (i : nat) (f : UploadModal.File) :
  (length selectedFiles <= UploadModal.MAX_IMAGES)%nat ->
  selectedFiles !! i = Some f ->
  ~ UploadModal.acceptable_file f ->
  UploadModal.images
    (UploadModal.handleFileChange createPreview selectedFiles s)
    = UploadModal.images s /\
  UploadModal.input_value
    (UploadModal.handleFileChange createPreview selectedFiles s) = "" /\
  exists e a,
    UploadModal.validateFile f = Some e /\
    mjoin (a !! i) = Some e /\
    ((~ In (UploadModal.file_type f) UploadModal.ALLOWED_TYPES /\
      UploadModal.fileType
        (UploadModal.errors
           (UploadModal.handleFileChange createPreview selectedFiles s))
        = Some a) \/
     (In (UploadModal.file_type f) UploadModal.ALLOWED_TYPES /\
      UploadModal.fileSize
        (UploadModal.errors
           (UploadModal.handleFileChange createPreview selectedFiles s))
        = Some a)).
Proof.
  intros Hmax Hi Hf.
  unfold UploadModal.handleFileChange.
  destruct (Nat.eqb_spec (length selectedFiles) 0) as [H0|_].
  { destruct selectedFiles; [discriminate|discriminate]. }
  destruct (Nat.ltb_spec UploadModal.MAX_IMAGES (length selectedFiles));
    [lia|].
  rewrite scan_flags_invalid.
  2: { intros Hall. rewrite Forall_lookup in Hall. exact (Hf (Hall i f Hi)). }
  simpl. split; [reflexivity|]. split; [reflexivity|].
  destruct (UploadModal.validateFile f) as [e|] eqn:Hv.
  2: { exfalso. now apply Hf, validateFile_None. }
  destruct (scan_reports selectedFiles 0 (UploadModal.mkScan [] [] [] [])
                         i f e Hi Hv) as [Ht Hs].
  simpl in Ht, Hs.
  destruct (in_dec string_dec (UploadModal.file_type f)
                   UploadModal.ALLOWED_TYPES) as [Hy|Hn].
  - eexists e, _. split; [reflexivity|]. split; [exact (Hs Hy)|].
    right. split; [exact Hy|reflexivity].
  - eexists e, _. split; [reflexivity|]. split; [exact (Ht Hn)|].
    left. split; [exact Hn|reflexivity].
Qed.


Lemma refused_file_reported_at_its_index_witness :
  ((length [demo_png; demo_pdf] <= UploadModal.MAX_IMAGES)%nat /\
   [demo_png; demo_pdf] !! 1%nat = Some demo_pdf /\
   ~ UploadModal.acceptable_file demo_pdf) /\
  (UploadModal.images
     (UploadModal.handleFileChange demo_preview [demo_png; demo_pdf]
                                   demo_dialog)
     = UploadModal.images demo_dialog /\
   UploadModal.input_value
     (UploadModal.handleFileChange demo_preview [demo_png; demo_pdf]
                                   demo_dialog) = "" /\
   exists e a,
     UploadModal.validateFile demo_pdf = Some e /\
     mjoin (a !! 1%nat) = Some e /\
     ((~ In (UploadModal.file_type demo_pdf) UploadModal.ALLOWED_TYPES /\
       UploadModal.fileType
         (UploadModal.errors
            (UploadModal.handleFileChange demo_preview
               [demo_png; demo_pdf] demo_dialog))
         = Some a) \/
      (In (UploadModal.file_type demo_pdf) UploadModal.ALLOWED_TYPES /\
       UploadModal.fileSize
         (UploadModal.errors
            (UploadModal.handleFileChange demo_preview
               [demo_png; demo_pdf] demo_dialog))
         = Some a))).
Proof.
  assert (Hbad : ~ UploadModal.acceptable_file demo_pdf).
  { intros [H _]. simpl in H.
    repeat (destruct H as [H|H]; [discriminate|]). exact H. }
  assert (Hlen : (length [demo_png; demo_pdf] <= UploadModal.MAX_IMAGES)%nat)
    by (unfold UploadModal.MAX_IMAGES; simpl; lia).
  split; [split; [exact Hlen|split; [reflexivity|exact Hbad]]|].
  exact (refused_file_reported_at_its_index demo_preview
           [demo_png; demo_pdf] demo_dialog 1 demo_pdf
           Hlen eq_refl Hbad).
Defined.


(** ** The form schemas *)

Section RegexFacts.

Import Forms.

Lemma at_least_In p s : forall n rest,
  In rest (at_least p s n) <->
  exists m, s = m ++ rest /\ (n <= length m)%nat /\
            Forall (fun c => p c = true) m.
Proof.
  induction s as [|c s IH]; intros n rest.
  - destruct n; simpl; split.
    + intros [<-|[]]. exists []. repeat split; auto.
    + intros (m & Hm & _). symmetry in Hm.
      apply app_eq_nil in Hm as [_ ->]. now left.
    + intros [].
    + intros (m & Hm & Hn & _). symmetry in Hm.
      apply app_eq_nil in Hm as [-> _]. simpl in Hn. lia.
  - cbn [at_least]. rewrite in_app_iff. split.
    + intros [H|H].
      * destruct (p c) eqn:Hp; [|destruct H].
        apply IH in H as (m & -> & Hn & Hm).
        exists (c :: m). repeat split; [simpl; lia|now constructor].
      * destruct n; [|destruct H]. destruct H as [<-|[]].
        exists []. repeat split; auto.
    + intros (m & Hs & Hn & Hm). destruct m as [|c' m].
      * right. simpl in Hs, Hn. subst rest.
        destruct n; [now left|lia].
      * left. injection Hs as <- ->.
        apply Forall_cons in Hm as [-> Hm]. apply IH.
        exists m. repeat split; [simpl in Hn; lia|exact Hm].
Qed.

Lemma run_Cat r1 r2 s rest :
  In rest (run (Cat r1 r2) s) <->
  exists mid, In mid (run r1 s) /\ In rest (run r2 mid).
Proof. simpl. apply in_flat_map. Qed.

Lemma run_Chr p s rest :
  In rest (run (Chr p) s) <-> exists c, s = c :: rest /\ p c = true.
Proof.
  simpl. destruct s as [|c s]; [split; [intros []|intros (c & H & _);
                                                   discriminate]|].
  destruct (p c) eqn:Hp; simpl; split.
  - intros [<-|[]]. eauto.
  - intros (c' & [= <- <-] & _). now left.
  - intros [].
  - intros (c' & [= <- <-] & H). congruence.
Qed.

Lemma run_Eos s rest : In rest (run Eos s) <-> s = [] /\ rest = [].
Proof.
  simpl. destruct s; simpl; split.
  - intros [<-|[]]. now split.
  - intros [_ ->]. now left.
  - intros [].
  - intros [H _]. discriminate.
Qed.

Lemma run_Ahead r s rest :
  In rest (run (Ahead r) s) <-> rest = s /\ exists x, In x (run r s).
Proof.
  simpl. destruct (run r s) as [|x l]; simpl; split.
  - intros [].
  - intros [_ (x & [])].
  - intros [<-|[]]. split; [reflexivity|eauto].
  - intros [-> _]. now left.
Qed.

Lemma run_Maybe r s rest :
  In rest (run (Maybe r) s) <-> In rest (run r s) \/ rest = s.
Proof.
  simpl. rewrite in_app_iff. simpl. split.
  - intros [H|[<-|[]]]; [now left|now right].
  - intros [H| ->]; [now left|right; now left].
Qed.

Lemma test_true r s :
  test r s = true <-> exists rest, In rest (run r s).
Proof.
  unfold test. destruct (run r s) as [|x l]; split.
  - discriminate.
  - intros (x & []).
  - intros _. exists x. now left.
  - reflexivity.
Qed.

(** What [(?=.*p)] asks of the string ahead. *)
Lemma look_ahead p s :
  (exists x, In x (run (Cat (AtLeast 0 re_dot) (Chr p)) s)) <->
  exists m c t, s = m ++ c :: t /\
                Forall (fun c => re_dot c = true) m /\ p c = true.
Proof.
  split.
  - intros (x & H). apply run_Cat in H as (mid & H1 & H2).
    simpl in H1. apply at_least_In in H1 as (m & -> & _ & Hm).
    apply run_Chr in H2 as (c & -> & Hc). eauto 6.
  - intros (m & c & t & -> & Hm & Hc). exists t.
    apply run_Cat. exists (c :: t). split.
    + simpl. apply at_least_In. exists m. repeat split; [lia|exact Hm].
    + apply run_Chr. eauto.
Qed.

Lemma emailRegex_spec s :
  test emailRegex s = true <->
  exists a b c,
    s = a ++ cu "@" :: b ++ cu "." :: c /\
    a <> [] /\ b <> [] /\ c <> [] /\
    Forall (fun x => re_plain x = true) (a ++ b ++ c).
Proof.
  rewrite test_true. unfold emailRegex. split.
  - intros (rest & H).
    apply run_Cat in H as (m1 & H1 & H).
    apply run_Cat in H as (m2 & H2 & H).
    apply run_Cat in H as (m3 & H3 & H).
    apply run_Cat in H as (m4 & H4 & H).
    apply run_Cat in H as (m5 & H5 & H).
    simpl in H1, H3, H5.
    apply at_least_In in H1 as (a & -> & Ha & Hpa).
    apply run_Chr in H2 as (x & -> & Hx). apply N.eqb_eq in Hx as <-.
    apply at_least_In in H3 as (b & -> & Hb & Hpb).
    apply run_Chr in H4 as (y & -> & Hy). apply N.eqb_eq in Hy as <-.
    apply at_least_In in H5 as (c & -> & Hc & Hpc).
    apply run_Eos in H as [-> ->].
    exists a, b, c. rewrite app_nil_r.
    repeat split;
      try (intros ->; simpl in *; lia).
    rewrite !Forall_app. auto.
  - intros (a & b & c & -> & Ha & Hb & Hc & Hp).
    rewrite !Forall_app in Hp. destruct Hp as (Hpa & Hpb & Hpc).
    exists [].
    apply run_Cat. exists (cu "@" :: b ++ cu "." :: c). split.
    { simpl. apply at_least_In. exists a.
      repeat split; [destruct a; simpl; [congruence|lia]|exact Hpa]. }
    apply run_Cat. exists (b ++ cu "." :: c). split.
    { apply run_Chr. exists (cu "@"). split; [reflexivity|].
      apply N.eqb_refl. }
    apply run_Cat. exists (cu "." :: c). split.
    { simpl. apply at_least_In. exists b.
      repeat split; [destruct b; simpl; [congruence|lia]|exact Hpb]. }
    apply run_Cat. exists c. split.
    { apply run_Chr. exists (cu "."). split; [reflexivity|].
      apply N.eqb_refl. }
    apply run_Cat. exists []. split.
    { simpl. apply at_least_In. exists c. rewrite app_nil_r.
      repeat split; [destruct c; simpl; [congruence|lia]|exact Hpc]. }
    now apply run_Eos.
Qed.

Lemma phoneRegex_spec s :
  test phoneRegex s = true <->
  exists body,
    (s = body \/ s = cu "+" :: body) /\
    (10 <= length body)%nat /\
    Forall (fun x => re_phone x = true) body.
Proof.
  rewrite test_true. unfold phoneRegex. split.
  - intros (rest & H).
    apply run_Cat in H as (m1 & H1 & H).
    apply run_Cat in H as (m2 & H2 & H).
    simpl in H2. apply at_least_In in H2 as (body & -> & Hn & Hp).
    apply run_Eos in H as [-> ->]. rewrite app_nil_r in H1.
    exists body. split; [|now split].
    apply run_Maybe in H1 as [H1| ->]; [|now left].
    apply run_Chr in H1 as (c & -> & Hc). apply N.eqb_eq in Hc as <-.
    now right.
  - intros (body & Hs & Hn & Hp). exists [].
    apply run_Cat. exists body. split.
    + apply run_Maybe. destruct Hs as [->| ->]; [now right|left].
      apply run_Chr. exists (cu "+"). split; [reflexivity|].
      apply N.eqb_refl.
    + apply run_Cat. exists []. split; [|now apply run_Eos].
      simpl. apply at_least_In. exists body. rewrite app_nil_r.
      now repeat split.
Qed.

Lemma re_password_dot c : re_password c = true -> re_dot c = true.
Proof.
  intros H. unfold re_dot.
  destruct (N.eqb_spec c 10) as [->|_]; [discriminate|].
  destruct (N.eqb_spec c 13) as [->|_]; [discriminate|].
  destruct (N.eqb_spec c 8232) as [->|_]; [discriminate|].
  destruct (N.eqb_spec c 8233) as [->|_]; [discriminate|].
  reflexivity.
Qed.

Lemma look_ahead_Exists p s :
  Forall (fun c => re_password c = true) s ->
  (exists x, In x (run (Cat (AtLeast 0 re_dot) (Chr p)) s)) <->
  Exists (fun c => p c = true) s.
Proof.
  intros Hs. rewrite look_ahead. split.
  - intros (m & c & t & -> & _ & Hc).
    apply Exists_app. right. now constructor.
  - intros H. apply List.Exists_exists in H as (c & Hin & Hc).
    apply in_split in Hin as (m & t & ->).
    exists m, c, t. repeat split; [|exact Hc].
    apply Forall_app in Hs as [Hm _].
    eapply Forall_impl; [exact Hm|]. apply re_password_dot.
Qed.

Lemma passwordStrengthRegex_spec s :
  test passwordStrengthRegex s = true <->
  (8 <= length s)%nat /\
  Forall (fun c => re_password c = true) s /\
  Exists (fun c => re_lower c = true) s /\
  Exists (fun c => re_upper c = true) s /\
  Exists (fun c => re_digit c = true) s /\
  Exists (fun c => re_special c = true) s.
Proof.
  rewrite test_true. unfold passwordStrengthRegex. split.
  - intros (rest & H).
    apply run_Cat in H as (m1 & H1 & H). apply run_Ahead in H1 as [-> H1].
    apply run_Cat in H as (m2 & H2 & H). apply run_Ahead in H2 as [-> H2].
    apply run_Cat in H as (m3 & H3 & H). apply run_Ahead in H3 as [-> H3].
    apply run_Cat in H as (m4 & H4 & H). apply run_Ahead in H4 as [-> H4].
    apply run_Cat in H as (m5 & H5 & H).
    simpl in H5. apply at_least_In in H5 as (m & -> & Hn & Hp).
    apply run_Eos in H as [-> ->]. rewrite app_nil_r in *.
    split; [exact Hn|]. split; [exact Hp|].
    apply (look_ahead_Exists _ m Hp) in H1, H2, H3, H4. auto.
  - intros (Hn & Hp & Hl & Hu & Hd & Hx).
    apply (look_ahead_Exists _ s Hp) in Hl, Hu, Hd, Hx.
    exists [].
    apply run_Cat. exists s. split; [now apply run_Ahead|].
    apply run_Cat. exists s. split; [now apply run_Ahead|].
    apply run_Cat. exists s. split; [now apply run_Ahead|].
    apply run_Cat. exists s. split; [now apply run_Ahead|].
    apply run_Cat. exists []. split; [|now apply run_Eos].
    simpl. apply at_least_In. exists s. rewrite app_nil_r.
    now repeat split.
Qed.

End RegexFacts.


Section SchemaFacts.

Import Forms.

Lemma trim_fixed s x t u z :
  s = x :: t -> re_space x = false ->
  s = u ++ [z] -> re_space z = false ->
  trim s = s.
Proof.
  intros Hs Hx Hu Hz. unfold trim.
  assert (H1 : trimStart s = s) by (rewrite Hs; simpl; now rewrite Hx).
  rewrite H1.
  assert (H2 : trimStart (rev s) = rev s).
  { rewrite Hu, rev_app_distr. simpl. now rewrite Hz. }
  rewrite H2. apply rev_involutive.
Qed.

Lemma re_plain_not_space c : re_plain c = true -> re_space c = false.
Proof.
  unfold re_plain. intros H. apply negb_true_iff, orb_false_iff in H.
  tauto.
Qed.

(** An address the regular expression takes has no blank at
    either end. *)
Lemma emailRegex_trim s : test emailRegex s = true -> trim s = s.
Proof.
  intros H. apply emailRegex_spec in H
    as (a & b & c & -> & Ha & Hb & Hc & Hp).
  rewrite !Forall_app in Hp. destruct Hp as (Hpa & _ & Hpc).
  destruct a as [|x a]; [congruence|].
  destruct c as [|z c _] using rev_ind; [congruence|].
  apply Forall_cons in Hpa as [Hx _].
  rewrite Forall_app, Forall_singleton in Hpc. destruct Hpc as [_ Hz].
  eapply (trim_fixed _ x _ ((x :: a) ++ cu "@" :: b ++ cu "." :: c) z).
  - reflexivity.
  - now apply re_plain_not_space.
  - repeat (rewrite <- app_assoc; cbn [app]). reflexivity.
  - now apply re_plain_not_space.
Qed.

Lemma emailRegex_nonempty s : test emailRegex s = true -> s <> [].
Proof.
  intros H. apply emailRegex_spec in H as (a & b & c & -> & Ha & _).
  destruct a; [congruence|discriminate].
Qed.

Lemma phoneRegex_length s :
  test phoneRegex s = true -> (10 <= length s)%nat.
Proof.
  intros H. apply phoneRegex_spec in H as (body & [->| ->] & Hn & _);
    simpl; lia.
Qed.

Lemma passwordStrengthRegex_length s :
  test passwordStrengthRegex s = true -> (8 <= length s)%nat.
Proof. intros H. now apply passwordStrengthRegex_spec in H. Qed.

Lemma nonempty_length (s : list N) : s <> [] -> (1 <= length s)%nat.
Proof. destruct s; simpl; [congruence|lia]. Qed.

End SchemaFacts.

(** X22.  The password the schemas take: [passwordStrengthRegex]
    accepts a string exactly when it has at least 8 code units, every
    one of them a Latin letter, a digit or one of [@$!%*?#&^], and among
    them a lower-case letter, an upper-case letter, a digit and one of
    the nine signs. *)
Theorem passwordStrengthRegex_accepts (s : list N) :
  Forms.test Forms.passwordStrengthRegex s = true <->
  (8 <= length s)%nat /\
  Forall (fun c => Forms.re_password c = true) s /\
  Exists (fun c => Forms.re_lower c = true) s /\
  Exists (fun c => Forms.re_upper c = true) s /\
  Exists (fun c => Forms.re_digit c = true) s /\
  Exists (fun c => Forms.re_special c = true) s.
Proof. exact (passwordStrengthRegex_spec s). Qed.

(** X23.  The phone number the sign-up schema takes: [phoneRegex]
    accepts a string exactly when it is an optional [+] followed by at
    least 10 code units, each a digit, a white-space character or a
    hyphen.  Nothing asks for a digit among them. *)
Theorem phoneRegex_accepts (s : list N) :
  Forms.test Forms.phoneRegex s = true <->
  exists body,
    (s = body \/ s = Forms.cu "+" :: body) /\
    (10 <= length body)%nat /\
    Forall (fun x => Forms.re_phone x = true) body.
Proof. exact (phoneRegex_spec s). Qed.

(** X24.  The address the schemas take: [emailRegex] accepts a string
    exactly when it splits into a local part, [@], and a domain that
    splits into two parts around a dot, the three parts non-empty and
    free of white space and of [@]. *)
Theorem emailRegex_accepts (s : list N) :
  Forms.test Forms.emailRegex s = true <->
  exists a b c,
    s = a ++ Forms.cu "@" :: b ++ Forms.cu "." :: c /\
    a <> [] /\ b <> [] /\ c <> [] /\
    Forall (fun x => Forms.re_plain x = true) (a ++ b ++ c).
Proof. exact (emailRegex_spec s). Qed.

Lemma re_password_printable c :
  Forms.re_password c = true -> (32 <= c < 127)%N.
Proof.
  unfold Forms.re_password, Forms.re_upper, Forms.re_lower, Forms.re_digit,
    Forms.re_special, Forms.in_range.
  cbn [existsb]. change (Forms.cu "A") with 65%N.
  change (Forms.cu "Z") with 90%N. change (Forms.cu "a") with 97%N.
  change (Forms.cu "z") with 122%N. change (Forms.cu "0") with 48%N.
  change (Forms.cu "9") with 57%N. change (Forms.cu "@") with 64%N.
  change (Forms.cu "$") with 36%N. change (Forms.cu "!") with 33%N.
  change (Forms.cu "%") with 37%N. change (Forms.cu "*") with 42%N.
  change (Forms.cu "?") with 63%N. change (Forms.cu "#") with 35%N.
  change (Forms.cu "&") with 38%N. change (Forms.cu "^") with 94%N.
  rewrite !orb_true_iff, !andb_true_iff, !N.leb_le, !N.eqb_eq. lia.
Qed.

Lemma code_points_nonempty s : s <> [] -> (1 <= Forms.code_points s)%nat.
Proof.
  destruct s as [|c [|d s]]; [congruence|simpl; lia|].
  intros _. cbn [Forms.code_points].
  destruct (Forms.in_range 55296 56319 c && Forms.in_range 56320 57343 d);
    lia.
Qed.

Lemma code_points_printable s :
  Forall (fun c => (32 <= c < 127)%N) s ->
  Forms.code_points s = length s.
Proof.
  induction s as [|c s IH]; intros Hs; [reflexivity|].
  apply Forall_cons in Hs as [Hc Hs]. specialize (IH Hs).
  destruct s as [|d s]; [reflexivity|].
  cbn [Forms.code_points] in *. unfold Forms.in_range at 1.
  destruct (N.leb_spec 55296 c); [lia|]. cbn [andb].
  rewrite IH. reflexivity.
Qed.

(** X25.  What the sign-up schema accepts, however the validator
    counts characters, as long as a non-empty string counts at least 1
    and a string of printable ASCII counts its length (code units and
    code points both do): a user name that counts 3 to 50 once trimmed,
    an address and a phone number that match their regular expressions
    once trimmed, a password that matches [passwordStrengthRegex] as
    typed, and a confirmation equal to the password.  The four other
    checks of the schema (the [min(1)] of the address, of the phone
    number and of the confirmation, and the [min(8)] of the password)
    never decide: each is implied by the rest. *)
Theorem SignupFormSchema_accepts (count : list N -> nat)
    (data : Forms.SignupData) :
  (forall s, s <> [] -> (1 <= count s)%nat) ->
  (forall s, Forall (fun c => (32 <= c < 127)%N) s -> count s = length s) ->
  (Forms.SignupFormSchema count data = true <->
   (3 <= count (Forms.trim (Forms.username data)) <= 50)%nat /\
   Forms.test Forms.emailRegex (Forms.trim (Forms.email data)) = true /\
   Forms.test Forms.phoneRegex (Forms.trim (Forms.phoneNumber data))
     = true /\
   Forms.test Forms.passwordStrengthRegex (Forms.password data) = true /\
   Forms.confirmPassword data = Forms.password data).
Proof.
  intros Hne Hascii.
  unfold Forms.SignupFormSchema, Forms.list_N_eqb. cbn [Forms.passes_by].
  rewrite !andb_true_r, !andb_true_iff, bool_decide_eq_true,
    !Nat.leb_le.
  split.
  - intros (((((Hu & _ & He) & _ & Hp) & _ & Hw) & _) & Hc).
    repeat split; try tauto. now symmetry.
  - intros (Hu & He & Hp & Hw & Hc).
    pose proof (Hne _ (emailRegex_nonempty _ He)).
    assert (Forms.trim (Forms.phoneNumber data) <> []) as Hpne
      by (intros Hnil; apply phoneRegex_length in Hp;
          rewrite Hnil in Hp; simpl in Hp; lia).
    pose proof (Hne _ Hpne).
    pose proof (passwordStrengthRegex_length _ Hw) as Hlen.
    assert (count (Forms.password data) = length (Forms.password data))
      as Hcount.
    { apply Hascii. apply passwordStrengthRegex_spec in Hw as (_ & Hall & _).
      eapply Forall_impl; [exact Hall|]. apply re_password_printable. }
    assert (Forms.password data <> []) as Hwne
      by (intros Hnil; rewrite Hnil in Hlen; simpl in Hlen; lia).
    pose proof (Hne _ Hwne).
    rewrite Hc. repeat split; auto; lia.
Qed.

Lemma SignupFormSchema_accepts_witness :
  ((forall s, s <> [] -> (1 <= Forms.code_points s)%nat) /\
   (forall s, Forall (fun c => (32 <= c < 127)%N) s ->
              Forms.code_points s = length s)) /\
  (Forms.SignupFormSchema Forms.code_points (demo_signup grin_a) = true <->
   (3 <= Forms.code_points (Forms.trim grin_a) <= 50)%nat /\
   Forms.test Forms.emailRegex (Forms.trim (units "ann@example.org"))
     = true /\
   Forms.test Forms.phoneRegex (Forms.trim (units "+1 555 010 2030"))
     = true /\
   Forms.test Forms.passwordStrengthRegex (units "Secret#123") = true /\
   units "Secret#123" = units "Secret#123") /\
  Forms.SignupFormSchema Forms.code_points (demo_signup grin_a) = false /\
  Forms.SignupFormSchema Forms.code_units (demo_signup grin_a) = true /\
  Forms.SignupFormSchema Forms.code_points (demo_signup (units "ann"))
    = true.
Proof.
  split; [split; [exact code_points_nonempty|exact code_points_printable]|].
  split.
  - exact (SignupFormSchema_accepts Forms.code_points (demo_signup grin_a)
             code_points_nonempty code_points_printable).
  - repeat split; reflexivity.
Defined.

(** X26.  The login button and the sign-in schema.  The button is
    enabled and the password matches [passwordStrengthRegex] exactly
    when the schema accepts the form and the address has no white space
    at either end.  So behind an enabled button the schema only adds
    the rule on the password's characters, and an address with a blank
    before or after it, which the schema would accept, keeps the button
    disabled. *)
Theorem login_button_and_schema (email password : list N) :
  Forms.validateFormForButton email password = true /\
  Forms.test Forms.passwordStrengthRegex password = true <->
  Forms.SigninFormSchema email password = true /\
  Forms.trim email = email.
Proof.
  unfold Forms.validateFormForButton, Forms.SigninFormSchema.
  cbn [Forms.passes]. rewrite !andb_true_r, !andb_true_iff, !Nat.leb_le.
  split.
  - intros [Hb Hw].
    destruct (Forms.test Forms.emailRegex email) eqn:He;
      [|destruct (Forms.trim email); discriminate].
    pose proof (emailRegex_trim _ He) as Ht. rewrite Ht.
    pose proof (nonempty_length _ (emailRegex_nonempty _ He)).
    pose proof (passwordStrengthRegex_length _ Hw).
    repeat split; auto.
  - intros [[(_ & He) (Hn & Hw)] Ht]. rewrite Ht in *.
    split; [|exact Hw]. rewrite He. simpl.
    destruct email as [|c email]; [discriminate|].
    destruct password as [|d password]; [simpl in Hn; lia|].
    destruct (Nat.ltb_spec (length (d :: password)) 8); [lia|reflexivity].
Qed.


(** ** The guarded route *)

Lemma match_route_home path :
  match_route path = Some HomePage <-> segments path = [].
Proof.
  unfold match_route, routes. split.
  - destruct (segments path) as [|s1 [|s2 [|s3 l]]]; [reflexivity|..];
      cbn [List.find matches fst snd];
      repeat match goal with
             | |- context [String.eqb ?a ?b] => destruct (String.eqb a b)
             end; cbn; discriminate.
  - intros ->. reflexivity.
Qed.

(** X27.  The gallery is on screen only for an authenticated session
    at the home path; there, without one, the login page is shown
    instead. *)
Theorem gallery_needs_session (path : string) (w : World) :
  (App path w = Some HomePage <->
   segments path = [] /\ isAuthenticated (authStore w) = true) /\
  (segments path = [] -> isAuthenticated (authStore w) = false ->
   App path w = Some LoginPage).
Proof.
  unfold App, route_element, PrivateRoute. split; [split|].
  - destruct (match_route path) as [v|] eqn:Hm; [|discriminate].
    destruct v; try (intros [= H]; discriminate H).
    apply match_route_home in Hm.
    destruct (isAuthenticated (authStore w)); [now split|discriminate].
  - intros [Hp Ha]. apply match_route_home in Hp. now rewrite Hp, Ha.
  - intros Hp Ha. apply match_route_home in Hp. now rewrite Hp, Ha.
Qed.

(** ** Submitting the sign-in form and the verification code *)

(** The shape the submit handlers share: the wrapper has resolved, its
    result is read, and whatever throws lands in the handler's
    [catch]. *)
Lemma submit_shape {S} (wrapper : M (option Body)) (K : Body -> M S)
    (H : JsError -> M S) (F : S -> M S) w v w1 :
  wrapper w = (Resolved v, w1) ->
  bind (try_catch (bind wrapper
                     (fun response => bind (read_response response) K)) H)
       F w
  = match v with
    | Some b => bind (try_catch (K b) H) F w1
    | None =>
        bind (H (TypeError "Cannot read properties of undefined")) F w1
    end.
Proof.
  intros Hw. unfold bind at 1. unfold try_catch at 1. unfold bind at 1.
  rewrite Hw. destruct v as [b|]; reflexivity.
Qed.

Lemma SignIn_resolves env userData w :
  exists v w1, SignIn env userData w = (Resolved v, w1).
Proof.
  apply (auth_wrapper_swallows env _ payload_email), axios_post_settles.
Qed.

Lemma VerifyCode_resolves env addr cacheCode w :
  exists v w1, VerifyCode env addr cacheCode w = (Resolved v, w1).
Proof.
  apply (auth_wrapper_swallows env _ (fun _ => addr)), axios_post_settles.
Qed.

(** X28.  Submitting a sign-in form the schema accepts never throws
    and ends with the spinner off, in the world [SignIn] left.  When
    [SignIn] resolved with a reply that reports success, the page
    announces the login, clears the form and navigates to ["/"].  When
    it resolved with [undefined] (the request failed) or with a reply
    that reports no success, the form stays, nothing is announced,
    there is no navigation and the page shows the one text
    ["An error occurred. Please try again."]: such a reply is asked for
    [json()], which it does not have, so its message never reaches the
    page. *)
Theorem sign_in_failure_shows_generic_text (env : Env)
    (fieldErrors : string -> string -> SignInPage.FormErrors)
    (s : SignInPage.State) (w : World) :
  Forms.SigninFormSchema (units (SignInPage.formData_email s))
                         (units (SignInPage.formData_password s)) = true ->
  exists v s' w',
    SignIn env (mkUser None (SignInPage.formData_email s) None
                       (SignInPage.formData_password s)) w
      = (Resolved v, w') /\
    SignInPage.handleSubmit env fieldErrors s w = (Resolved s', w') /\
    SignInPage.isLoading s' = false /\
    ((exists b,
        v = Some b /\ success b = true /\
        SignInPage.navigated s' = SignInPage.navigated s ++ ["/"] /\
        SignInPage.successes s'
          = SignInPage.successes s ++ ["Login successful!"] /\
        SignInPage.formData_email s' = "" /\
        SignInPage.formData_password s' = "" /\
        SignInPage.errors s' = SignInPage.mkFormErrors None None None) \/
     ((v = None \/ exists b, v = Some b /\ success b = false) /\
      SignInPage.errors s'
        = SignInPage.mkFormErrors None None
            (Some "An error occurred. Please try again.") /\
      SignInPage.navigated s' = SignInPage.navigated s /\
      SignInPage.successes s' = SignInPage.successes s /\
      SignInPage.formData_email s' = SignInPage.formData_email s /\
      SignInPage.formData_password s' = SignInPage.formData_password s)).
Proof.
  intros Hvalid.
  unfold SignInPage.handleSubmit, SignInPage.validateForm.
  rewrite Hvalid. cbn [negb].
  cbn [SignInPage.formData_email SignInPage.formData_password
       SignInPage.errors SignInPage.navigated SignInPage.successes].
  destruct (SignIn_resolves env
              (mkUser None (SignInPage.formData_email s) None
                      (SignInPage.formData_password s)) w)
    as (v & w1 & HS).
  rewrite (submit_shape _ _ _ _ w v w1 HS).
  exists v. destruct v as [b|]; [destruct (success b) eqn:Hs|].
  - eexists _, w1. split; [exact HS|]. split; [reflexivity|].
    split; [reflexivity|]. left. exists b. now repeat split.
  - eexists _, w1. split; [exact HS|]. split; [reflexivity|].
    split; [reflexivity|]. right. split; [right; eauto|now repeat split].
  - eexists _, w1. split; [exact HS|]. split; [reflexivity|].
    split; [reflexivity|]. right. split; [now left|now repeat split].
Qed.

Lemma sign_in_failure_shows_generic_text_witness :
  Forms.SigninFormSchema (units "ann@example.org") (units "Secret#123")
    = true /\
  fst (SignIn (demo_env srv_refuses)
              (mkUser None "ann@example.org" None "Secret#123") fresh_world)
    = Resolved (Some (mkBody false "" (Some "Request refused by the server")
                             (Some (OtherData "{}")))) /\
  exists s' w',
    SignInPage.handleSubmit (demo_env srv_refuses)
      (fun _ _ => SignInPage.mkFormErrors None None None)
      (SignInPage.mkState "ann@example.org" "Secret#123"
         (SignInPage.mkFormErrors None None None) false [] [])
      fresh_world = (Resolved s', w') /\
    SignInPage.isLoading s' = false /\
    SignInPage.errors s'
      = SignInPage.mkFormErrors None None
          (Some "An error occurred. Please try again.") /\
    SignInPage.navigated s' = [] /\
    SignInPage.successes s' = [] /\
    SignInPage.formData_email s' = "ann@example.org".
Proof.
  split; [reflexivity|]. split; [reflexivity|].
  destruct (sign_in_failure_shows_generic_text (demo_env srv_refuses)
              (fun _ _ => SignInPage.mkFormErrors None None None)
              (SignInPage.mkState "ann@example.org" "Secret#123"
                 (SignInPage.mkFormErrors None None None) false [] [])
              fresh_world eq_refl)
    as (v & s' & w' & HS & Hh & Hl & Hcases).
  exists s', w'. split; [exact Hh|]. split; [exact Hl|].
  destruct Hcases
    as [(b & -> & Hb & _)|(_ & He & Hn & Hsu & Hm & _)].
  - exfalso. injection HS as <- _. discriminate Hb.
  - now repeat split.
Defined.

(** X29.  Submitting a complete verification code for the address of
    the route never throws and ends with the spinner off, in the world
    [VerifyCode] left.  When [VerifyCode] resolved with a reply that
    reports success, the page announces it, empties the six boxes and
    navigates to ["/"].  When it resolved with [undefined] or with a
    reply that reports no success, the code stays, nothing is
    announced, there is no navigation and the page shows the one text
    ["An error occurred. Please try again."]; the message of the reply
    never reaches the page. *)
Theorem verification_failure_shows_generic_text (env : Env)
    (addr : string) (s : VerifyOtpPage.State) (w : World) :
  VerifyOtpPage.isFormValid s = true ->
  addr <> "" ->
  exists v s' w',
    VerifyCode env addr (String.concat "" (VerifyOtpPage.code s)) w
      = (Resolved v, w') /\
    VerifyOtpPage.handleSubmit env (Some addr) s w = (Resolved s', w') /\
    VerifyOtpPage.isLoading s' = false /\
    ((exists b,
        v = Some b /\ success b = true /\
        VerifyOtpPage.navigated s' = VerifyOtpPage.navigated s ++ ["/"] /\
        VerifyOtpPage.successes s'
          = VerifyOtpPage.successes s
            ++ ["Verification successful! Account created."] /\
        VerifyOtpPage.code s' = ["" ; "" ; "" ; "" ; "" ; ""] /\
        VerifyOtpPage.errors s' = VerifyOtpPage.errors s) \/
     ((v = None \/ exists b, v = Some b /\ success b = false) /\
      VerifyOtpPage.errors s'
        = VerifyOtpPage.mkFormErrors
            (Some "An error occurred. Please try again.") None /\
      VerifyOtpPage.navigated s' = VerifyOtpPage.navigated s /\
      VerifyOtpPage.successes s' = VerifyOtpPage.successes s /\
      VerifyOtpPage.code s' = VerifyOtpPage.code s)).
Proof.
  intros Hvalid Haddr.
  unfold VerifyOtpPage.handleSubmit. rewrite Hvalid.
  apply truthy_Some in Haddr. rewrite Haddr. cbn [andb default].
  destruct (VerifyCode_resolves env addr
              (String.concat "" (VerifyOtpPage.code s)) w)
    as (v & w1 & HS).
  rewrite (submit_shape _ _ _ _ w v w1 HS).
  exists v. destruct v as [b|]; [destruct (success b) eqn:Hs|].
  - eexists _, w1. split; [exact HS|]. split; [reflexivity|].
    split; [reflexivity|]. left. exists b. now repeat split.
  - eexists _, w1. split; [exact HS|]. split; [reflexivity|].
    split; [reflexivity|]. right. split; [right; eauto|now repeat split].
  - eexists _, w1. split; [exact HS|]. split; [reflexivity|].
    split; [reflexivity|]. right. split; [now left|now repeat split].
Qed.

Lemma verification_failure_shows_generic_text_witness :
  fst (VerifyCode (demo_env srv_refuses) "ann@example.org"
         (String.concat "" ["h"; "d"; "i"; "1"; "c"; "p"]) fresh_world)
    = Resolved (Some (mkBody false "" (Some "Request refused by the server")
                             (Some (OtherData "{}")))) /\
  exists s' w',
    VerifyOtpPage.handleSubmit (demo_env srv_refuses)
      (Some "ann@example.org")
      (VerifyOtpPage.mkState ["h"; "d"; "i"; "1"; "c"; "p"]
         (VerifyOtpPage.mkFormErrors None None) false true [] [])
      fresh_world = (Resolved s', w') /\
    VerifyOtpPage.isLoading s' = false /\
    VerifyOtpPage.errors s'
      = VerifyOtpPage.mkFormErrors
          (Some "An error occurred. Please try again.") None /\
    VerifyOtpPage.navigated s' = [] /\
    VerifyOtpPage.successes s' = [] /\
    VerifyOtpPage.code s' = ["h"; "d"; "i"; "1"; "c"; "p"].
Proof.
  split; [reflexivity|].
  destruct (verification_failure_shows_generic_text (demo_env srv_refuses)
              "ann@example.org"
              (VerifyOtpPage.mkState ["h"; "d"; "i"; "1"; "c"; "p"]
                 (VerifyOtpPage.mkFormErrors None None) false true [] [])
              fresh_world eq_refl ltac:(discriminate))
    as (v & s' & w' & HS & Hh & Hl & Hcases).
  exists s', w'. split; [exact Hh|]. split; [exact Hl|].
  destruct Hcases
    as [(b & -> & Hb & _)|(_ & He & Hn & Hsu & Hc)].
  - exfalso. injection HS as <- _. discriminate Hb.
  - now repeat split.
Defined.
